(** * Electronics toolkit: the numeric solvers and their formatting helpers

    A shallow embedding of the calculators of the toolkit (resistor network,
    voltage divider, Ohm's law, RC filter / RC charging, battery life) and of
    the two number formatters of the main view, followed by the properties
    that the design document states about them.

    ** Numbers

    Two readings of a JavaScript [number] are used.

    - [JS.number]: a finite value is an exact rational, and the three
      special values of IEEE arithmetic (+Infinity, -Infinity, NaN) are
      kept, with the usual rules for them (x/0, 0*Infinity,
      Infinity-Infinity, comparisons with NaN ...).  Finite arithmetic is
      exact: rounding error, overflow, underflow and the sign of zero are
      abstracted away.  This reading is used only for properties that those
      cannot change: which branch is taken on NaN, which error is set, which
      fields are left alone, the editing of lists, the texts of the
      formatters on a given real number.

    - [Double.double]: the binary64 values themselves, with the correctly
      rounded arithmetic of [SpecFloat].  The solvers whose stated
      properties speak of computed values (the series network, Ohm's law,
      the RC filter and the RC charging solver, the battery life) are
      embedded over this reading, in the modules [DoubleApp],
      [DoubleOhmsLawCalculator], [DoubleRCCalculator] and
      [BatteryLifeCalculator].

    ** Text fields

    The calculators keep the text of their input boxes and read it with
    [parseFloat].  A text field is modelled by what [parseFloat] returns on
    it: [NaN] for an empty or unparseable box, the number otherwise.  Writing
    [x.toFixed(k)] into a box therefore stores the number that [parseFloat]
    reads back from that text. *)

From Stdlib Require Import ZArith QArith Qround Qabs Qreduction Qpower.
From Stdlib Require Import List String Ascii Bool.
From Stdlib Require Import Lia Lra Psatz Znumtheory.
From Stdlib Require Import DecimalString SpecFloat.
Import ListNotations.

Local Open Scope Q_scope.

(** ** The number model *)

Module JS.

Inductive number : Type :=
| Fin (q : Q)        (* a finite value *)
| Inf (neg : bool)   (* Infinity ([false]) and -Infinity ([true]) *)
| NaN.

Definition Qltb (a b : Q) : bool := negb (Qle_bool b a).
Definition Qzero (a : Q) : bool := Qeq_bool a 0.
Definition Qneg (a : Q) : bool := Qltb a 0.

Definition isNaN (x : number) : bool :=
  match x with NaN => true | _ => false end.

Definition isFinite (x : number) : bool :=
  match x with Fin _ => true | _ => false end.

(** Unary minus. *)
Definition neg (x : number) : number :=
  match x with
  | Fin a => Fin (- a)
  | Inf s => Inf (negb s)
  | NaN => NaN
  end.

(** [x + y] *)
Definition add (x y : number) : number :=
  match x, y with
  | Fin a, Fin b => Fin (a + b)
  | Fin _, Inf s => Inf s
  | Inf s, Fin _ => Inf s
  | Inf s, Inf t => if Bool.eqb s t then Inf s else NaN
  | _, _ => NaN
  end.

(** [x - y] *)
Definition sub (x y : number) : number := add x (neg y).

(** [x * y] *)
Definition mul (x y : number) : number :=
  match x, y with
  | Fin a, Fin b => Fin (a * b)
  | Fin a, Inf s => if Qzero a then NaN else Inf (xorb (Qneg a) s)
  | Inf s, Fin b => if Qzero b then NaN else Inf (xorb s (Qneg b))
  | Inf s, Inf t => Inf (xorb s t)
  | _, _ => NaN
  end.

(** [x / y]: a finite nonzero value over zero is an infinity, 0/0 is NaN. *)
Definition div (x y : number) : number :=
  match x, y with
  | Fin a, Fin b =>
      if Qzero b then (if Qzero a then NaN else Inf (Qneg a))
      else Fin (a / b)
  | Fin _, Inf _ => Fin 0
  | Inf s, Fin b => Inf (xorb s (Qneg b))
  | _, _ => NaN
  end.

(** The comparisons; each is [false] as soon as an operand is NaN. *)
Definition ltb (x y : number) : bool :=
  match x, y with
  | Fin a, Fin b => Qltb a b
  | Fin _, Inf s => negb s
  | Inf s, Fin _ => s
  | Inf s, Inf t => s && negb t
  | _, _ => false
  end.

Definition eqb (x y : number) : bool :=             (* x === y *)
  match x, y with
  | Fin a, Fin b => Qeq_bool a b
  | Inf s, Inf t => Bool.eqb s t
  | _, _ => false
  end.

Definition gtb (x y : number) : bool := ltb y x.                 (* x > y *)
Definition leb (x y : number) : bool := ltb x y || eqb x y.      (* x <= y *)
Definition geb (x y : number) : bool := ltb y x || eqb x y.      (* x >= y *)

(** [Math.abs], [Math.floor], [Math.round] (which is floor(x + 1/2)). *)
Definition Math_abs (x : number) : number :=
  match x with
  | Fin a => Fin (Qabs a)
  | Inf _ => Inf false
  | NaN => NaN
  end.

Definition Math_floor (x : number) : number :=
  match x with
  | Fin a => Fin (inject_Z (Qfloor a))
  | _ => x
  end.

Definition Math_round (x : number) : number :=
  match x with
  | Fin a => Fin (inject_Z (Qfloor (a + (1 # 2))))
  | _ => x
  end.

(** [x % y]: the remainder has the sign of the dividend. *)
Definition Qtrunc (a : Q) : Z :=
  if Qneg a then Qceiling a else Qfloor a.

Definition rem (x y : number) : number :=
  match x, y with
  | Fin a, Fin b =>
      if Qzero b then NaN else Fin (a - b * inject_Z (Qtrunc (a / b)))
  | Fin a, Inf _ => Fin a
  | _, _ => NaN
  end.

(** [Math.PI] is the double 0x400921FB54442D18, that is
    884279719003555 / 2^48. *)
Definition Math_PI : number := Fin (884279719003555 # 281474976710656).

(** [10^k] for a natural [k]. *)
Definition pow10 (k : nat) : Z := (10 ^ Z.of_nat k)%Z.

(** [x.toFixed(k)] picks the integer [n] with [n / 10^k] nearest to [|x|],
    the larger one on a tie; [toFixed_n] is that integer. *)
Definition toFixed_n (k : nat) (a : Q) : Z :=
  Qfloor (Qabs a * inject_Z (pow10 k) + (1 # 2)).

(** [parseFloat(x.toFixed(k))]: the value that is read back from a box in
    which [x.toFixed(k)] was written.  Infinity and NaN print as "Infinity"
    and "NaN", which [parseFloat] reads back as such. *)
Definition Qround_to (k : nat) (a : Q) : Q :=
  (if Qneg a then -1 else 1) * (inject_Z (toFixed_n k a) / inject_Z (pow10 k)).

Definition reparse_toFixed (k : nat) (x : number) : number :=
  match x with
  | Fin a => Fin (Qround_to k a)
  | _ => x
  end.

(** *** Printing *)

Definition digit (d : Z) : ascii := ascii_of_nat (48 + Z.to_nat (d mod 10)).

(** The [k] low decimal digits of [n], most significant first. *)
Fixpoint digits (k : nat) (n : Z) : string :=
  match k with
  | O => EmptyString
  | S k' => String (digit (n / pow10 k')) (digits k' n)
  end.

(** A non-negative integer in decimal, without leading zeros. *)
Definition print_nat (n : Z) : string :=
  NilZero.string_of_uint (N.to_uint (Z.to_N n)).

Definition print_int (n : Z) : string :=
  ((if (n <? 0)%Z then "-" else "") ++ print_nat (Z.abs n))%string.

(** [String(x)] for an integral value (the result of [Math.floor] or
    [Math.round]), and for the special values.  (Below 1e21; from there on
    JavaScript uses exponent notation, the model prints all the digits.) *)
Definition toString_integral (x : number) : string :=
  match x with
  | Fin a => print_int (Qfloor a)
  | Inf false => "Infinity"
  | Inf true => "-Infinity"
  | NaN => "NaN"
  end.

(** [x.toFixed(k)] as text: sign, integer part, and [k] decimals.  (From
    1e21 on JavaScript prints the number as [String(x)] does, in exponent
    notation; the model prints all the digits there too.) *)
Definition toFixed (k : nat) (x : number) : string :=
  match x with
  | Fin a =>
      let n := toFixed_n k a in
      ((if Qneg a then "-" else "")
         ++ print_nat (n / pow10 k)
         ++ (match k with O => "" | _ => "." ++ digits k n end))%string
  | Inf false => "Infinity"
  | Inf true => "-Infinity"
  | NaN => "NaN"
  end.

(** Digit grouping of the integer part, as [toLocaleString('en-US')] does:
    a comma before every block of three digits, counted from the right. *)
Fixpoint group_rev (cs : list ascii) (i : nat) : list ascii :=
  match cs with
  | [] => []
  | c :: cs' =>
      if Nat.eqb i 3 then ","%char :: c :: group_rev cs' 1
      else c :: group_rev cs' (S i)
  end.

Definition group3 (n : Z) : string :=
  string_of_list_ascii
    (rev (group_rev (rev (list_ascii_of_string (print_nat n))) 0)).

(** The fraction digits of [n / 10^k], trailing zeros dropped. *)
Fixpoint fraction (k : nat) (n : Z) : string :=
  match k with
  | O => EmptyString
  | S k' => if (n mod 10 =? 0)%Z then fraction k' (n / 10) else digits k n
  end.

(** [x.toLocaleString('en-US', { maximumFractionDigits: k })]: the value
    rounded to [k] decimals (ties away from zero), grouped integer part, no
    trailing zeros in the fraction. *)
Definition toLocaleString (k : nat) (x : number) : string :=
  match x with
  | Fin a =>
      let n := toFixed_n k a in
      let f := fraction k (n mod pow10 k) in
      ((if Qneg a then "-" else "")
         ++ group3 (n / pow10 k)
         ++ (match f with EmptyString => "" | _ => "." ++ f end))%string
  | Inf false => "∞"
  | Inf true => "-∞"
  | NaN => "NaN"
  end.

(** The decimal exponent of a positive rational [a]: the [e] with
    [10^e <= a < 10^(e+1)], searched downwards from a bound that the binary
    size of the numerator gives; the binary size of the denominator bounds
    the number of steps. *)
Definition Qpow10 (e : Z) : Q := Qpower 10 e.

Fixpoint exponent10_from (fuel : nat) (e : Z) (a : Q) : Z :=
  match fuel with
  | O => e
  | S fuel' =>
      if Qle_bool (Qpow10 e) a then e else exponent10_from fuel' (e - 1) a
  end.

Definition exponent10 (a : Q) : Z :=
  let hi := (Z.log2 (Qnum a) + 1)%Z in
  let lo := (Z.log2 (Zpos (Qden a)) + 1)%Z in
  exponent10_from (Z.to_nat (hi + lo + 1)) hi a.

(** [x.toExponential(f)] picks [e] and [n] with [10^f <= n < 10^(f+1)] and
    [n * 10^(e-f)] nearest to [|x|] (the larger [n] on a tie); it prints the
    first digit of [n], a point, the [f] other digits, and the exponent with
    its sign. *)
Definition toExponential_en (f : nat) (a : Q) : Z * Z :=
  let e := exponent10 (Qabs a) in
  let n := Qfloor (Qabs a / Qpow10 (e - Z.of_nat f) + (1 # 2)) in
  if (n =? pow10 (S f))%Z then ((e + 1)%Z, pow10 f) else (e, n).

Definition toExponential (f : nat) (x : number) : string :=
  match x with
  | Fin a =>
      let '(e, n) := if Qzero a then (0%Z, 0%Z) else toExponential_en f a in
      ((if Qneg a then "-" else "")
         ++ String (digit (n / pow10 f))
              (match f with O => "" | _ => "." ++ digits f n end)
         ++ "e" ++ (if (e <? 0)%Z then "-" else "+") ++ print_nat (Z.abs e))%string
  | Inf false => "Infinity"
  | Inf true => "-Infinity"
  | NaN => "NaN"
  end.

End JS.

Import JS.

Declare Scope js_scope.
Delimit Scope js_scope with js.
Infix "+" := add : js_scope.
Infix "-" := sub : js_scope.
Infix "*" := mul : js_scope.
Infix "/" := div : js_scope.
Infix "<?" := ltb : js_scope.
Infix ">?" := gtb (at level 70, no associativity) : js_scope.
Infix "<=?" := leb : js_scope.
Infix ">=?" := geb (at level 70, no associativity) : js_scope.
Infix "===" := eqb (at level 70, no associativity) : js_scope.

(** Number literals of the source. *)
Definition num (z : Z) : number := Fin (inject_Z z).

(** [x || d] for a number [x]: the falsy numbers are 0 and NaN. *)
Definition or_default (x d : number) : number :=
  if isNaN x || eqb x (num 0) then d else x.

(** ** types.ts *)

Module Types.

Inductive UnitMultiplier : Type := Ohm | kOhm | MOhm.

(** The numeric value of the enum member. *)
Definition multiplier_value (m : UnitMultiplier) : number :=
  match m with
  | Ohm => num 1
  | kOhm => num 1000
  | MOhm => num 1000000
  end.

Record Resistor : Type := mkResistor {
  id : string;
  value : number;             (* the user input number *)
  multiplier : UnitMultiplier
}.

Inductive CalculationMode : Type :=
| Series | Parallel | VoltageDivider | LED | OhmsLaw | RCTime | BatteryLife
| ColorCode.

End Types.

(** ** App.tsx: the resistor list, the series / parallel solver and the
    formatters *)

Module App.
Import Types.
Local Open Scope js_scope.

Inductive InputType : Type := voltage | current.

(** The initial list; [id1] and [id2] are the two results of [generateId()]. *)
Definition initialResistors (id1 id2 : string) : list Resistor :=
  [ mkResistor id1 (num 100) Ohm; mkResistor id2 (num 200) Ohm ].

(** [addResistor]; [newId] is the result of [generateId()]. *)
Definition addResistor (newId : string) (resistors : list Resistor)
  : list Resistor :=
  resistors ++ [ mkResistor newId (num 100) Ohm ].

(** [removeResistor] *)
Definition removeResistor (rid : string) (resistors : list Resistor)
  : list Resistor :=
  if (1 <? List.length resistors)%nat
  then filter (fun r => negb (String.eqb (id r) rid)) resistors
  else resistors.

(** [updateResistor(id, field, value)].  The rows call it with the field
    'value' and a number, or with the field 'multiplier' and a unit. *)
Inductive FieldUpdate : Type :=
| SetValue (v : number)
| SetMultiplier (m : UnitMultiplier).

Definition setField (u : FieldUpdate) (r : Resistor) : Resistor :=
  match u with
  | SetValue v => mkResistor (id r) v (multiplier r)
  | SetMultiplier m => mkResistor (id r) (value r) m
  end.

Definition updateResistor (rid : string) (u : FieldUpdate)
  (resistors : list Resistor) : list Resistor :=
  map (fun r => if String.eqb (id r) rid then setField u r else r) resistors.

(** [formatNumber] *)
Definition formatNumber (n : number) : string :=
  if n === num 0 then "0"%string
  else if (Math_abs n <? Fin (1 # 1000)) || (Math_abs n >? num 10000)
       then toExponential 3 n
       else toLocaleString 3 n.

(** [formatUnit]: the scaling of [value] and the choice of [suffix] ... *)
Definition formatUnit_scale (n : number) : number * string :=
  let value := n in
  if value >=? num 1000000 then (value / num 1000000, "M"%string)
  else if value >=? num 1000 then (value / num 1000, "k"%string)
  else if (value <? num 1) && (value >? num 0) then
    if value <? Fin (1 # 1000000) then (value * num 1000000000, "n"%string)
    else if value <? Fin (1 # 1000) then (value * num 1000000, "µ"%string)
    else (value * num 1000, "m"%string)
  else (value, ""%string).

(** ... and the text that [formatUnit] returns. *)
Definition formatUnit (n : number) (unit : string) : string :=
  let '(value, suffix) := formatUnit_scale n in
  (toLocaleString 3 value ++ " " ++ suffix ++ unit)%string.

(** The effect that runs when [mode] changes: it resets the input type. *)
Definition modeEffect (mode : CalculationMode) (inputType : InputType)
  : InputType :=
  match mode with
  | Series => voltage
  | Parallel => current
  | _ => inputType
  end.

(** The source box: [setSourceValue(parseFloat(e.target.value) || 0)]. *)
Definition onSourceChange (parsed : number) : number :=
  or_default parsed (num 0).

End App.

(** ** components/ResistorRow.tsx: what a row sends to the list *)

Module ResistorRow.
Import Types App.

(** The value box: [onChange(resistor.id, 'value',
    parseFloat(e.target.value) || 0)]. *)
Definition onValueChange (r : Resistor) (parsed : number)
  : list Resistor -> list Resistor :=
  updateResistor (id r) (SetValue (or_default parsed (num 0))).

(** The unit select. *)
Definition onMultiplierChange (r : Resistor) (m : UnitMultiplier)
  : list Resistor -> list Resistor :=
  updateResistor (id r) (SetMultiplier m).

(** The remove button, and whether it is enabled. *)
Definition onRemoveClick (r : Resistor) : list Resistor -> list Resistor :=
  removeResistor (id r).

Definition canRemove (resistors : list Resistor) : bool :=
  (1 <? List.length resistors)%nat.

End ResistorRow.

(** The design document sorts the error messages of the solvers into four
    kinds (its section on error handling). *)
Inductive ErrorKind : Type :=
| InsufficientInputs | DivisionByZero | InvalidConfiguration | NegativeResult.

(** ** components/OhmsLawCalculator.tsx *)

Module OhmsLawCalculator.
Local Open Scope js_scope.

Record OhmsState : Type := mkOhms {
  v : number;   (* Voltage *)
  i : number;   (* Current *)
  r : number;   (* Resistance *)
  p : number    (* Power *)
}.

Inductive Key : Type := Kv | Ki | Kr | Kp.

Inductive Error : Type :=
| NeedTwo       (* '请输入任意 2 个参数进行计算' *)
| CalcError.    (* '计算错误，请检查数值是否合理', in the [catch] *)

Definition text (e : Error) : string :=
  match e with
  | NeedTwo => "请输入任意 2 个参数进行计算"
  | CalcError => "计算错误，请检查数值是否合理"
  end.

(** "need exactly 2" is the wrong-count error; the message of the [catch]
    is none of the four kinds. *)
Definition kind (e : Error) : option ErrorKind :=
  match e with
  | NeedTwo => Some InsufficientInputs
  | CalcError => None
  end.

Record State : Type := mkState {
  values : OhmsState;
  calculatedKeys : list Key;
  error : option Error
}.

Definition initial : State := mkState (mkOhms NaN NaN NaN NaN) [] None.

(** [inputs[k]]: the parsed box when it is a number, [undefined] ([None])
    otherwise. *)
Definition input (x : number) : option number :=
  if isNaN x then None else Some x.

Definition count (o : option number) : nat :=
  match o with Some _ => 1 | None => 0 end.

(** The write-back [parseFloat(x.toFixed(4)).toString()] of a defined
    quantity. *)
Definition writeBack (x : option number) (old : number) : number :=
  match x with
  | Some y => reparse_toFixed 4 y
  | None => old
  end.

Section Calculate.

Variable Math_sqrt : number -> number.

(** No operation of the [try] block throws (arithmetic on numbers and
    [toFixed(4)] do not), so the [catch] is never entered. *)
Definition calculate (st : State) : State :=
  let vals := values st in
  let iv := input (v vals) in
  let ii := input (i vals) in
  let ir := input (r vals) in
  let ip := input (p vals) in
  let inputCount := (count iv + count ii + count ir + count ip)%nat in
  if negb (Nat.eqb inputCount 2) then
    mkState vals (calculatedKeys st) (Some NeedTwo)
  else
    let '(v', i', r', p', calculated) :=
      match iv, ii, ir, ip with
      | Some v, Some i, _, _ =>
          (Some v, Some i, Some (v / i), Some (v * i), [Kr; Kp])
      | Some v, _, Some r, _ =>
          (Some v, Some (v / r), Some r, Some ((v * v) / r), [Ki; Kp])
      | Some v, _, _, Some p =>
          (Some v, Some (p / v), Some ((v * v) / p), Some p, [Ki; Kr])
      | _, Some i, Some r, _ =>
          (Some (i * r), Some i, Some r, Some (i * i * r), [Kv; Kp])
      | _, Some i, _, Some p =>
          (Some (p / i), Some i, Some (p / (i * i)), Some p, [Kv; Kr])
      | _, _, Some r, Some p =>
          (Some (Math_sqrt (p * r)), Some (Math_sqrt (p / r)), Some r, Some p,
           [Kv; Ki])
      | _, _, _, _ => (iv, ii, ir, ip, [])
      end in
    mkState
      (mkOhms (writeBack v' (v vals)) (writeBack i' (i vals))
              (writeBack r' (r vals)) (writeBack p' (p vals)))
      calculated (error st).

End Calculate.

(** [handleChange(key, value)]: the marks of the calculated boxes and the
    error are cleared, the box [key] takes the new text. *)
Definition setBox (k : Key) (x : number) (vals : OhmsState) : OhmsState :=
  match k with
  | Kv => mkOhms x (i vals) (r vals) (p vals)
  | Ki => mkOhms (v vals) x (r vals) (p vals)
  | Kr => mkOhms (v vals) (i vals) x (p vals)
  | Kp => mkOhms (v vals) (i vals) (r vals) x
  end.

Definition handleChange (k : Key) (x : number) (st : State) : State :=
  mkState (setBox k x (values st)) [] None.

Definition handleClear (st : State) : State := initial.

End OhmsLawCalculator.

(** ** components/VoltageDivider.tsx *)

Module VoltageDivider.
Local Open Scope js_scope.

Record DividerState : Type := mkDivider {
  vin : number;
  ra : number;
  rb : number;
  vout : number
}.

Inductive Field : Type := Fvin | Fra | Frb | Fvout.

Inductive Error : Type :=
| NeedThree        (* '请准确输入其中任意 3 个数值进行计算' *)
| SumZero          (* '电阻和不能为 0' *)
| VoutZero         (* 'Vout 不能为 0 (无法计算 Ra)' *)
| VinNearVout      (* 'Vin 不能等于 Vout' *)
| RaNegative       (* '计算结果 Ra 为负值，...' *)
| VinEqVout        (* 'Vin 不能等于 Vout (分母为 0)' *)
| RbNegative       (* '计算结果 Rb 为负值，...' *)
| RbZero.          (* 'Rb 不能为 0' *)

Definition text (e : Error) : string :=
  match e with
  | NeedThree => "请准确输入其中任意 3 个数值进行计算"
  | SumZero => "电阻和不能为 0"
  | VoutZero => "Vout 不能为 0 (无法计算 Ra)"
  | VinNearVout => "Vin 不能等于 Vout"
  | RaNegative =>
      "计算结果 Ra 为负值，请输入合理的电压参数 (Vin 必须大于 Vout)"
  | VinEqVout => "Vin 不能等于 Vout (分母为 0)"
  | RbNegative =>
      "计算结果 Rb 为负值，请输入合理的电压参数 (Vin 必须大于 Vout)"
  | RbZero => "Rb 不能为 0"
  end.

Definition kind (e : Error) : ErrorKind :=
  match e with
  | NeedThree => InsufficientInputs
  | SumZero | VoutZero | VinNearVout | VinEqVout | RbZero => DivisionByZero
  | RaNegative | RbNegative => NegativeResult
  end.

Record State : Type := mkState {
  values : DividerState;
  calculatedField : option Field;
  error : option Error
}.

Definition initial : State := mkState (mkDivider NaN NaN NaN NaN) None None.

Definition setError (e : Error) (st : State) : State :=
  mkState (values st) (calculatedField st) (Some e).

(** [setValues(prev => ({ ...prev, [f]: x.toFixed(3) }))] followed by
    [setCalculatedField(f)]. *)
Definition setResult (f : Field) (x : number) (st : State) : State :=
  let vs := values st in
  let y := reparse_toFixed 3 x in
  mkState
    (match f with
     | Fvin => mkDivider y (ra vs) (rb vs) (vout vs)
     | Fra => mkDivider (vin vs) y (rb vs) (vout vs)
     | Frb => mkDivider (vin vs) (ra vs) y (vout vs)
     | Fvout => mkDivider (vin vs) (ra vs) (rb vs) y
     end)
    (Some f) (error st).

Definition validInputs (vs : DividerState) : list number :=
  filter (fun x => negb (isNaN x)) [vin vs; ra vs; rb vs; vout vs].

Definition calculate (st : State) : State :=
  let vin := vin (values st) in
  let ra := ra (values st) in
  let rb := rb (values st) in
  let vout := vout (values st) in
  if negb (Nat.eqb (List.length (validInputs (values st))) 3) then
    setError NeedThree st
  else if isNaN vout then
    if ra + rb === num 0 then setError SumZero st
    else setResult Fvout (vin * (rb / (ra + rb))) st
  else if isNaN ra then
    if vout === num 0 then setError VoutZero st
    else if Math_abs (vin - vout) <? Fin (1 # 1000000)
         then setError VinNearVout st
    else
      let res := rb * (vin / vout - num 1) in
      if res <? num 0 then setError RaNegative st
      else setResult Fra res st
  else if isNaN rb then
    if vin === vout then setError VinEqVout st
    else
      let res := (vout * ra) / (vin - vout) in
      if res <? num 0 then setError RbNegative st
      else setResult Frb res st
  else if isNaN vin then
    if rb === num 0 then setError RbZero st
    else setResult Fvin (vout * (ra + rb) / rb) st
  else st.

(** [handleChange(field, value)]: the mark of the derived box and the error
    are cleared, the box [field] takes the new text. *)
Definition setBox (f : Field) (x : number) (vs : DividerState)
  : DividerState :=
  match f with
  | Fvin => mkDivider x (ra vs) (rb vs) (vout vs)
  | Fra => mkDivider (vin vs) x (rb vs) (vout vs)
  | Frb => mkDivider (vin vs) (ra vs) x (vout vs)
  | Fvout => mkDivider (vin vs) (ra vs) (rb vs) x
  end.

Definition handleChange (f : Field) (x : number) (st : State) : State :=
  mkState (setBox f x (values st)) None None.

Definition handleClear (st : State) : State := initial.

(** [isReadOnly]: the derived box cannot be edited. *)
Definition field_eqb (f g : Field) : bool :=
  match f, g with
  | Fvin, Fvin | Fra, Fra | Frb, Frb | Fvout, Fvout => true
  | _, _ => false
  end.

Definition isReadOnly (f : Field) (st : State) : bool :=
  match calculatedField st with
  | Some g => field_eqb g f
  | None => false
  end.

End VoltageDivider.

(** ** components/RCCalculator.tsx *)

Module RCCalculator.
Local Open Scope js_scope.

Record RCState : Type := mkRC {
  r : number;       (* Resistance value (text box) *)
  rUnit : number;   (* Multiplier *)
  c : number;       (* Capacitance value (text box) *)
  cUnit : number;
  f : number;       (* Frequency value (text box) *)
  fUnit : number
}.

Record DelayState : Type := mkDelay {
  vin : number;       (* Supply Voltage (text box) *)
  vtarget : number;   (* Target Threshold Voltage (text box) *)
  dr : number;        (* [r] (text box) *)
  drUnit : number;
  dc : number;        (* [c] (text box) *)
  dcUnit : number;
  t : number;         (* Time (text box) *)
  tUnit : number      (* 1 (s), 0.001 (ms), 0.000001 (us) *)
}.

Inductive Error : Type :=
| FreqZero         (* "频率不能为 0" *)
| CapZero          (* "电容不能为 0" *)
| NeedTwo          (* "请输入任意 2 个参数进行计算" *)
| NeedVin          (* "请输入电源电压 (Vin)" *)
| NeedRC           (* "请输入电阻和电容值" *)
| TargetNotBelow   (* "目标电压必须小于电源电压 (充电模式)" *)
| TargetNotPositive. (* "目标电压必须大于 0" *)

Definition text (e : Error) : string :=
  match e with
  | FreqZero => "频率不能为 0"
  | CapZero => "电容不能为 0"
  | NeedTwo => "请输入任意 2 个参数进行计算"
  | NeedVin => "请输入电源电压 (Vin)"
  | NeedRC => "请输入电阻和电容值"
  | TargetNotBelow => "目标电压必须小于电源电压 (充电模式)"
  | TargetNotPositive => "目标电压必须大于 0"
  end.

Definition kind (e : Error) : ErrorKind :=
  match e with
  | FreqZero | CapZero => DivisionByZero
  | NeedTwo | NeedVin | NeedRC => InsufficientInputs
  | TargetNotBelow | TargetNotPositive => InvalidConfiguration
  end.

Record State : Type := mkState {
  values : RCState;
  result : option (number * number);        (* { tau, fc } *)
  delayValues : DelayState;
  delayResult : option (number * number);   (* { t, tau } *)
  error : option Error
}.

Definition initial : State :=
  mkState
    (mkRC NaN (num 1000) NaN (Fin (1 # 1000000)) NaN (num 1))
    None
    (mkDelay (num 5) (Fin (316 # 100)) (num 10) (num 1000)
             (num 100) (Fin (1 # 1000000)) NaN (num 1))
    None None.

Definition setError (e : Error) (st : State) : State :=
  mkState (values st) (result st) (delayValues st) (delayResult st) (Some e).

Definition setResult (tau fc : number) (st : State) : State :=
  mkState (values st) (Some (tau, fc)) (delayValues st) (delayResult st)
    (error st).

Definition setValues (g : RCState -> RCState) (st : State) : State :=
  mkState (g (values st)) (result st) (delayValues st) (delayResult st)
    (error st).

Definition setDelayValues (g : DelayState -> DelayState) (st : State) : State :=
  mkState (values st) (result st) (g (delayValues st)) (delayResult st)
    (error st).

Definition setDelayResult (t tau : number) (st : State) : State :=
  mkState (values st) (result st) (delayValues st) (Some (t, tau)) (error st).

(** [!isNaN(x) ? x * unit : NaN] *)
Definition scaled (x unit : number) : number :=
  if negb (isNaN x) then x * unit else NaN.

Definition calculateFilter (st : State) : State :=
  let rVal := r (values st) in
  let cVal := c (values st) in
  let fVal := f (values st) in
  let r := scaled rVal (rUnit (values st)) in
  let c := scaled cVal (cUnit (values st)) in
  let f := scaled fVal (fUnit (values st)) in
  if negb (isNaN r) && negb (isNaN c) then
    let tau := r * c in
    let fc := num 1 / (num 2 * Math_PI * r * c) in
    let bestFUnit :=
      if fc >=? num 1000000 then num 1000000
      else if fc >=? num 1000 then num 1000
      else num 1 in
    setValues
      (fun prev => mkRC (RCCalculator.r prev) (rUnit prev)
                        (RCCalculator.c prev) (cUnit prev)
                        (reparse_toFixed 2 (fc / bestFUnit)) bestFUnit)
      (setResult tau fc st)
  else if negb (isNaN r) && negb (isNaN f) then
    if f === num 0 then setError FreqZero st
    else
      let cCalc := num 1 / (num 2 * Math_PI * r * f) in
      let tau := r * cCalc in
      let bestCUnit :=
        if cCalc <? Fin (1 # 1000000000) then Fin (1 # 1000000000000)
        else if cCalc <? Fin (1 # 1000000) then Fin (1 # 1000000000)
        else if cCalc <? Fin (1 # 1000) then Fin (1 # 1000000)
        else Fin (1 # 1000) in
      setValues
        (fun prev => mkRC (RCCalculator.r prev) (rUnit prev)
                          (reparse_toFixed 2 (cCalc / bestCUnit)) bestCUnit
                          (RCCalculator.f prev) (fUnit prev))
        (setResult tau f st)
  else if negb (isNaN c) && negb (isNaN f) then
    if f === num 0 then setError FreqZero st
    else if c === num 0 then setError CapZero st
    else
      let rCalc := num 1 / (num 2 * Math_PI * c * f) in
      let tau := rCalc * c in
      let bestRUnit :=
        if rCalc >=? num 1000000 then num 1000000
        else if rCalc >=? num 1000 then num 1000
        else num 1 in
      setValues
        (fun prev => mkRC (reparse_toFixed 2 (rCalc / bestRUnit)) bestRUnit
                          (RCCalculator.c prev) (cUnit prev)
                          (RCCalculator.f prev) (fUnit prev))
        (setResult tau f st)
  else setError NeedTwo st.

Section Delay.

Variables Math_log Math_exp : number -> number.

Definition calculateDelay (st : State) : State :=
  let dv := delayValues st in
  let vin := vin dv in
  let vtarget := vtarget dv in
  let r := dr dv * drUnit dv in
  let c := dc dv * dcUnit dv in
  let t := t dv * tUnit dv in
  let hasR := negb (isNaN r) && (r >? num 0) in
  let hasC := negb (isNaN c) && (c >? num 0) in
  let hasVin := negb (isNaN vin) in
  let hasTarget := negb (isNaN vtarget) in
  let hasTime := negb (isNaN t) && (t >? num 0) in
  if negb hasVin then setError NeedVin st
  else if negb hasR || negb hasC then setError NeedRC st
  else
    let tau := r * c in
    if hasTarget && negb hasTime then
      if vtarget >=? vin then setError TargetNotBelow st
      else if vtarget <=? num 0 then setError TargetNotPositive st
      else
        let ratio := vtarget / vin in
        let timeCalc := neg tau * Math_log (num 1 - ratio) in
        let bestTUnit :=
          if timeCalc <? Fin (1 # 1000) then Fin (1 # 1000000)
          else if timeCalc <? num 1 then Fin (1 # 1000)
          else num 1 in
        setDelayResult timeCalc tau
          (setDelayValues
             (fun prev => mkDelay (RCCalculator.vin prev)
                            (RCCalculator.vtarget prev)
                            (dr prev) (drUnit prev) (dc prev) (dcUnit prev)
                            (reparse_toFixed 3 (timeCalc / bestTUnit))
                            bestTUnit)
             st)
    else if hasTime then
      let vCalc := vin * (num 1 - Math_exp (neg t / tau)) in
      setDelayResult t tau
        (setDelayValues
           (fun prev => mkDelay (RCCalculator.vin prev)
                          (reparse_toFixed 3 vCalc)
                          (dr prev) (drUnit prev) (dc prev) (dcUnit prev)
                          (RCCalculator.t prev) (tUnit prev))
           st)
    else setDelayResult tau tau st.

End Delay.

(** [handleFilterChange(field, value)]: the box or unit [field] takes the
    new value, the result and the error are cleared. *)
Inductive FilterField : Type := Fr | FrUnit | Fc | FcUnit | Ff | FfUnit.

Definition setFilterField (k : FilterField) (x : number) (vs : RCState)
  : RCState :=
  match k with
  | Fr => mkRC x (rUnit vs) (c vs) (cUnit vs) (f vs) (fUnit vs)
  | FrUnit => mkRC (r vs) x (c vs) (cUnit vs) (f vs) (fUnit vs)
  | Fc => mkRC (r vs) (rUnit vs) x (cUnit vs) (f vs) (fUnit vs)
  | FcUnit => mkRC (r vs) (rUnit vs) (c vs) x (f vs) (fUnit vs)
  | Ff => mkRC (r vs) (rUnit vs) (c vs) (cUnit vs) x (fUnit vs)
  | FfUnit => mkRC (r vs) (rUnit vs) (c vs) (cUnit vs) (f vs) x
  end.

Definition handleFilterChange (k : FilterField) (x : number) (st : State)
  : State :=
  mkState (setFilterField k x (values st)) None (delayValues st)
    (delayResult st) None.

(** [handleDelayChange(field, value)]: the box or unit takes the new value
    and the error is cleared; the last result stays. *)
Inductive DelayField : Type :=
| Dvin | Dvtarget | Dr | DrUnit | Dc | DcUnit | Dt | DtUnit.

Definition setDelayField (k : DelayField) (x : number) (dv : DelayState)
  : DelayState :=
  match k with
  | Dvin => mkDelay x (vtarget dv) (dr dv) (drUnit dv) (dc dv) (dcUnit dv)
              (t dv) (tUnit dv)
  | Dvtarget => mkDelay (vin dv) x (dr dv) (drUnit dv) (dc dv) (dcUnit dv)
                  (t dv) (tUnit dv)
  | Dr => mkDelay (vin dv) (vtarget dv) x (drUnit dv) (dc dv) (dcUnit dv)
            (t dv) (tUnit dv)
  | DrUnit => mkDelay (vin dv) (vtarget dv) (dr dv) x (dc dv) (dcUnit dv)
                (t dv) (tUnit dv)
  | Dc => mkDelay (vin dv) (vtarget dv) (dr dv) (drUnit dv) x (dcUnit dv)
            (t dv) (tUnit dv)
  | DcUnit => mkDelay (vin dv) (vtarget dv) (dr dv) (drUnit dv) (dc dv) x
                (t dv) (tUnit dv)
  | Dt => mkDelay (vin dv) (vtarget dv) (dr dv) (drUnit dv) (dc dv)
            (dcUnit dv) x (tUnit dv)
  | DtUnit => mkDelay (vin dv) (vtarget dv) (dr dv) (drUnit dv) (dc dv)
                (dcUnit dv) (t dv) x
  end.

Definition handleDelayChange (k : DelayField) (x : number) (st : State)
  : State :=
  mkState (values st) (result st) (setDelayField k x (delayValues st))
    (delayResult st) None.

End RCCalculator.

(** ** components/LEDCalculator.tsx *)

Module LEDCalculator.
Local Open Scope js_scope.

Record LEDState : Type := mkLED {
  sourceVoltage : number;   (* text box *)
  ledVoltage : number;      (* text box *)
  ledCurrent : number       (* text box, mA *)
}.

Record LEDResult : Type := mkResult {
  resistance : number;
  resistorPower : number;
  ledPower : number
}.

(** The forward voltages of [LED_PRESETS]: red, green, blue, white,
    yellow. *)
Definition LED_PRESETS : list (string * number) :=
  [ ("红色 (Red)"%string, Fin (20 # 10)); ("绿色 (Green)"%string, Fin (21 # 10));
    ("蓝色 (Blue)"%string, Fin (32 # 10)); ("白色 (White)"%string, Fin (32 # 10));
    ("黄色 (Yellow)"%string, Fin (21 # 10)) ].

Record State : Type := mkState {
  values : LEDState;
  result : option LEDResult
}.

Definition initial : State :=
  mkState (mkLED (num 5) (Fin (20 # 10)) (num 20)) None.

(** The text of the [alert]. *)
Definition sourceTooLow : string := "电源电压必须大于 LED 导通电压".

(** [calculate]: the new state, and the text of the alert when one is
    shown. *)
Definition calculate (st : State) : State * option string :=
  let vs := sourceVoltage (values st) in
  let vf := ledVoltage (values st) in
  let if_mA := ledCurrent (values st) in
  if isNaN vs || isNaN vf || isNaN if_mA then (st, None)
  else if vs <=? vf then (st, Some sourceTooLow)
  else
    let if_A := if_mA / num 1000 in
    let r := (vs - vf) / if_A in
    let p_res := (vs - vf) * if_A in
    let p_led := vf * if_A in
    (mkState (values st) (Some (mkResult r p_res p_led)), None).

(** [handlePreset]: only the LED voltage box changes. *)
Definition handlePreset (voltage : number) (st : State) : State :=
  mkState (mkLED (sourceVoltage (values st)) voltage (ledCurrent (values st)))
    (result st).

(** The reset button. *)
Definition reset (st : State) : State :=
  mkState (mkLED NaN NaN NaN) None.

End LEDCalculator.

(** ** components/ColorCodeCalculator.tsx *)

Module ColorCodeCalculator.
Local Open Scope js_scope.

Record ColorDef : Type := mkColor {
  name : string;
  cnName : string;
  hex : string;
  textClass : string;
  value : option number;
  multiplier : option number;
  tolerance : option number
}.

Definition COLORS_table : list (string * ColorDef) :=
  [ ("black"%string,
     mkColor "Black" "黑" "#000000" "text-white"
       (Some (num 0)) (Some (num 1)) None);
    ("brown"%string,
     mkColor "Brown" "棕" "#8B4513" "text-white"
       (Some (num 1)) (Some (num 10)) (Some (num 1)));
    ("red"%string,
     mkColor "Red" "红" "#DC2626" "text-white"
       (Some (num 2)) (Some (num 100)) (Some (num 2)));
    ("orange"%string,
     mkColor "Orange" "橙" "#F97316" "text-white"
       (Some (num 3)) (Some (num 1000)) None);
    ("yellow"%string,
     mkColor "Yellow" "黄" "#FACC15" "text-black"
       (Some (num 4)) (Some (num 10000)) None);
    ("green"%string,
     mkColor "Green" "绿" "#16A34A" "text-white"
       (Some (num 5)) (Some (num 100000)) (Some (Fin (5 # 10))));
    ("blue"%string,
     mkColor "Blue" "蓝" "#2563EB" "text-white"
       (Some (num 6)) (Some (num 1000000)) (Some (Fin (25 # 100))));
    ("violet"%string,
     mkColor "Violet" "紫" "#7C3AED" "text-white"
       (Some (num 7)) (Some (num 10000000)) (Some (Fin (1 # 10))));
    ("grey"%string,
     mkColor "Grey" "灰" "#64748B" "text-white"
       (Some (num 8)) (Some (num 100000000)) (Some (Fin (5 # 100))));
    ("white"%string,
     mkColor "White" "白" "#FFFFFF" "text-black"
       (Some (num 9)) (Some (num 1000000000)) None);
    ("gold"%string,
     mkColor "Gold" "金" "#D4AF37" "text-white"
       None (Some (Fin (1 # 10))) (Some (num 5)));
    ("silver"%string,
     mkColor "Silver" "银" "#C0C0C0" "text-black"
       None (Some (Fin (1 # 100))) (Some (num 10))) ].

(** [COLORS[key]] *)
Fixpoint lookup (table : list (string * ColorDef)) (key : string)
  : option ColorDef :=
  match table with
  | [] => None
  | (k, def) :: rest => if String.eqb k key then Some def else lookup rest key
  end.

Definition COLORS (key : string) : option ColorDef := lookup COLORS_table key.

Definition COLOR_KEYS : list string :=
  [ "black"; "brown"; "red"; "orange"; "yellow";
    "green"; "blue"; "violet"; "grey"; "white";
    "gold"; "silver" ]%string.

(** The array [colors]: an entry is a colour key, or a hole ([None]) that an
    assignment beyond the end of the array leaves behind. *)
Record State : Type := mkState {
  bands : nat;
  colors : list (option string)
}.

Definition initial : State :=
  mkState 4 [Some "brown"; Some "black"; Some "red"; Some "gold"]%string.

(** [handleModeChange] *)
Definition handleModeChange (newBands : nat) (st : State) : State :=
  mkState newBands
    (if Nat.eqb newBands 4
     then [Some "brown"; Some "black"; Some "red"; Some "gold"]%string
     else [Some "brown"; Some "black"; Some "black"; Some "brown";
           Some "brown"]%string).

(** [arr[index] = x] on a copy of the array: an index beyond the end
    extends the array, leaving holes. *)
Fixpoint array_set {A : Type} (arr : list (option A)) (index : nat) (x : A)
  : list (option A) :=
  match index, arr with
  | O, [] => [Some x]
  | O, _ :: rest => Some x :: rest
  | S i, [] => None :: array_set [] i x
  | S i, y :: rest => y :: array_set rest i x
  end.

(** [updateColor] *)
Definition updateColor (index : nat) (colorKey : string) (st : State) : State :=
  mkState (bands st) (array_set (colors st) index colorKey).

(** [COLORS[colors[i]]?.attr || d]: the attribute of the colour at
    position [i], or [d] when the position is a hole or beyond the end, the
    key is not in the table, the colour has no such attribute, or the
    attribute is 0. *)
Definition attribute (attr : ColorDef -> option number) (d : number)
  (colors : list (option string)) (i : nat) : number :=
  match nth i colors None with
  | None => d
  | Some key =>
      match COLORS key with
      | None => d
      | Some def =>
          match attr def with
          | None => d
          | Some x => or_default x d
          end
      end
  end.

(** [calculate]: the resistance and the tolerance. *)
Definition calculate (st : State) : number * number :=
  let colors := colors st in
  if Nat.eqb (bands st) 4 && (4 <=? List.length colors)%nat then
    let d1 := attribute value (num 0) colors 0 in
    let d2 := attribute value (num 0) colors 1 in
    let mult := attribute multiplier (num 0) colors 2 in
    let tolerance := attribute tolerance (num 20) colors 3 in
    ((d1 * num 10 + d2) * mult, tolerance)
  else if Nat.eqb (bands st) 5 && (5 <=? List.length colors)%nat then
    let d1 := attribute value (num 0) colors 0 in
    let d2 := attribute value (num 0) colors 1 in
    let d3 := attribute value (num 0) colors 2 in
    let mult := attribute multiplier (num 0) colors 3 in
    let tolerance := attribute tolerance (num 20) colors 4 in
    ((d1 * num 100 + d2 * num 10 + d3) * mult, tolerance)
  else (num 0, num 0).

(** [isValidColor]; it throws on a key that is not in the table
    ([None]). *)
Definition defined (o : option number) : bool :=
  match o with Some _ => true | None => false end.

Definition isValidColor (colorKey : string) (position totalBands : nat)
  : option bool :=
  match COLORS colorKey with
  | None => None
  | Some def =>
      Some (if Nat.eqb (S position) totalBands then defined (tolerance def)
            else if Nat.eqb (S (S position)) totalBands
                 then defined (multiplier def)
                 else defined (value def))
  end.

(** The colours that the selector of a band offers. *)
Definition offered (index : nat) (bands : nat) : list string :=
  filter (fun key => match isValidColor key index bands with
                     | Some true => true
                     | _ => false
                     end) COLOR_KEYS.

End ColorCodeCalculator.

(** ** A stand-in for [Math.sqrt]

    The solvers take the library functions as parameters.  To run the ones
    over exact rationals on examples, [Ideal] provides a square root that is
    exact on squares of rationals (and rounds down to a multiple of
    1/denominator elsewhere). *)

Module Ideal.

Definition Qsqrt (a : Q) : Q :=
  Z.sqrt (Qnum a * Zpos (Qden a)) # Qden a.

Definition Math_sqrt (x : number) : number :=
  match x with
  | Fin a => if Qneg a then NaN else Fin (Qsqrt a)
  | Inf false => Inf false
  | _ => NaN
  end.

End Ideal.


(** * Double precision

    The solvers whose properties depend on rounding, overflow, underflow or
    the sign of zero are embedded a second time over the numbers that the
    program computes with: the binary64 values of IEEE 754, with the
    arithmetic of [SpecFloat] (round to nearest, ties to even).  A text box
    is modelled by the double that [parseFloat] returns on it. *)

Module Double.

Definition prec : Z := 53.
Definition emax : Z := 1024.

Definition double : Type := spec_float.

Definition add : double -> double -> double := SFadd prec emax.
Definition sub : double -> double -> double := SFsub prec emax.
Definition mul : double -> double -> double := SFmul prec emax.
Definition div : double -> double -> double := SFdiv prec emax.

(** Unary minus and [Math.abs]. *)
Definition neg : double -> double := SFopp.
Definition Math_abs : double -> double := SFabs.

(** The comparisons; each is [false] as soon as an operand is NaN, and the
    two zeros are equal. *)
Definition ltb : double -> double -> bool := SFltb.
Definition leb : double -> double -> bool := SFleb.
Definition eqb : double -> double -> bool := SFeqb.          (* x === y *)
Definition gtb (x y : double) : bool := ltb y x.
Definition geb (x y : double) : bool := leb y x.

Definition isNaN (x : double) : bool :=
  match x with S754_nan => true | _ => false end.

(** The real number that a finite double stands for. *)
Definition Qvalue (s : bool) (m : positive) (e : Z) : Q :=
  (if s then -1 else 1) * inject_Z (Z.pos m) * Qpower 2 e.

(** What a double is worth: a rational, an infinity, or no number. *)
Definition value (x : double) : number :=
  match x with
  | S754_zero _ => Fin 0
  | S754_infinity s => Inf s
  | S754_nan => NaN
  | S754_finite s m e => Fin (Qvalue s m e)
  end.

(** The double of an integer literal, and the double nearest to a rational
    (what a decimal literal or [parseFloat] of a decimal text gives). *)
Definition of_Z (n : Z) : double := binary_normalize prec emax n 0 false.

Definition nearest (q : Q) : double :=
  match Qnum q with
  | Z0 => S754_zero false
  | Zpos n => div (S754_finite false n 0) (S754_finite false (Qden q) 0)
  | Zneg n => div (S754_finite true n 0) (S754_finite false (Qden q) 0)
  end.

(** [Math.PI] *)
Definition Math_PI : double := S754_finite false 7074237752028440 (-51).

(** [x || d] for a number [x]: the falsy numbers are 0, -0 and NaN. *)
Definition or_default (x d : double) : double :=
  match x with
  | S754_nan | S754_zero _ => d
  | _ => x
  end.

(** [Math.floor]: exact; a zero or a special value is returned as it is. *)
Definition Math_floor (x : double) : double :=
  match x with
  | S754_finite s m e => of_Z (Qfloor (Qvalue s m e))
  | _ => x
  end.

(** [Math.round]: the nearest integer, the larger one on a tie; a result of
    zero keeps the sign of the argument. *)
Definition Math_round (x : double) : double :=
  match x with
  | S754_finite s m e =>
      let n := Qfloor (Qvalue s m e + (1 # 2)) in
      if (n =? 0)%Z then S754_zero s else of_Z n
  | _ => x
  end.

(** [x % y]: the exact remainder of the truncating division, with the sign
    of the dividend. *)
Definition rem (x y : double) : double :=
  match x, y with
  | S754_nan, _ | _, S754_nan => S754_nan
  | S754_infinity _, _ => S754_nan
  | _, S754_zero _ => S754_nan
  | _, S754_infinity _ => x
  | S754_zero _, _ => x
  | S754_finite sx mx ex, S754_finite sy my ey =>
      let a := Qvalue sx mx ex in
      let b := Qvalue sy my ey in
      let r := a - b * inject_Z (Qtrunc (a / b)) in
      if Qzero r then S754_zero sx else nearest r
  end.

(** [parseFloat(x.toFixed(k))]: the double that is read back from a box in
    which [x.toFixed(k)] was written.  Below 1e21 the text is the decimal
    expansion of [x] rounded to [k] decimals ("-0.00" for a negative value
    that rounds to zero, and "0.00" for -0); from 1e21 on it is the text of
    [String(x)], which reads back as [x]. *)
Definition reparse_toFixed (k : nat) (x : double) : double :=
  match x with
  | S754_finite s m e =>
      let q := Qvalue s m e in
      if Qle_bool (inject_Z (10 ^ 21)) (Qabs q) then x
      else
        let n := toFixed_n k q in
        if (n =? 0)%Z then S754_zero s
        else nearest ((if s then -1 else 1)
                      * (inject_Z n / inject_Z (pow10 k)))
  | S754_zero _ => S754_zero false
  | _ => x
  end.

(** [parseFloat(String(x))]: [x] itself, except that -0 prints as "0". *)
Definition reparse_toString (x : double) : double :=
  match x with
  | S754_zero _ => S754_zero false
  | _ => x
  end.

(** *** Printing

    [String(x)] prints an integer of at most 53 bits with all its digits.
    For the other finite values it prints the shortest digits that read back
    as [x]; the model takes that text from the parameter [shortest]. *)
Section Text.

Variable shortest : double -> string.

Definition toString (x : double) : string :=
  match x with
  | S754_nan => "NaN"
  | S754_infinity false => "Infinity"
  | S754_infinity true => "-Infinity"
  | S754_zero _ => "0"
  | S754_finite s m e =>
      let q := Qvalue s m e in
      if Qeq_bool q (inject_Z (Qfloor q))
         && Qle_bool (Qabs q) (inject_Z (2 ^ 53))
      then print_int (Qfloor q)
      else shortest x
  end.

(** [x.toFixed(k)]: below 1e21 the decimal expansion of [x] rounded to [k]
    decimals (the larger digit string on a tie); from 1e21 on, and for the
    special values, the text of [String(x)]. *)
Definition toFixed (k : nat) (x : double) : string :=
  match x with
  | S754_finite s m e =>
      let q := Qvalue s m e in
      if Qle_bool (inject_Z (10 ^ 21)) (Qabs q) then toString x
      else JS.toFixed k (Fin q)
  | S754_zero _ => JS.toFixed k (Fin 0)
  | _ => toString x
  end.

End Text.

End Double.

Declare Scope double_scope.
Delimit Scope double_scope with double.
Infix "+" := Double.add : double_scope.
Infix "-" := Double.sub : double_scope.
Infix "*" := Double.mul : double_scope.
Infix "/" := Double.div : double_scope.
Infix "<?" := Double.ltb : double_scope.
Infix ">?" := Double.gtb (at level 70, no associativity) : double_scope.
Infix "<=?" := Double.leb : double_scope.
Infix ">=?" := Double.geb (at level 70, no associativity) : double_scope.
Infix "===" := Double.eqb (at level 70, no associativity) : double_scope.

(** ** App.tsx in double precision: the series / parallel solver *)

Module DoubleApp.
Import Double.
Local Open Scope double_scope.

(** The numeric value of the enum member. *)
Definition multiplier_value (m : Types.UnitMultiplier) : double :=
  match m with
  | Types.Ohm => of_Z 1
  | Types.kOhm => of_Z 1000
  | Types.MOhm => of_Z 1000000
  end.

Record Resistor : Type := mkResistor {
  id : string;
  value : double;             (* the user input number *)
  multiplier : Types.UnitMultiplier
}.

Record CalculatedResistor : Type := mkCalculated {
  resistor : Resistor;          (* the spread [...r] *)
  actualResistance : double;    (* value * multiplier *)
  voltageDrop : double;
  currentFlow : double;
  power : double;
  sharePercentage : double
}.

(** The memoised [results]. *)
Record Results : Type := mkResults {
  calculatedResistors : list CalculatedResistor;
  totalResistance : double;
  totalCurrent : double;
  totalPower : double;
  totalVoltage : double
}.

(** The initial list; [id1] and [id2] are the two results of [generateId()]. *)
Definition initialResistors (id1 id2 : string) : list Resistor :=
  [ mkResistor id1 (of_Z 100) Types.Ohm; mkResistor id2 (of_Z 200) Types.Ohm ].

(** [rs]: every resistor with its [actualResistance]. *)
Definition withActual (resistors : list Resistor) : list (Resistor * double) :=
  map (fun r => (r, value r * multiplier_value (multiplier r))) resistors.

(** [xs.reduce((acc, x) => acc + f(x), 0)] *)
Definition reduce_sum {A : Type} (f : A -> double) (xs : list A) : double :=
  fold_left (fun acc x => acc + f x) xs (of_Z 0).

Definition results (mode : Types.CalculationMode) (inputType : App.InputType)
  (sourceValue : double) (resistors : list Resistor) : Results :=
  match mode with
  | Types.Series =>
      let rs := withActual resistors in
      let totalResistance := reduce_sum snd rs in
      let '(totalCurrent, totalVoltage) :=
        match inputType with
        | App.voltage =>
            let totalVoltage := sourceValue in
            (if totalResistance >? of_Z 0
             then totalVoltage / totalResistance else of_Z 0,
             totalVoltage)
        | App.current =>
            let totalCurrent := sourceValue in
            (totalCurrent, totalCurrent * totalResistance)
        end in
      let calculatedResistors :=
        map (fun r : Resistor * double =>
               let voltageDrop := totalCurrent * snd r in
               let power := totalCurrent * totalCurrent * snd r in
               mkCalculated (fst r) (snd r) voltageDrop totalCurrent power
                 (if totalVoltage >? of_Z 0
                  then voltageDrop / totalVoltage * of_Z 100 else of_Z 0))
            rs in
      mkResults calculatedResistors totalResistance totalCurrent
        (totalVoltage * totalCurrent) totalVoltage
  | Types.Parallel =>
      let rs := withActual resistors in
      let conductance :=
        reduce_sum (fun r : Resistor * double =>
                      if snd r >? of_Z 0 then of_Z 1 / snd r else of_Z 0) rs in
      let totalResistance :=
        if conductance >? of_Z 0 then of_Z 1 / conductance else of_Z 0 in
      let '(totalCurrent, totalVoltage) :=
        match inputType with
        | App.voltage =>
            let totalVoltage := sourceValue in
            (totalVoltage * conductance, totalVoltage)
        | App.current =>
            let totalCurrent := sourceValue in
            (totalCurrent, totalCurrent * totalResistance)
        end in
      let calculatedResistors :=
        map (fun r : Resistor * double =>
               let currentFlow :=
                 if snd r >? of_Z 0 then totalVoltage / snd r else of_Z 0 in
               let power := totalVoltage * currentFlow in
               mkCalculated (fst r) (snd r) totalVoltage currentFlow power
                 (if totalCurrent >? of_Z 0
                  then currentFlow / totalCurrent * of_Z 100 else of_Z 0))
            rs in
      mkResults calculatedResistors totalResistance totalCurrent
        (totalVoltage * totalCurrent) totalVoltage
  | _ => mkResults [] (of_Z 0) (of_Z 0) (of_Z 0) (of_Z 0)
  end.

End DoubleApp.

(** ** components/BatteryLifeCalculator.tsx *)

Module BatteryLifeCalculator.
Import Double.
Local Open Scope double_scope.

Record State : Type := mkState {
  capacity : double;          (* text box *)
  current : double;           (* text box *)
  efficiency : double;
  result : option string
}.

Definition initial : State :=
  mkState (of_Z 2000) (of_Z 100) (nearest (85 # 100)) None.

Section Calculate.

(** The digits of [String(x)] where the model does not print them. *)
Variable shortest : double -> string.

Definition calculate (st : State) : State :=
  let cap := capacity st in
  let curr := current st in
  if isNaN cap || isNaN curr || (curr === of_Z 0) then st
  else
    let hours := (cap * efficiency st) / curr in
    let days := Math_floor (hours / of_Z 24) in
    let remHours := Math_floor (rem hours (of_Z 24)) in
    let minutes := Math_round ((hours - Math_floor hours) * of_Z 60) in
    let resString :=
      ((if days >? of_Z 0 then toString shortest days ++ " 天 " else "")
         ++ (if remHours >? of_Z 0
             then toString shortest remHours ++ " 小时 " else "")
         ++ toString shortest minutes ++ " 分钟")%string in
    let totalHours := toFixed shortest 1 hours in
    mkState (capacity st) (current st) (efficiency st)
      (Some (resString ++ " (" ++ totalHours ++ " hours)")%string).

End Calculate.

End BatteryLifeCalculator.

(** ** components/OhmsLawCalculator.tsx in double precision *)

Module DoubleOhmsLawCalculator.
Import Double.
Import OhmsLawCalculator(Kv, Ki, Kr, Kp).
Local Open Scope double_scope.

Record OhmsState : Type := mkOhms {
  v : double;   (* Voltage *)
  i : double;   (* Current *)
  r : double;   (* Resistance *)
  p : double    (* Power *)
}.

Record State : Type := mkState {
  values : OhmsState;
  calculatedKeys : list OhmsLawCalculator.Key;
  error : option OhmsLawCalculator.Error
}.

Definition initial : State :=
  mkState (mkOhms S754_nan S754_nan S754_nan S754_nan) [] None.

(** [inputs[k]]: the parsed box when it is a number, [undefined] ([None])
    otherwise. *)
Definition input (x : double) : option double :=
  if isNaN x then None else Some x.

Definition count (o : option double) : nat :=
  match o with Some _ => 1 | None => 0 end.

(** The write-back [parseFloat(x.toFixed(4)).toString()] of a defined
    quantity, as the box is read afterwards. *)
Definition writeBack (x : option double) (old : double) : double :=
  match x with
  | Some y => reparse_toString (reparse_toFixed 4 y)
  | None => old
  end.

Section Calculate.

Variable Math_sqrt : double -> double.

(** No operation of the [try] block throws (arithmetic on numbers and
    [toFixed(4)] do not), so the [catch] is never entered. *)
Definition calculate (st : State) : State :=
  let vals := values st in
  let iv := input (v vals) in
  let ii := input (i vals) in
  let ir := input (r vals) in
  let ip := input (p vals) in
  let inputCount := (count iv + count ii + count ir + count ip)%nat in
  if negb (Nat.eqb inputCount 2) then
    mkState vals (calculatedKeys st) (Some OhmsLawCalculator.NeedTwo)
  else
    let '(v', i', r', p', calculated) :=
      match iv, ii, ir, ip with
      | Some v, Some i, _, _ =>
          (Some v, Some i, Some (v / i), Some (v * i), [Kr; Kp])
      | Some v, _, Some r, _ =>
          (Some v, Some (v / r), Some r, Some ((v * v) / r), [Ki; Kp])
      | Some v, _, _, Some p =>
          (Some v, Some (p / v), Some ((v * v) / p), Some p, [Ki; Kr])
      | _, Some i, Some r, _ =>
          (Some (i * r), Some i, Some r, Some (i * i * r), [Kv; Kp])
      | _, Some i, _, Some p =>
          (Some (p / i), Some i, Some (p / (i * i)), Some p, [Kv; Kr])
      | _, _, Some r, Some p =>
          (Some (Math_sqrt (p * r)), Some (Math_sqrt (p / r)), Some r, Some p,
           [Kv; Ki])
      | _, _, _, _ => (iv, ii, ir, ip, [])
      end in
    mkState
      (mkOhms (writeBack v' (v vals)) (writeBack i' (i vals))
              (writeBack r' (r vals)) (writeBack p' (p vals)))
      calculated (error st).

End Calculate.

End DoubleOhmsLawCalculator.

(** ** components/RCCalculator.tsx in double precision *)

Module DoubleRCCalculator.
Import Double.
Import RCCalculator(Error, FreqZero, CapZero, NeedTwo, NeedVin, NeedRC,
                    TargetNotBelow, TargetNotPositive).
Local Open Scope double_scope.

Record RCState : Type := mkRC {
  r : double;       (* Resistance value (text box) *)
  rUnit : double;   (* Multiplier *)
  c : double;       (* Capacitance value (text box) *)
  cUnit : double;
  f : double;       (* Frequency value (text box) *)
  fUnit : double
}.

Record DelayState : Type := mkDelay {
  vin : double;       (* Supply Voltage (text box) *)
  vtarget : double;   (* Target Threshold Voltage (text box) *)
  dr : double;        (* [r] (text box) *)
  drUnit : double;
  dc : double;        (* [c] (text box) *)
  dcUnit : double;
  t : double;         (* Time (text box) *)
  tUnit : double      (* 1 (s), 0.001 (ms), 0.000001 (us) *)
}.

Record State : Type := mkState {
  values : RCState;
  result : option (double * double);        (* { tau, fc } *)
  delayValues : DelayState;
  delayResult : option (double * double);   (* { t, tau } *)
  error : option Error
}.

(** The multipliers that the unit selects offer ([UNITS]). *)
Definition UNITS_R : list double := [of_Z 1; of_Z 1000; of_Z 1000000].
Definition UNITS_C : list double :=
  [nearest (1 # 1000000000000); nearest (1 # 1000000000);
   nearest (1 # 1000000); nearest (1 # 1000)].
Definition UNITS_F : list double := [of_Z 1; of_Z 1000; of_Z 1000000].
Definition UNITS_T : list double :=
  [of_Z 1; nearest (1 # 1000); nearest (1 # 1000000)].

Definition initial : State :=
  mkState
    (mkRC S754_nan (of_Z 1000) S754_nan (nearest (1 # 1000000)) S754_nan
          (of_Z 1))
    None
    (mkDelay (of_Z 5) (nearest (316 # 100)) (of_Z 10) (of_Z 1000)
             (of_Z 100) (nearest (1 # 1000000)) S754_nan (of_Z 1))
    None None.

Definition setError (e : Error) (st : State) : State :=
  mkState (values st) (result st) (delayValues st) (delayResult st) (Some e).

Definition setResult (tau fc : double) (st : State) : State :=
  mkState (values st) (Some (tau, fc)) (delayValues st) (delayResult st)
    (error st).

Definition setValues (g : RCState -> RCState) (st : State) : State :=
  mkState (g (values st)) (result st) (delayValues st) (delayResult st)
    (error st).

Definition setDelayValues (g : DelayState -> DelayState) (st : State) : State :=
  mkState (values st) (result st) (g (delayValues st)) (delayResult st)
    (error st).

Definition setDelayResult (t tau : double) (st : State) : State :=
  mkState (values st) (result st) (delayValues st) (Some (t, tau)) (error st).

(** [!isNaN(x) ? x * unit : NaN] *)
Definition scaled (x unit : double) : double :=
  if negb (isNaN x) then x * unit else S754_nan.

(** The unit in which a computed frequency or resistance is shown, and the
    one for a capacitance. *)
Definition bestUnit (x : double) : double :=
  if x >=? of_Z 1000000 then of_Z 1000000
  else if x >=? of_Z 1000 then of_Z 1000
  else of_Z 1.

Definition bestCUnit (cCalc : double) : double :=
  if cCalc <? nearest (1 # 1000000000) then nearest (1 # 1000000000000)
  else if cCalc <? nearest (1 # 1000000) then nearest (1 # 1000000000)
  else if cCalc <? nearest (1 # 1000) then nearest (1 # 1000000)
  else nearest (1 # 1000).

Definition calculateFilter (st : State) : State :=
  let rVal := r (values st) in
  let cVal := c (values st) in
  let fVal := f (values st) in
  let r := scaled rVal (rUnit (values st)) in
  let c := scaled cVal (cUnit (values st)) in
  let f := scaled fVal (fUnit (values st)) in
  if negb (isNaN r) && negb (isNaN c) then
    let tau := r * c in
    let fc := of_Z 1 / (of_Z 2 * Math_PI * r * c) in
    let bestFUnit := bestUnit fc in
    setValues
      (fun prev => mkRC (DoubleRCCalculator.r prev) (rUnit prev)
                        (DoubleRCCalculator.c prev) (cUnit prev)
                        (reparse_toFixed 2 (fc / bestFUnit)) bestFUnit)
      (setResult tau fc st)
  else if negb (isNaN r) && negb (isNaN f) then
    if f === of_Z 0 then setError FreqZero st
    else
      let cCalc := of_Z 1 / (of_Z 2 * Math_PI * r * f) in
      let tau := r * cCalc in
      let bestCUnit := bestCUnit cCalc in
      setValues
        (fun prev => mkRC (DoubleRCCalculator.r prev) (rUnit prev)
                          (reparse_toFixed 2 (cCalc / bestCUnit)) bestCUnit
                          (DoubleRCCalculator.f prev) (fUnit prev))
        (setResult tau f st)
  else if negb (isNaN c) && negb (isNaN f) then
    if f === of_Z 0 then setError FreqZero st
    else if c === of_Z 0 then setError CapZero st
    else
      let rCalc := of_Z 1 / (of_Z 2 * Math_PI * c * f) in
      let tau := rCalc * c in
      let bestRUnit := bestUnit rCalc in
      setValues
        (fun prev => mkRC (reparse_toFixed 2 (rCalc / bestRUnit)) bestRUnit
                          (DoubleRCCalculator.c prev) (cUnit prev)
                          (DoubleRCCalculator.f prev) (fUnit prev))
        (setResult tau f st)
  else setError NeedTwo st.

(** The unit in which a computed time is shown. *)
Definition bestTUnit (timeCalc : double) : double :=
  if timeCalc <? nearest (1 # 1000) then nearest (1 # 1000000)
  else if timeCalc <? of_Z 1 then nearest (1 # 1000)
  else of_Z 1.

Section Delay.

Variables Math_log Math_exp : double -> double.

Definition calculateDelay (st : State) : State :=
  let dv := delayValues st in
  let vin := vin dv in
  let vtarget := vtarget dv in
  let r := dr dv * drUnit dv in
  let c := dc dv * dcUnit dv in
  let t := t dv * tUnit dv in
  let hasR := negb (isNaN r) && (r >? of_Z 0) in
  let hasC := negb (isNaN c) && (c >? of_Z 0) in
  let hasVin := negb (isNaN vin) in
  let hasTarget := negb (isNaN vtarget) in
  let hasTime := negb (isNaN t) && (t >? of_Z 0) in
  if negb hasVin then setError NeedVin st
  else if negb hasR || negb hasC then setError NeedRC st
  else
    let tau := r * c in
    if hasTarget && negb hasTime then
      if vtarget >=? vin then setError TargetNotBelow st
      else if vtarget <=? of_Z 0 then setError TargetNotPositive st
      else
        let ratio := vtarget / vin in
        let timeCalc := neg tau * Math_log (of_Z 1 - ratio) in
        let bestTUnit := bestTUnit timeCalc in
        setDelayResult timeCalc tau
          (setDelayValues
             (fun prev => mkDelay (DoubleRCCalculator.vin prev)
                            (DoubleRCCalculator.vtarget prev)
                            (dr prev) (drUnit prev) (dc prev) (dcUnit prev)
                            (reparse_toFixed 3 (timeCalc / bestTUnit))
                            bestTUnit)
             st)
    else if hasTime then
      let vCalc := vin * (of_Z 1 - Math_exp (neg t / tau)) in
      setDelayResult t tau
        (setDelayValues
           (fun prev => mkDelay (DoubleRCCalculator.vin prev)
                          (reparse_toFixed 3 vCalc)
                          (dr prev) (drUnit prev) (dc prev) (dcUnit prev)
                          (DoubleRCCalculator.t prev) (tUnit prev))
           st)
    else setDelayResult tau tau st.

End Delay.

End DoubleRCCalculator.

(** ** Stand-ins for the library functions

    [Math.sqrt] is correctly rounded by IEEE 754.  [Math.log] and [Math.exp]
    are left to the implementation by the language; the properties below are
    stated for any function in their place, and the worked examples use the
    double nearest to a truncated series. *)

Module DoubleIdeal.
Import Double.

Definition Math_sqrt (x : double) : double := SFsqrt prec emax x.

(** Truncation to 100 binary digits. *)
Definition trunc (q : Q) : Q :=
  Qfloor (q * inject_Z (2 ^ 100)) # (2 ^ 100).

(** z + z^3/3 + z^5/5 + ..., [terms] terms; [pow] is the odd power of z
    that comes next, [k] its exponent and [z2] the square of z. *)
Fixpoint atanh_series (terms : nat) (k : Z) (pow z2 : Q) : Q :=
  match terms with
  | O => 0
  | S n =>
      trunc (pow / inject_Z k
             + atanh_series n (k + 2) (trunc (pow * z2)) z2)
  end.

(** ln a = 2 * atanh ((a - 1) / (a + 1)) *)
Definition Qlog (a : Q) : Q :=
  let z := trunc ((a - 1) / (a + 1)) in
  2 * atanh_series 30 1 z (trunc (z * z)).

Definition Math_log (x : double) : double :=
  match x with
  | S754_zero _ => S754_infinity true
  | S754_finite false _ _ =>
      match value x with Fin a => nearest (Qlog a) | _ => S754_nan end
  | S754_infinity false => x
  | _ => S754_nan
  end.

(** 1 + a + a^2/2! + ..., [terms] terms; [term] is the term a^k/k! that
    comes next. *)
Fixpoint exp_series (terms : nat) (k : Z) (term a : Q) : Q :=
  match terms with
  | O => 0
  | S n =>
      trunc (term
             + exp_series n (k + 1) (trunc (term * a / inject_Z (k + 1))) a)
  end.

Definition Math_exp (x : double) : double :=
  match x with
  | S754_infinity false => x
  | S754_infinity true => S754_zero false
  | S754_nan => S754_nan
  | _ => match value x with
         | Fin a => nearest (exp_series 40 0 1 a)
         | _ => S754_nan
         end
  end.

End DoubleIdeal.

(** * Vocabulary of the properties *)

(** ** Editing the resistor list *)

Module ListEdits.
Import Types App.

(** One user action on the list.  [Add] carries the identifier that
    [generateId()] returned for the new row. *)
Inductive Op : Type :=
| Add (newId : string)
| Remove (rid : string)
| Update (rid : string) (u : FieldUpdate).

Definition step (op : Op) (resistors : list Resistor) : list Resistor :=
  match op with
  | Add newId => addResistor newId resistors
  | Remove rid => removeResistor rid resistors
  | Update rid u => updateResistor rid u resistors
  end.

Fixpoint run (ops : list Op) (resistors : list Resistor) : list Resistor :=
  match ops with
  | [] => resistors
  | op :: ops' => run ops' (step op resistors)
  end.

Definition ids (resistors : list Resistor) : list string := map id resistors.

(** The identifiers are unique: each [generateId()] of an [Add] returns a
    string that no row of the list carries at that moment. *)
Fixpoint fresh_ids (ops : list Op) (resistors : list Resistor) : Prop :=
  match ops with
  | [] => True
  | op :: ops' =>
      match op with
      | Add newId => ~ In newId (ids resistors)
      | _ => True
      end /\ fresh_ids ops' (step op resistors)
  end.

(** A row with the default value. *)
Definition row (rid : string) : Resistor := mkResistor rid (num 100) Ohm.

End ListEdits.

(** ** The unit formatter *)

Module FormatSpec.
Import App.








(** A text that shows [a] with at most [k] digits after the point: an
    optional sign, the grouped integer part of [n / 10^k], and the fraction
    digits [f] of it, where [n / 10^k] is [|a|] rounded to [k] decimals. *)
Definition dot_fraction (f : string) : string :=
  match f with
  | EmptyString => ""
  | _ => "." ++ f
  end.

Definition shows_decimals (k : nat) (a : Q) (text : string) : Prop :=
  exists (n : Z) (f : string),
    text = ((if Qneg a then "-" else "")
              ++ group3 (n / pow10 k) ++ dot_fraction f)%string
    /\ f = fraction k (n mod pow10 k)
    /\ (String.length f <= k)%nat
    /\ Qabs (inject_Z n / inject_Z (pow10 k) - Qabs a)
       <= 1 / (2 * inject_Z (pow10 k)).

End FormatSpec.

(** ** Exponent notation *)

Module ExponentSpec.

(** A text in exponent notation with [f] digits after the point, hence
    [f + 1] significant digits: sign, first digit of [n], point, the other
    [f] digits of [n], and the exponent [e] with its sign. *)
Definition exponent_text (neg : bool) (f : nat) (n e : Z) : string :=
  ((if neg then "-" else "")
     ++ String (digit (n / pow10 f))
          (match f with O => "" | _ => "." ++ digits f n end)
     ++ "e" ++ (if (e <? 0)%Z then "-" else "+") ++ print_nat (Z.abs e))%string.

(** [text] shows [a] in exponent notation with [f + 1] significant digits:
    the digits are those of an integer [n] of exactly [f + 1] digits, and
    [n * 10^(e - f)] is [|a|] up to half a unit of the last digit. *)
Definition shows_exponent (f : nat) (a : Q) (text : string) : Prop :=
  exists n e : Z,
    (pow10 f <= n < pow10 (S f))%Z
    /\ text = exponent_text (Qneg a) f n e
    /\ Qabs (inject_Z n * Qpow10 (e - Z.of_nat f) - Qabs a)
       <= Qpow10 (e - Z.of_nat f) / 2.

(** The inputs that [formatNumber] prints in exponent notation. *)
Definition extreme (x : Q) : Prop :=
  ~ x == 0 /\ (Qabs x < 1 # 1000 \/ 10000 < Qabs x).

End ExponentSpec.

(** ** Editing the list through its rows *)

Module RowEdits.
Import Types App.

(** Every resistor value is a real number. *)
Definition finite_values (resistors : list Resistor) : Prop :=
  Forall (fun r => isFinite (value r) = true) resistors.

(** What the user can do to the list: press "add" ([newId] is the result of
    [generateId()]), type into the value box of a row ([parsed] is what
    [parseFloat] returns on the text), pick a unit, press "remove". *)
Inductive Edit : Type :=
| PressAdd (newId : string)
| TypeValue (r : Resistor) (parsed : number)
| PickUnit (r : Resistor) (m : UnitMultiplier)
| PressRemove (r : Resistor).

Definition apply (e : Edit) (resistors : list Resistor) : list Resistor :=
  match e with
  | PressAdd newId => addResistor newId resistors
  | TypeValue r parsed => ResistorRow.onValueChange r parsed resistors
  | PickUnit r m => ResistorRow.onMultiplierChange r m resistors
  | PressRemove r => ResistorRow.onRemoveClick r resistors
  end.

Fixpoint run (es : list Edit) (resistors : list Resistor) : list Resistor :=
  match es with
  | [] => resistors
  | e :: es' => run es' (apply e resistors)
  end.

(** The typed texts are ordinary decimal numbers or not numbers at all:
    [parseFloat] does not return an infinity on them. *)
Definition ordinary (e : Edit) : Prop :=
  match e with
  | TypeValue _ (Inf _) => False
  | _ => True
  end.

End RowEdits.

(** ** Ohm's law: the pairs of supplied quantities *)

Module OhmsPairs.
Import OhmsLawCalculator.

(** The pairs that are solved without a square root. *)
Inductive Pair : Type := VI | VR | VP | IR | IP.

(** The form with the two quantities of the pair filled in. *)
Definition given (pr : Pair) (a b : Q) : State :=
  mkState
    (match pr with
     | VI => mkOhms (Fin a) (Fin b) NaN NaN
     | VR => mkOhms (Fin a) NaN (Fin b) NaN
     | VP => mkOhms (Fin a) NaN NaN (Fin b)
     | IR => mkOhms NaN (Fin a) (Fin b) NaN
     | IP => mkOhms NaN (Fin a) NaN (Fin b)
     end) [] None.

(** The two quantities of the pair among V, I, R, P. *)
Definition supplied (pr : Pair) (V I R P : Q) : Q * Q :=
  match pr with
  | VI => (V, I)
  | VR => (V, R)
  | VP => (V, P)
  | IR => (I, R)
  | IP => (I, P)
  end.

(** The two others. *)
Definition derived (pr : Pair) : list Key :=
  match pr with
  | VI => [Kr; Kp]
  | VR => [Ki; Kp]
  | VP => [Ki; Kr]
  | IR => [Kv; Kp]
  | IP => [Kv; Kr]
  end.

Definition box (k : Key) (vals : OhmsState) : number :=
  match k with
  | Kv => v vals
  | Ki => i vals
  | Kr => r vals
  | Kp => p vals
  end.

(** How many boxes hold a number. *)
Definition filled (vals : OhmsState) : nat :=
  List.length (filter (fun k => negb (isNaN (box k vals))) [Kv; Ki; Kr; Kp]).

End OhmsPairs.

(** ** The LED series resistor *)

Module LedSpec.
Import LEDCalculator.

(** The form with three real numbers in its boxes, beside an earlier
    result. *)
Definition form (vs vf ic : Q) (old : option LEDResult) : State :=
  mkState (mkLED (Fin vs) (Fin vf) (Fin ic)) old.

(** Some box is empty or holds no number. *)
Definition incomplete (st : State) : Prop :=
  sourceVoltage (values st) = NaN \/ ledVoltage (values st) = NaN
  \/ ledCurrent (values st) = NaN.

End LedSpec.

(** ** The colour bands *)

Module BandSpec.
Import ColorCodeCalculator.

(** What the user can press: one of the two mode buttons, or a colour
    button of the selector of band [index]. *)
Inductive Click : Type :=
| Mode4
| Mode5
| Pick (index : nat) (key : string).

Definition press (c : Click) (st : State) : State :=
  match c with
  | Mode4 => handleModeChange 4 st
  | Mode5 => handleModeChange 5 st
  | Pick index key => updateColor index key st
  end.

(** A colour button exists for the bands of the current mode and the
    colours that the selector offers there. *)
Definition shown (st : State) (c : Click) : bool :=
  match c with
  | Pick index key =>
      (index <? bands st)%nat
      && existsb (String.eqb key) (offered index (bands st))
  | _ => true
  end.

(** The state after a sequence of clicks, when each of them was on a button
    that was shown. *)
Fixpoint run (clicks : list Click) (st : State) : option State :=
  match clicks with
  | [] => Some st
  | c :: rest => if shown st c then run rest (press c st) else None
  end.

(** Every band carries a colour that is valid for its position. *)
Definition well_formed (st : State) : Prop :=
  (bands st = 4%nat \/ bands st = 5%nat)
  /\ List.length (colors st) = bands st
  /\ forall i, (i < bands st)%nat ->
       exists key, nth i (colors st) None = Some key
                   /\ isValidColor key i (bands st) = Some true.





End BandSpec.


(** * Vocabulary of the properties in double precision *)

(** ** Whole numbers *)

Module DoubleSpec.
Import Double.

(** The sign bit of a double. *)
Definition sign (x : double) : bool :=
  match x with
  | S754_zero s | S754_infinity s | S754_finite s _ _ => s
  | S754_nan => false
  end.

Definition is_zero (x : double) : bool :=
  match x with S754_zero _ => true | _ => false end.

Definition is_infinite (x : double) : bool :=
  match x with S754_infinity _ => true | _ => false end.

(** A double other than NaN and the infinities. *)
Definition is_finite (x : double) : bool :=
  match x with S754_zero _ | S754_finite _ _ _ => true | _ => false end.

(** A finite double other than zero. *)
Definition is_finite_nonzero (x : double) : bool :=
  match x with S754_finite _ _ _ => true | _ => false end.




End DoubleSpec.

(** ** Battery life *)

Module BatterySpec.
Import Double DoubleSpec.
Local Open Scope double_scope.






End BatterySpec.

(** ** Ohm's law *)

Module OhmsSpec.
Import Double DoubleOhmsLawCalculator.
Local Open Scope double_scope.

(** Only the V and I boxes are filled. *)
Definition given_VI (V I : double) : State :=
  mkState (mkOhms V I S754_nan S754_nan) [] None.



(** What a box holds after [x] was written into it with [toFixed(4)]. *)
Definition stored (x : double) : double :=
  reparse_toString (reparse_toFixed 4 x).




(** Exactly the V and I boxes of [st] hold a number. *)
Definition only_VI (st : State) : Prop :=
  isNaN (v (values st)) = false /\ isNaN (i (values st)) = false
  /\ isNaN (r (values st)) = true /\ isNaN (p (values st)) = true.

End OhmsSpec.

(** ** The RC filter *)

Module FilterSpec.
Import Double DoubleSpec DoubleRCCalculator.
Import RCCalculator(Error, kind).
Local Open Scope double_scope.

(** A box is supplied when its text parses as a number. *)
Definition supplied (x : double) : nat := if isNaN x then 0 else 1.

(** How many of R, C and f are supplied. *)
Definition supplied_count (st : State) : nat :=
  (supplied (r (values st)) + supplied (c (values st))
   + supplied (f (values st)))%nat.

(** The unit selects only offer finite multipliers other than zero (1, 1e3,
    1e6 for R and f, 1e-12 ... 1e-3 for C). *)
Definition units_finite (st : State) : Prop :=
  is_finite_nonzero (rUnit (values st)) = true
  /\ is_finite_nonzero (cUnit (values st)) = true
  /\ is_finite_nonzero (fUnit (values st)) = true.

(** The run of [calculateFilter] on [st] ends in the error [e]. *)
Definition fails_with (e : Error) (st : State) : Prop :=
  calculateFilter st = setError e st.

(** The claim of the design document: a count other than two is always
    refused as insufficient input. *)
Definition refuses_wrong_count (st : State) : Prop :=
  supplied_count st <> 2%nat ->
  exists e, fails_with e st /\ kind e = InsufficientInputs.

(** A state with R = 1 kOhm, C = 1 uF and f = 5 Hz all filled in. *)
Definition all_three : State :=
  mkState (mkRC (of_Z 1) (of_Z 1000) (of_Z 1) (nearest (1 # 1000000))
                (of_Z 5) (of_Z 1))
    None (delayValues initial) None None.

End FilterSpec.

(** ** Rounding to nearest

    The vocabulary of the error analysis: what is left of a mantissa when
    bits are shifted out of it, and what it means for two numbers to agree
    up to a number of roundings. *)

Module Rounding.
Import Double.

Local Open Scope Z_scope.

(** The record [mrs] is what is left of the ratio N/d after [k] bits were
    shifted out. *)
Definition Rep (N d k : Z) (mrs : shr_record) : Prop :=
  0 <= shr_m mrs
  /\ exists low,
       0 <= low < 2 ^ k * d
       /\ 2 * (N - shr_m mrs * 2 ^ k * d)
          = (if shr_r mrs then 2 ^ k * d else 0) + low
       /\ (shr_s mrs = true <-> 0 < low).

Definition emin : Z := -1074.

Definition finish (s : bool) (m2 e1 : Z) : spec_float :=
  if m2 =? 0 then S754_zero s
  else if m2 <? 2 ^ 53
       then (if e1 <=? 971 then S754_finite s (Z.to_pos m2) e1
             else S754_infinity s)
       else (if e1 + 1 <=? 971 then S754_finite s (Z.to_pos (2 ^ 52)) (e1 + 1)
             else S754_infinity s).

Local Open Scope Q_scope.

Definition pow2 (e : Z) : Q := Qpower 2 e.

(** The unit roundoff of binary64 and its complement. *)
Definition unit_roundoff : Q := 1 # (2 ^ 53).
Definition L : Q := 1 - unit_roundoff.

Fixpoint Lpow (k : nat) : Q :=
  match k with O => 1 | S k' => L * Lpow k' end.

(** [a] and [b] agree up to [k] roundings: each is at least the other
    times (1 - 2^-53)^k. *)
Definition approx (k : nat) (a b : Q) : Prop :=
  Lpow k * b <= a /\ Lpow k * a <= b.

(** A positive double that is not subnormal. *)
Definition normal (x : spec_float) : bool :=
  match x with
  | S754_finite false m e => Qle_bool (pow2 (-1022)) (Qvalue false m e)
  | _ => false
  end.

Definition qv (x : spec_float) : Q :=
  match x with
  | S754_finite s m e => Qvalue s m e
  | _ => 0
  end.

(** The outcome of a rounding that neither overflows nor underflows. *)
Definition rounds_to (r : spec_float) (x : Q) : Prop :=
  normal r = true /\ approx 1 (qv r) x.

Definition qsum (xs : list spec_float) : Q :=
  fold_right (fun x acc => qv x + acc) 0 xs.

Definition all_normal (xs : list spec_float) : Prop :=
  Forall (fun x => normal x = true) xs.

End Rounding.

(** ** The series network *)

Module SeriesSpec.
Import Double DoubleSpec DoubleApp Rounding.
Local Open Scope double_scope.

(** The resistance of a row in ohm, as the program computes it. *)
Definition actual (r : Resistor) : double :=
  value r * multiplier_value (multiplier r).

(** A sum taken from left to right, starting from 0, in double precision. *)
Definition sum (xs : list double) : double := fold_left add xs (of_Z 0).

(** The voltage drops of the rows of a result. *)
Definition drops (res : Results) : list double :=
  map voltageDrop (calculatedResistors res).

(** A floating-point tolerance: a relative error of 1e-9. *)
Definition tolerance : Q := 1 # 1000000000.



(** The run is well scaled: the source voltage and the resistances are
    positive and not subnormal, and no intermediate result overflows (the
    two sums) or underflows (the current and the drops). *)
Definition well_scaled (V : double) (rs : list Resistor) : Prop :=
  let res := results Types.Series App.voltage V rs in
  rs <> []
  /\ normal V = true
  /\ Forall (fun r => normal (actual r) = true) rs
  /\ is_finite (totalResistance res) = true
  /\ normal (totalCurrent res) = true
  /\ Forall (fun c => normal (voltageDrop c) = true) (calculatedResistors res)
  /\ is_finite (sum (drops res)) = true.

End SeriesSpec.

(** ** The network with a current source, and in parallel *)

Module NetworkSpec.
Import Double DoubleSpec DoubleApp Rounding SeriesSpec.
Local Open Scope double_scope.

(** The conductance of the rows in parallel, as the program adds it up: a
    row whose resistance is not positive does not conduct. *)
Definition conductance (rs : list Resistor) : double :=
  sum (map (fun r => if actual r >? of_Z 0 then of_Z 1 / actual r
                     else of_Z 0) rs).

(** The branch currents of the rows of a result. *)
Definition flows (res : Results) : list double :=
  map currentFlow (calculatedResistors res).

(** A well scaled run in series on a current source: the current and the
    resistances are positive and not subnormal, the total resistance does
    not overflow, and neither a drop nor the total voltage overflows or
    underflows. *)
Definition well_scaled_current (I : double) (rs : list Resistor) : Prop :=
  let res := results Types.Series App.current I rs in
  rs <> []
  /\ normal I = true
  /\ Forall (fun r => normal (actual r) = true) rs
  /\ is_finite (totalResistance res) = true
  /\ normal (totalVoltage res) = true
  /\ Forall (fun c => normal (voltageDrop c) = true) (calculatedResistors res).

(** A well scaled run in parallel on a voltage source: the voltage, the
    resistances and their reciprocals are positive and not subnormal, and
    neither a branch current nor the total current overflows or
    underflows. *)
Definition well_scaled_parallel (V : double) (rs : list Resistor) : Prop :=
  let res := results Types.Parallel App.voltage V rs in
  rs <> []
  /\ normal V = true
  /\ Forall (fun r => normal (actual r) = true
                      /\ normal (of_Z 1 / actual r) = true) rs
  /\ normal (totalCurrent res) = true
  /\ Forall (fun c => normal (currentFlow c) = true) (calculatedResistors res).

End NetworkSpec.

(** ** The RC filter: the pairs from which it is solved *)

Module FilterPairs.
Import Double DoubleSpec DoubleRCCalculator Rounding.
Local Open Scope double_scope.

Inductive Known : Type := KnownRC | KnownRF | KnownCF.

(** The boxes supply the pair [k] with the scaled values [x] and [y] (in
    ohm, farad or hertz: the box times its unit, as the program computes
    it); with (R, f) and (C, f) the remaining box is empty. *)
Definition supplies (k : Known) (x y : double) (st : State) : Prop :=
  let vs := values st in
  let R := scaled (r vs) (rUnit vs) in
  let C := scaled (c vs) (cUnit vs) in
  let F := scaled (f vs) (fUnit vs) in
  match k with
  | KnownRC => R = x /\ C = y
  | KnownRF => R = x /\ isNaN C = true /\ F = y
  | KnownCF => isNaN R = true /\ C = x /\ F = y
  end.

(** 2 * Math.PI, and the quantity that the solver derives from the pair:
    1 / (2 * pi * x * y). *)
Definition two_pi : double := of_Z 2 * Math_PI.
Definition derived (x y : double) : double := of_Z 1 / (two_pi * x * y).

(** The time constant and the cut-off frequency of the result. *)
Definition tau_of (k : Known) (x y : double) : double :=
  match k with
  | KnownRC => x * y
  | KnownRF => x * derived x y
  | KnownCF => derived x y * x
  end.

Definition fc_of (k : Known) (x y : double) : double :=
  match k with
  | KnownRC => derived x y
  | KnownRF | KnownCF => y
  end.

(** A well scaled solve: the two supplied values are positive and not
    subnormal, and no intermediate result overflows or underflows. *)
Definition well_scaled (k : Known) (x y : double) : Prop :=
  normal x = true /\ normal y = true
  /\ normal (two_pi * x) = true
  /\ normal (two_pi * x * y) = true
  /\ normal (derived x y) = true
  /\ normal (tau_of k x y) = true.

End FilterPairs.

(** * Proofs *)

(** ** Comparisons of rationals *)

Lemma Qltb_lt (a b : Q) : Qltb a b = true <-> a < b.
Proof.
  unfold Qltb. rewrite negb_true_iff.
  split; intro H.
  - apply Qnot_le_lt. intro Hle. apply Qle_bool_iff in Hle. congruence.
  - destruct (Qle_bool b a) eqn:E; [|reflexivity].
    apply Qle_bool_iff in E. exfalso. apply (Qlt_not_le _ _ H E).
Qed.

Lemma Qltb_ge (a b : Q) : Qltb a b = false <-> b <= a.
Proof.
  unfold Qltb. rewrite negb_false_iff. apply Qle_bool_iff.
Qed.

Lemma Qzero_true (a : Q) : Qzero a = true <-> a == 0.
Proof. unfold Qzero. apply Qeq_bool_iff. Qed.

Lemma Qzero_false (a : Q) : Qzero a = false <-> ~ a == 0.
Proof.
  unfold Qzero. split; intro H.
  - intro E. apply Qeq_bool_iff in E. congruence.
  - destruct (Qeq_bool a 0) eqn:E; [|reflexivity].
    apply Qeq_bool_iff in E. contradiction.
Qed.

Lemma Qneg_true (a : Q) : Qneg a = true <-> a < 0.
Proof. apply Qltb_lt. Qed.

Lemma Qneg_false (a : Q) : Qneg a = false <-> 0 <= a.
Proof. apply Qltb_ge. Qed.

(** ** Comparisons of finite numbers *)

Section CompareFacts.
Local Open Scope js_scope.

Lemma ltb_Fin_true a b : (Fin a <? Fin b) = true <-> (a < b)%Q.
Proof. apply Qltb_lt. Qed.

Lemma ltb_Fin_false a b : (Fin a <? Fin b) = false <-> (b <= a)%Q.
Proof. apply Qltb_ge. Qed.

Lemma gtb_Fin_true a b : (Fin a >? Fin b) = true <-> (b < a)%Q.
Proof. apply Qltb_lt. Qed.

Lemma gtb_Fin_false a b : (Fin a >? Fin b) = false <-> (a <= b)%Q.
Proof. apply Qltb_ge. Qed.

Lemma eqb_Fin_true a b : (Fin a === Fin b) = true <-> (a == b)%Q.
Proof. apply Qeq_bool_iff. Qed.

Lemma eqb_Fin_false a b : (Fin a === Fin b) = false <-> ~ (a == b)%Q.
Proof.
  simpl. split; intro H.
  - intro E. apply Qeq_bool_iff in E. congruence.
  - destruct (Qeq_bool a b) eqn:E; [|reflexivity].
    apply Qeq_bool_iff in E. contradiction.
Qed.

Lemma geb_Fin_true a b : (Fin a >=? Fin b) = true <-> (b <= a)%Q.
Proof.
  unfold geb. rewrite orb_true_iff, ltb_Fin_true, eqb_Fin_true.
  split; [intros [H|H]; lra|].
  intro H. destruct (Qlt_le_dec b a); [left; assumption|right; lra].
Qed.

Lemma geb_Fin_false a b : (Fin a >=? Fin b) = false <-> (a < b)%Q.
Proof.
  unfold geb. rewrite orb_false_iff, ltb_Fin_false, eqb_Fin_false.
  split; [intros [H1 H2]|intro H; split]; try lra.
Qed.

Lemma leb_Fin_true a b : (Fin a <=? Fin b) = true <-> (a <= b)%Q.
Proof.
  unfold leb. rewrite orb_true_iff, ltb_Fin_true, eqb_Fin_true.
  split; [intros [H|H]; lra|].
  intro H. destruct (Qlt_le_dec a b); [left; assumption|right; lra].
Qed.

Lemma leb_Fin_false a b : (Fin a <=? Fin b) = false <-> (b < a)%Q.
Proof.
  unfold leb. rewrite orb_false_iff, ltb_Fin_false, eqb_Fin_false.
  split; [intros [H1 H2]|intro H; split]; try lra.
Qed.

(** A division by a value other than 0 is the division of the rationals. *)
Lemma div_Fin a b : ~ (b == 0)%Q -> Fin a / Fin b = Fin (a / b).
Proof.
  intro H. simpl. apply Qzero_false in H. rewrite H. reflexivity.
Qed.

End CompareFacts.

(** Turns the boolean tests of finite numbers in the context into facts
    about rationals. *)
Ltac js_facts :=
  repeat match goal with
    | H : ltb (Fin _) (Fin _) = true |- _ => apply ltb_Fin_true in H
    | H : ltb (Fin _) (Fin _) = false |- _ => apply ltb_Fin_false in H
    | H : gtb (Fin _) (Fin _) = true |- _ => apply gtb_Fin_true in H
    | H : gtb (Fin _) (Fin _) = false |- _ => apply gtb_Fin_false in H
    | H : geb (Fin _) (Fin _) = true |- _ => apply geb_Fin_true in H
    | H : geb (Fin _) (Fin _) = false |- _ => apply geb_Fin_false in H
    | H : leb (Fin _) (Fin _) = true |- _ => apply leb_Fin_true in H
    | H : leb (Fin _) (Fin _) = false |- _ => apply leb_Fin_false in H
    | H : eqb (Fin _) (Fin _) = true |- _ => apply eqb_Fin_true in H
    | H : eqb (Fin _) (Fin _) = false |- _ => apply eqb_Fin_false in H
    | H : Qzero _ = true |- _ => apply Qzero_true in H
    | H : Qzero _ = false |- _ => apply Qzero_false in H
    | H : Qneg _ = true |- _ => apply Qneg_true in H
    | H : Qneg _ = false |- _ => apply Qneg_false in H
    | H : Qltb _ _ = true |- _ => apply Qltb_lt in H
    | H : Qltb _ _ = false |- _ => apply Qltb_ge in H
    | H : _ && _ = true |- _ => apply andb_true_iff in H; destruct H
    | H : _ || _ = false |- _ => apply orb_false_iff in H; destruct H
    end.

(** ** Printing with a bounded number of decimals *)

Section PrintFacts.
Import FormatSpec.

Lemma pow10_pos k : (0 < pow10 k)%Z.
Proof. unfold pow10. apply Z.pow_pos_nonneg; lia. Qed.

Lemma digits_length k n : String.length (digits k n) = k.
Proof. induction k; simpl; congruence. Qed.

Lemma fraction_length k : forall n, (String.length (fraction k n) <= k)%nat.
Proof.
  induction k as [|k IH]; intro n; [simpl; lia|].
  cbn [fraction]. destruct (n mod 10 =? 0)%Z.
  - specialize (IH (n / 10)%Z). lia.
  - rewrite digits_length. lia.
Qed.

(** [toFixed_n k a / 10^k] is within half a unit of the last place of
    [|a|]. *)
Lemma toFixed_n_near k a :
  Qabs (inject_Z (toFixed_n k a) / inject_Z (pow10 k) - Qabs a)
  <= 1 / (2 * inject_Z (pow10 k)).
Proof.
  unfold toFixed_n.
  set (P := inject_Z (pow10 k)).
  assert (HP : 0 < P).
  { unfold P. change 0 with (inject_Z 0). rewrite <- Zlt_Qlt. apply pow10_pos. }
  set (x := Qabs a * P + (1 # 2)).
  pose proof (Qfloor_le x) as Hlo.
  pose proof (Qlt_floor x) as Hhi.
  rewrite inject_Z_plus in Hhi. change (inject_Z 1) with 1 in Hhi.
  set (n := inject_Z (Qfloor x)) in *.
  apply Qabs_Qle_condition.
  assert (Hu : 0 < / P) by (apply Qinv_lt_0_compat; exact HP).
  assert (HPu : P * / P == 1) by (apply Qmult_inv_r; lra).
  setoid_replace (n / P - Qabs a) with ((n - Qabs a * P) * / P)
    by (field; lra).
  setoid_replace (1 / (2 * P)) with ((1 # 2) * / P) by (field; lra).
  unfold x in *. split; nra.
Qed.

Lemma toLocaleString_shows k a :
  shows_decimals k a (toLocaleString k (Fin a)).
Proof.
  exists (toFixed_n k a), (fraction k (toFixed_n k a mod pow10 k)).
  repeat split.
  - apply fraction_length.
  - apply toFixed_n_near.
Qed.

End PrintFacts.

(** ** Rounding to a number of decimals *)

Section RoundFacts.

Lemma Qneg_comp a b : a == b -> Qneg a = Qneg b.
Proof. intro H. unfold Qneg, Qltb. rewrite H. reflexivity. Qed.

Lemma toFixed_n_comp k a b : a == b -> toFixed_n k a = toFixed_n k b.
Proof. intro H. unfold toFixed_n. rewrite H. reflexivity. Qed.

Lemma Qround_to_comp k a b : a == b -> Qround_to k a == Qround_to k b.
Proof.
  intro H. unfold Qround_to.
  rewrite (Qneg_comp a b H), (toFixed_n_comp k a b H). reflexivity.
Qed.

(** Rounding to [k] decimals moves a value by at most half a unit of the
    last place. *)
Lemma Qround_to_near k a :
  Qabs (Qround_to k a - a) <= 1 / (2 * inject_Z (pow10 k)).
Proof.
  pose proof (toFixed_n_near k a) as H. unfold Qround_to.
  set (m := inject_Z (toFixed_n k a) / inject_Z (pow10 k)) in *.
  destruct (Qneg a) eqn:E; js_facts.
  - rewrite (Qabs_neg a) in H by lra.
    setoid_replace (-1 * m - a) with (- (m - - a)) by ring.
    rewrite Qabs_opp. exact H.
  - rewrite (Qabs_pos a) in H by lra.
    setoid_replace (1 * m - a) with (m - a) by ring. exact H.
Qed.

End RoundFacts.

(** ** The resistor list is never empty *)

Section ListEditsFacts.
Import Types App ListEdits.

Lemma ids_app (xs ys : list Resistor) : ids (xs ++ ys) = ids xs ++ ids ys.
Proof. apply map_app. Qed.

Lemma ids_update rid u rs : ids (updateResistor rid u rs) = ids rs.
Proof.
  unfold ids, updateResistor. rewrite map_map. apply map_ext.
  intros r. destruct (String.eqb (id r) rid); [destruct u|]; reflexivity.
Qed.

Lemma ids_filter (keep : Resistor -> bool) rs :
  NoDup (ids rs) -> NoDup (ids (filter keep rs)).
Proof.
  induction rs as [|r rs IH]; simpl; intro H; [constructor|].
  inversion H as [|? ? Hnot Hrest]; subst.
  destruct (keep r); simpl; auto.
  constructor; auto.
  intro Hin. apply Hnot. unfold ids in *.
  apply in_map_iff in Hin. destruct Hin as [x [Hx Hf]].
  apply filter_In in Hf. apply in_map_iff. exists x. tauto.
Qed.

(** With unique identifiers, a removal drops at most one row. *)
Lemma filter_id_length rid rs :
  NoDup (ids rs) ->
  (List.length rs
   <= S (List.length (filter (fun r => negb (String.eqb (id r) rid)) rs)))%nat.
Proof.
  induction rs as [|r rs IH]; simpl; intro H; [lia|].
  inversion H as [|? ? Hnot Hrest]; subst.
  destruct (String.eqb (id r) rid) eqn:E; simpl.
  - apply String.eqb_eq in E. subst rid.
    assert (Hall : filter (fun x => negb (String.eqb (id x) (id r))) rs = rs).
    { apply forallb_filter_id. apply forallb_forall. intros x Hx.
      apply negb_true_iff. apply String.eqb_neq. intro Heq.
      apply Hnot. unfold ids. apply in_map_iff. exists x. auto. }
    rewrite Hall. lia.
  - specialize (IH Hrest). lia.
Qed.

Lemma step_invariant op rs :
  match op with Add newId => ~ In newId (ids rs) | _ => True end ->
  NoDup (ids rs) /\ rs <> [] ->
  NoDup (ids (step op rs)) /\ step op rs <> [].
Proof.
  intros Hfresh [Hnd Hne]. destruct op as [newId|rid|rid u]; simpl.
  - unfold addResistor. split.
    + rewrite ids_app. simpl.
      apply NoDup_app; [assumption|constructor; [intros []|constructor]|].
      intros a Ha [Hb|[]]. subst a. contradiction.
    + destruct rs; discriminate.
  - unfold removeResistor. destruct (1 <? List.length rs)%nat eqn:E; [|tauto].
    apply Nat.ltb_lt in E. split.
    + apply ids_filter; assumption.
    + pose proof (filter_id_length rid rs Hnd) as Hlen.
      intro Hnil. rewrite Hnil in Hlen. simpl in Hlen. lia.
  - split.
    + rewrite ids_update. assumption.
    + unfold updateResistor. destruct rs; [tauto|discriminate].
Qed.

Lemma run_invariant ops : forall rs,
  fresh_ids ops rs ->
  NoDup (ids rs) /\ rs <> [] ->
  NoDup (ids (run ops rs)) /\ run ops rs <> [].
Proof.
  induction ops as [|op ops IH]; simpl; intros rs Hf Hinv; [assumption|].
  destruct Hf as [Hop Hrest].
  apply IH; [assumption|]. apply step_invariant; assumption.
Qed.

(** A removal is refused when a single row is left. *)
Lemma removeResistor_last rid rs :
  (List.length rs <= 1)%nat -> removeResistor rid rs = rs.
Proof.
  intro H. unfold removeResistor.
  destruct (1 <? List.length rs)%nat eqn:E; [|reflexivity].
  apply Nat.ltb_lt in E. lia.
Qed.

(** The uniqueness of the identifiers matters: a removal filters by
    identifier, so two rows that carried the same identifier would go
    together. *)
Remark removeResistor_same_id :
  removeResistor "x" [row "x"; row "x"] = [].
Proof. reflexivity. Qed.

(** C9 (as amended). Starting from the initial list of two resistors, any
    sequence of additions, removals and updates leaves at least one resistor
    in the list, provided the generated identifiers are unique (the two
    initial ones differ and each addition gets an identifier that no row
    carries); and [removeResistor] returns the list unchanged when it holds a
    single resistor. *)
Theorem resistor_list_never_empty (id1 id2 : string) (ops : list Op) :
  id1 <> id2 ->
  fresh_ids ops (initialResistors id1 id2) ->
  run ops (initialResistors id1 id2) <> []
  /\ (forall rid r, removeResistor rid [r] = [r]).
Proof.
  intros Hne Hfresh. split.
  - apply (run_invariant ops (initialResistors id1 id2) Hfresh).
    split; [|discriminate].
    simpl. constructor.
    + simpl. intros [H|[]]. congruence.
    + constructor; [intros []|constructor].
  - intros rid r. apply removeResistor_last. simpl. lia.
Qed.

(** C9, counterexample. [generateId()] draws a random string and nothing
    keeps it from returning the same one twice; when the two initial rows
    carry the same identifier a single removal empties the list. *)
Lemma resistor_list_emptied_counterexample :
  run [Remove "x"] (initialResistors "x" "x") = [].
Proof. reflexivity. Qed.

End ListEditsFacts.

(** ** The unit formatter *)

Section FormatUnitFacts.
Import App FormatSpec.
Local Open Scope js_scope.







End FormatUnitFacts.

(** ** Exponent notation *)

Section ExponentFacts.
Import App ExponentSpec.

Lemma Qpow10_pos e : 0 < Qpow10 e.
Proof. apply Qpower_0_lt. reflexivity. Qed.

Lemma Qpow10_succ e : Qpow10 (e + 1) == Qpow10 e * 10.
Proof. unfold Qpow10. rewrite Qpower_plus by discriminate. reflexivity. Qed.

Lemma Qpow10_plus e k : Qpow10 (e + k) == Qpow10 e * Qpow10 k.
Proof. unfold Qpow10. apply Qpower_plus. discriminate. Qed.

Lemma Qpow10_nat k : Qpow10 (Z.of_nat k) == inject_Z (pow10 k).
Proof.
  unfold Qpow10, pow10. rewrite Zpower_Qpower by lia. reflexivity.
Qed.

Lemma Qpow10_mono e e' : (e <= e')%Z -> Qpow10 e <= Qpow10 e'.
Proof. intro H. apply Qpower_le_compat_l; [exact H|discriminate]. Qed.

Lemma exponent10_from_spec a : forall fuel e,
  a < Qpow10 (e + 1) ->
  Qpow10 (e - Z.of_nat fuel) <= a ->
  Qpow10 (exponent10_from fuel e a) <= a
  /\ a < Qpow10 (exponent10_from fuel e a + 1).
Proof.
  induction fuel as [|fuel IH]; intros e Hhi Hlo.
  - simpl in *. rewrite Z.sub_0_r in Hlo. split; assumption.
  - cbn [exponent10_from].
    destruct (Qle_bool (Qpow10 e) a) eqn:E.
    + apply Qle_bool_iff in E. split; assumption.
    + apply IH.
      * replace (e - 1 + 1)%Z with e by lia.
        apply Qnot_le_lt. intro H. apply Qle_bool_iff in H. congruence.
      * replace (e - 1 - Z.of_nat fuel)%Z with (e - Z.of_nat (S fuel))%Z
          by lia.
        exact Hlo.
Qed.

Lemma pow2_le_pow10 k : (0 <= k)%Z -> (2 ^ k <= 10 ^ k)%Z.
Proof. intro H. apply Z.pow_le_mono_l. lia. Qed.

Lemma exponent10_spec a :
  0 < a ->
  Qpow10 (exponent10 a) <= a /\ a < Qpow10 (exponent10 a + 1).
Proof.
  intro Ha. unfold exponent10.
  destruct a as [n d]. cbn [Qnum Qden].
  assert (Hn : (0 < n)%Z).
  { unfold Qlt in Ha. simpl in Ha. lia. }
  set (hi := (Z.log2 n + 1)%Z).
  set (lo := (Z.log2 (Z.pos d) + 1)%Z).
  pose proof (Z.log2_nonneg n) as Hh0.
  pose proof (Z.log2_nonneg (Z.pos d)) as Hl0.
  pose proof (Z.log2_spec n Hn) as [_ Hnhi].
  pose proof (Z.log2_spec (Z.pos d) (Pos2Z.is_pos d)) as [_ Hdhi].
  assert (Hnd : n # d <= inject_Z n).
  { unfold Qle. simpl. nia. }
  assert (Hdn : inject_Z n == (n # d) * inject_Z (Z.pos d)).
  { unfold Qeq. simpl. nia. }
  apply exponent10_from_spec.
  - apply Qle_lt_trans with (inject_Z n); [exact Hnd|].
    apply Qlt_le_trans with (inject_Z (10 ^ hi)).
    + rewrite <- Zlt_Qlt.
      apply Z.lt_le_trans with (2 ^ hi)%Z; [exact Hnhi|].
      apply pow2_le_pow10. lia.
    + rewrite Zpower_Qpower by lia.
      apply (Qpow10_mono hi (hi + 1)). lia.
  - rewrite Z2Nat.id by lia.
    replace (hi - (hi + lo + 1))%Z with (- (lo + 1))%Z by lia.
    unfold Qpow10. rewrite Qpower_opp. fold (Qpow10 (lo + 1)).
    setoid_replace (/ Qpow10 (lo + 1)) with (1 / Qpow10 (lo + 1))
      by (unfold Qdiv; ring).
    apply Qle_shift_div_r; [apply Qpow10_pos|].
    apply Qle_trans with ((n # d) * inject_Z (Z.pos d)).
    + rewrite <- Hdn. change 1 with (inject_Z 1). rewrite <- Zle_Qle. lia.
    + apply Qmult_le_l; [exact Ha|].
      apply Qle_trans with (inject_Z (10 ^ lo)).
      * rewrite <- Zle_Qle.
        apply Z.le_trans with (2 ^ lo)%Z;
          [apply Z.lt_le_incl; exact Hdhi|].
        apply pow2_le_pow10. lia.
      * rewrite Zpower_Qpower by lia.
        apply (Qpow10_mono lo (lo + 1)). lia.
Qed.

Lemma pow10_S f : pow10 (S f) = (10 * pow10 f)%Z.
Proof.
  unfold pow10. rewrite Nat2Z.inj_succ. apply Z.pow_succ_r. lia.
Qed.

(** The digits and the exponent that [toExponential] picks. *)
Lemma toExponential_en_spec f a :
  ~ a == 0 ->
  (pow10 f <= snd (toExponential_en f a) < pow10 (S f))%Z
  /\ Qabs (inject_Z (snd (toExponential_en f a))
           * Qpow10 (fst (toExponential_en f a) - Z.of_nat f) - Qabs a)
     <= Qpow10 (fst (toExponential_en f a) - Z.of_nat f) / 2.
Proof.
  intro Ha. unfold toExponential_en.
  set (x := Qabs a).
  assert (Hx : 0 < x).
  { unfold x. destruct (Qlt_le_dec 0 (Qabs a)) as [H|H]; [exact H|].
    exfalso. apply Ha.
    pose proof (Qabs_nonneg a) as Hn.
    assert (Hz : Qabs a == 0) by lra.
    revert Hz. apply Qabs_case; intros; lra. }
  destruct (exponent10_spec x Hx) as [Hlo Hhi].
  set (e := exponent10 x) in *.
  set (s := Qpow10 (e - Z.of_nat f)).
  assert (Hs : 0 < s) by apply Qpow10_pos.
  assert (He : Qpow10 e == s * inject_Z (pow10 f)).
  { unfold s. rewrite <- Qpow10_nat, <- Qpow10_plus.
    replace (e - Z.of_nat f + Z.of_nat f)%Z with e by lia. reflexivity. }
  assert (He1 : Qpow10 (e + 1) == s * inject_Z (pow10 (S f))).
  { rewrite Qpow10_succ, He, pow10_S, inject_Z_mult.
    change (inject_Z 10) with 10. ring. }
  rewrite He in Hlo. rewrite He1 in Hhi.
  set (y := x / s).
  assert (Hxy : x == y * s) by (unfold y; field; lra).
  assert (Hylo : inject_Z (pow10 f) <= y).
  { unfold y. apply Qle_shift_div_l; [exact Hs|]. lra. }
  assert (Hyhi : y < inject_Z (pow10 (S f))).
  { unfold y. apply Qlt_shift_div_r; [exact Hs|]. lra. }
  set (n0 := Qfloor (y + (1 # 2))).
  pose proof (Qfloor_le (y + (1 # 2))) as Hfl.
  pose proof (Qlt_floor (y + (1 # 2))) as Hfh.
  fold n0 in Hfl, Hfh. rewrite inject_Z_plus in Hfh.
  change (inject_Z 1) with 1 in Hfh.
  assert (Hn0lo : (pow10 f <= n0)%Z).
  { rewrite <- (Qfloor_Z (pow10 f)). apply Qfloor_resp_le. lra. }
  assert (Hn0hi : (n0 <= pow10 (S f))%Z).
  { apply Z.lt_succ_r. rewrite Zlt_Qlt. unfold Z.succ.
    rewrite inject_Z_plus. change (inject_Z 1) with 1. lra. }
  pose proof (pow10_pos f) as Hpf.
  destruct (n0 =? pow10 (S f))%Z eqn:E; cbn [fst snd].
  - apply Z.eqb_eq in E. split; [rewrite pow10_S; lia|].
    replace (e + 1 - Z.of_nat f)%Z with (e - Z.of_nat f + 1)%Z by lia.
    rewrite Qpow10_succ. fold s.
    assert (Hn0 : inject_Z n0 == inject_Z (pow10 f) * 10).
    { rewrite E, pow10_S, inject_Z_mult. change (inject_Z 10) with 10. ring. }
    apply Qabs_Qle_condition.
    setoid_replace (inject_Z (pow10 f) * (s * 10) - x)
      with ((inject_Z n0 - y) * s) by (rewrite Hn0, Hxy; ring).
    setoid_replace (s * 10 / 2) with (5 * s) by field.
    split; nra.
  - apply Z.eqb_neq in E. split; [lia|]. fold s.
    apply Qabs_Qle_condition.
    setoid_replace (inject_Z n0 * s - x)
      with ((inject_Z n0 - y) * s) by (rewrite Hxy; ring).
    setoid_replace (s / 2) with ((1 # 2) * s) by field.
    split; nra.
Qed.

(** C4 (as amended). A nonzero value with |x| < 0.001 or |x| > 10000 is
    printed by [formatNumber] in exponent notation with three digits after
    the point, that is with four significant digits: the first one is not
    zero, and the four digits are those of |x| rounded at the fourth
    significant place. *)
Theorem formatNumber_exponent_notation (x : Q) :
  extreme x ->
  formatNumber (Fin x) = toExponential 3 (Fin x)
  /\ shows_exponent 3 x (formatNumber (Fin x)).
Proof.
  intros [Hx Hext].
  assert (Hfmt : formatNumber (Fin x) = toExponential 3 (Fin x)).
  { unfold formatNumber.
    replace (eqb (Fin x) (num 0)) with false
      by (symmetry; apply eqb_Fin_false; exact Hx).
    replace (ltb (Math_abs (Fin x)) (Fin (1 # 1000))
             || gtb (Math_abs (Fin x)) (num 10000)) with true; [reflexivity|].
    symmetry. apply orb_true_iff.
    destruct Hext as [H|H]; [left; apply ltb_Fin_true|right; apply gtb_Fin_true];
      exact H. }
  split; [exact Hfmt|]. rewrite Hfmt.
  destruct (toExponential_en_spec 3 x Hx) as [Hn Hnear].
  exists (snd (toExponential_en 3 x)), (fst (toExponential_en 3 x)).
  split; [exact Hn|]. split; [|exact Hnear].
  unfold toExponential.
  replace (Qzero x) with false by (symmetry; apply Qzero_false; exact Hx).
  destruct (toExponential_en 3 x) as [e n]. reflexivity.
Qed.

(** C4, counterexample. 123456 is printed as 1.235e+5, with four
    significant digits, not three. *)
Lemma formatNumber_digits_counterexample :
  extreme 123456
  /\ formatNumber (num 123456) = "1.235e+5"%string
  /\ toExponential 2 (num 123456) = "1.23e+5"%string
  /\ ~ shows_exponent 2 123456 (formatNumber (num 123456)).
Proof.
  assert (E : formatNumber (num 123456) = "1.235e+5"%string)
    by (vm_compute; reflexivity).
  split; [split; [discriminate|right; reflexivity]|].
  split; [exact E|]. split; [vm_compute; reflexivity|].
  rewrite E. intros [n [e [_ [H _]]]].
  unfold exponent_text in H. cbn in H. congruence.
Qed.

End ExponentFacts.

(** ** The voltage divider: an error leaves the boxes alone *)

Section DividerFacts.
Import VoltageDivider.
Local Open Scope js_scope.

(** A run is one error report or one result write, nothing else. *)
Lemma calculate_outcome (st : State) :
  (exists e, calculate st = setError e st)
  \/ (exists f x, calculate st = setResult f x st).
Proof.
  destruct st as [[vi a b vo] cf err].
  unfold calculate, validInputs. cbn [values vin ra rb vout filter].
  destruct (isNaN vi) eqn:E1, (isNaN a) eqn:E2, (isNaN b) eqn:E3,
           (isNaN vo) eqn:E4;
    cbn [filter negb List.length Nat.eqb];
    repeat match goal with
      | |- context [if ?c then _ else _] => destruct c
      end;
    first [ left; eexists; reflexivity
          | right; eexists; eexists; reflexivity ].
Qed.

(** C7. A run of the voltage-divider solver that reports an error - wrong
    input count, zero denominator, Vin equal to Vout, negative derived
    resistance - does nothing else: the four boxes Vin, Ra, Rb, Vout and the
    mark of the derived box are exactly as before.  Every run is either such
    a report or a single write of a result. *)
Theorem divider_error_atomic (st : State) :
  ((exists e, calculate st = setError e st)
   \/ (exists f x, calculate st = setResult f x st))
  /\ (forall e, calculate st = setError e st ->
        values (calculate st) = values st
        /\ calculatedField (calculate st) = calculatedField st)
  /\ (forall e, error (calculate st) = Some e -> error st <> Some e ->
        calculate st = setError e st
        /\ values (calculate st) = values st
        /\ calculatedField (calculate st) = calculatedField st).
Proof.
  split; [apply calculate_outcome|]. split.
  - intros e He. rewrite He. split; reflexivity.
  - intros e He Hne.
    destruct (calculate_outcome st) as [[e' H]|[f [x H]]].
    + rewrite H in He |- *. cbn [setError error] in He.
      injection He as ->. repeat split; reflexivity.
    + rewrite H in He. cbn [setResult error] in He. contradiction.
Qed.

End DividerFacts.


(** * Double precision: the properties that depend on the arithmetic *)

(** ** Facts of binary64 arithmetic *)

Section DoubleFacts.
Import Double.
Local Open Scope double_scope.

Lemma ltb_not_NaN x y : (x <? y) = true -> isNaN x = false /\ isNaN y = false.
Proof.
  intro H. destruct x, y; cbn in H; try discriminate H; split; reflexivity.
Qed.

Lemma leb_not_NaN x y : (x <=? y) = true -> isNaN x = false /\ isNaN y = false.
Proof.
  intro H. destruct x, y; cbn in H; try discriminate H; split; reflexivity.
Qed.

Lemma gtb_not_NaN x y : (x >? y) = true -> isNaN x = false.
Proof. intro H. apply (ltb_not_NaN y x H). Qed.

Lemma eqb_not_NaN x y : (x === y) = true -> isNaN x = false /\ isNaN y = false.
Proof.
  intro H. destruct x, y; cbn in H; try discriminate H; split; reflexivity.
Qed.

Lemma mul_NaN_l y : S754_nan * y = S754_nan.
Proof. reflexivity. Qed.

(** *** Rounding never gives NaN *)

Lemma shr_1_nonneg mrs : (0 <= shr_m mrs)%Z -> (0 <= shr_m (shr_1 mrs))%Z.
Proof.
  destruct mrs as [m r s]. destruct m as [|p|p]; cbn; intro H;
    try lia; destruct p; cbn; lia.
Qed.

Lemma iter_shr_1_nonneg p : forall mrs,
  (0 <= shr_m mrs)%Z -> (0 <= shr_m (iter_pos shr_1 p mrs))%Z.
Proof.
  induction p as [p IH|p IH|]; intros mrs H; cbn.
  - apply IH, IH, shr_1_nonneg, H.
  - apply IH, IH, H.
  - apply shr_1_nonneg, H.
Qed.

Lemma shr_fexp_nonneg m e l :
  (0 <= m)%Z -> (0 <= shr_m (fst (shr_fexp prec emax m e l)))%Z.
Proof.
  intro H. unfold shr_fexp, shr.
  assert (H0 : (0 <= shr_m (shr_record_of_loc m l))%Z)
    by (destruct l as [|[]]; exact H).
  destruct (fexp prec emax (Zdigits2 m + e) - e)%Z; cbn [fst];
    [exact H0|apply iter_shr_1_nonneg; exact H0|exact H0].
Qed.

Lemma round_nearest_even_nonneg m l :
  (0 <= m)%Z -> (0 <= round_nearest_even m l)%Z.
Proof.
  intro H. destruct l as [|[]]; cbn; try lia. destruct (Z.even m); lia.
Qed.

Lemma binary_round_aux_not_NaN s m e l :
  (0 <= m)%Z -> isNaN (binary_round_aux prec emax s m e l) = false.
Proof.
  intro H. unfold binary_round_aux.
  pose proof (shr_fexp_nonneg m e l H) as H1.
  destruct (shr_fexp prec emax m e l) as [mrs' e'] eqn:E1. cbn [fst] in H1.
  pose proof (shr_fexp_nonneg
                (round_nearest_even (shr_m mrs') (loc_of_shr_record mrs'))
                e' loc_Exact (round_nearest_even_nonneg _ _ H1)) as H2.
  destruct (shr_fexp prec emax
              (round_nearest_even (shr_m mrs') (loc_of_shr_record mrs'))
              e' loc_Exact) as [mrs'' e''] eqn:E2.
  cbn [fst] in H2.
  destruct (shr_m mrs'') as [|q|q]; [reflexivity| |lia].
  destruct (e'' <=? emax - prec)%Z; reflexivity.
Qed.

(** A product is NaN only for a NaN factor or for zero times infinity. *)
Lemma mul_finite_not_NaN x s m e :
  isNaN (x * S754_finite s m e) = isNaN x.
Proof.
  destruct x as [sx|sx| |sx mx ex]; try reflexivity.
  apply binary_round_aux_not_NaN. lia.
Qed.

(** *** Integers of at most 53 bits are doubles *)

Lemma digits2_size p : digits2_pos p = Pos.size p.
Proof. induction p; cbn; congruence. Qed.

Lemma digits2_iter p k : digits2_pos (Pos.iter xO p k) = (digits2_pos p + k)%positive.
Proof.
  induction k using Pos.peano_ind.
  - cbn. lia.
  - rewrite Pos.iter_succ. cbn. rewrite IHk. lia.
Qed.

Lemma Zpos_iter p k : Z.pos (Pos.iter xO p k) = (Z.pos p * 2 ^ Z.pos k)%Z.
Proof.
  induction k using Pos.peano_ind.
  - cbn. lia.
  - rewrite Pos.iter_succ. rewrite Pos2Z.inj_xO, IHk.
    rewrite Pos2Z.inj_succ, Z.pow_succ_r by lia. ring.
Qed.

Lemma small_digits p : (Z.pos p < 2 ^ 53)%Z -> (Z.pos (digits2_pos p) <= 53)%Z.
Proof.
  intro H. rewrite digits2_size.
  pose proof (Pos.size_le p) as L.
  destruct (Z.le_gt_cases (Z.pos (Pos.size p)) 53) as [|G]; [assumption|exfalso].
  assert (E : (2 ^ 54 <= 2 ^ Z.pos (Pos.size p))%Z) by (apply Z.pow_le_mono_r; lia).
  assert (L' : (2 ^ Z.pos (Pos.size p) <= 2 * Z.pos p)%Z).
  { rewrite <- Pos2Z.inj_pow. change 2%Z with (Z.pos 2). rewrite <- Pos2Z.inj_mul. apply Pos2Z.pos_le_pos. exact L. }
  lia.
Qed.

Lemma binary_round_aux_canonical s m e :
  Z.pos (digits2_pos m) = 53%Z -> (-1074 <= e <= 971)%Z ->
  binary_round_aux prec emax s (Z.pos m) e loc_Exact = S754_finite s m e.
Proof.
  intros Hd He. unfold binary_round_aux, shr_fexp.
  cbn [Zdigits2 shr_record_of_loc]. rewrite Hd.
  assert (Hf : (fexp prec emax (53 + e) - e = 0)%Z)
    by (unfold fexp, emin, prec, emax; lia).
  rewrite Hf. cbn [shr shr_m loc_of_shr_record round_nearest_even Zdigits2
                   shr_record_of_loc].
  rewrite Hd, Hf. cbn [shr shr_m].
  replace (e <=? emax - prec)%Z with true
    by (symmetry; apply Z.leb_le; unfold emax, prec; lia).
  reflexivity.
Qed.

Lemma binary_round_small s p :
  (Z.pos p < 2 ^ 53)%Z ->
  exists m e, binary_round prec emax s p 0 = S754_finite s m e
              /\ (inject_Z (Z.pos m) * Qpower 2 e == inject_Z (Z.pos p))%Q.
Proof.
  intro H. pose proof (small_digits p H) as Hd.
  unfold binary_round.
  set (d := Z.pos (digits2_pos p)) in *.
  assert (Hd1 : (1 <= d)%Z) by (unfold d; lia).
  assert (Hf : fexp prec emax (d + 0) = (d - 53)%Z)
    by (unfold fexp, emin, prec, emax; lia).
  rewrite Hf. unfold shl_align.
  destruct (d - 53 - 0)%Z as [|k|k] eqn:E; [|lia|].
  - exists p, 0%Z. split.
    + apply binary_round_aux_canonical; [fold d|]; lia.
    + cbn. ring.
  - exists (Pos.iter xO p k), (d - 53)%Z. split.
    + apply binary_round_aux_canonical; [|lia].
      rewrite digits2_iter, Pos2Z.inj_add. fold d. lia.
    + rewrite Zpos_iter, inject_Z_mult.
      replace (d - 53)%Z with (- Z.pos k)%Z by lia.
      rewrite Qpower_opp. rewrite <- Qmult_assoc.
      assert (Hp : (inject_Z (2 ^ Z.pos k) == Qpower 2 (Z.pos k))%Q).
      { rewrite Zpower_Qpower by lia. reflexivity. }
      rewrite Hp.
      rewrite Qmult_inv_r; [ring|].
      apply Qpower_not_0. discriminate.
Qed.
Lemma of_Z_cases (n : Z) :
  (Z.abs n < 2 ^ 53)%Z ->
  match n with
  | Z0 => of_Z n = S754_zero false
  | Z.pos p =>
      exists m e, of_Z n = S754_finite false m e
                  /\ (Qvalue false m e == inject_Z n)%Q
  | Z.neg p =>
      exists m e, of_Z n = S754_finite true m e
                  /\ (Qvalue true m e == inject_Z n)%Q
  end.
Proof.
  intro H. destruct n as [|p|p]; [reflexivity| |].
  - destruct (binary_round_small false p) as [m [e [E V]]]; [lia|].
    exists m, e. split; [exact E|]. unfold Qvalue. rewrite <- V. ring.
  - destruct (binary_round_small true p) as [m [e [E V]]]; [lia|].
    exists m, e. split; [exact E|]. unfold Qvalue.
    change (inject_Z (Z.neg p)) with (- inject_Z (Z.pos p))%Q.
    rewrite <- V. ring.
Qed.

(** The value and the sign of the double of a whole number. *)
Lemma of_Z_value (n : Z) :
  (Z.abs n < 2 ^ 53)%Z ->
  exists q, value (of_Z n) = Fin q /\ (q == inject_Z n)%Q.
Proof.
  intro H. pose proof (of_Z_cases n H) as C. destruct n as [|p|p].
  - rewrite C. exists 0%Q. split; reflexivity.
  - destruct C as [m [e [E V]]]. rewrite E. eexists. split; [reflexivity|exact V].
  - destruct C as [m [e [E V]]]. rewrite E. eexists. split; [reflexivity|exact V].
Qed.


(** *** The texts of whole numbers *)

Section TextFacts.

Variable shortest : double -> string.






End TextFacts.

End DoubleFacts.

(** ** Battery life *)

Section BatteryFacts.
Import Double DoubleSpec BatteryLifeCalculator BatterySpec.
Local Open Scope double_scope.

Variable shortest : double -> string.


End BatteryFacts.

(** ** Ohm's law *)

Section OhmsFacts.
Import Double DoubleSpec DoubleOhmsLawCalculator OhmsSpec.
Import OhmsLawCalculator(Kv, Ki, Kr, Kp, NeedTwo, CalcError, kind).
Local Open Scope double_scope.

Variable Math_sqrt : double -> double.

Lemma input_number x : isNaN x = false -> input x = Some x.
Proof. intro H. unfold input. rewrite H. reflexivity. Qed.


(** A run on V and I alone. *)
Lemma calculate_VI (V I : double) keys err :
  isNaN V = false -> isNaN I = false ->
  calculate Math_sqrt (mkState (mkOhms V I S754_nan S754_nan) keys err)
  = mkState (mkOhms (stored V) (stored I) (stored (V / I)) (stored (V * I)))
            [Kr; Kp] err.
Proof.
  intros HV HI. unfold calculate. cbn [values v i r p].
  rewrite (input_number V HV), (input_number I HI). reflexivity.
Qed.



(** The only error that a run can report is the wrong-count one. *)
Lemma calculate_error (st : State) :
  error (calculate Math_sqrt st) = error st
  \/ error (calculate Math_sqrt st) = Some NeedTwo.
Proof.
  unfold calculate.
  destruct (negb _); [right; reflexivity|left].
  destruct (input (v (values st))), (input (i (values st))),
           (input (r (values st))), (input (p (values st))); reflexivity.
Qed.

(** A division by a zero. *)
Lemma div_by_zero (x : double) (s : bool) :
  x / S754_zero s
  = if is_zero x || isNaN x then S754_nan
    else S754_infinity (xorb (sign x) s).
Proof. destruct x; reflexivity. Qed.

(** C10. When exactly V and I are supplied and I is zero (0 or -0), a run
    reports no error: the quotient V / I is computed without a guard and
    written into the R box, which is marked as calculated together with P.
    It is NaN when V is zero too, and otherwise an infinity whose sign is
    the sign of V, reversed when I is -0.  No run of this solver reports a
    division by zero: the only error it can report is the wrong-count
    one. *)
Theorem ohms_zero_current_unguarded (st : State) :
  only_VI st ->
  (i (values st) === of_Z 0) = true ->
  let st' := calculate Math_sqrt st in
  let V := v (values st) in
  let I := i (values st) in
  error st' = error st
  /\ calculatedKeys st' = [Kr; Kp]
  /\ r (values st') = V / I
  /\ (is_zero V = true -> isNaN (r (values st')) = true)
  /\ (is_zero V = false ->
      r (values st') = S754_infinity (xorb (sign V) (sign I)))
  /\ (forall st0,
        error (calculate Math_sqrt st0) = error st0
        \/ (error (calculate Math_sqrt st0) = Some NeedTwo
            /\ kind NeedTwo = Some InsufficientInputs))
  /\ (forall e, kind e <> Some DivisionByZero).
Proof.
  intros [Hv [Hi [Hr Hp]]] Hi0 st' V I. subst st' V I.
  destruct st as [[V I R P] keys err]. cbn [values v i r p] in *.
  destruct R; try discriminate Hr. destruct P; try discriminate Hp.
  assert (HI : exists s, I = S754_zero s).
  { change (of_Z 0) with (S754_zero false) in Hi0.
    destruct I as [s|[]| |[] m e]; try discriminate Hi0.
    exists s. reflexivity. }
  destruct HI as [s HI]. subst I.
  rewrite (calculate_VI V (S754_zero s) keys err Hv Hi).
  cbn [error calculatedKeys values r sign].
  assert (HQ : stored (V / S754_zero s) = V / S754_zero s).
  { rewrite div_by_zero. destruct (is_zero V || isNaN V); reflexivity. }
  rewrite HQ, div_by_zero, Hv, orb_false_r.
  repeat split.
  - intro HZ. rewrite HZ. reflexivity.
  - intro HZ. rewrite HZ. reflexivity.
  - intro st0. destruct (calculate_error st0) as [H|H]; [left|right]; auto.
  - intros [] H; discriminate.
Qed.

End OhmsFacts.

Section OhmsExamples.
Import Double DoubleOhmsLawCalculator OhmsSpec.
Local Open Scope double_scope.


End OhmsExamples.

(** ** RC charging *)

Section DelayFacts.
Import Double DoubleRCCalculator.
Import RCCalculator(Error, NeedVin, NeedRC, TargetNotBelow, TargetNotPositive,
                    kind).
Local Open Scope double_scope.

Variables Math_log Math_exp : double -> double.

(** C6. In the charging mode let R and C be the resistance and the
    capacitance that the program computes (the box times its unit, in double
    precision).  With Vin parseable, R > 0, C > 0, a target voltage supplied
    and no elapsed time supplied, a run ends in an invalid-configuration
    error exactly when Vtarget >= Vin or Vtarget <= 0; otherwise it reports
    no error and derives the time t = -(R*C) * ln(1 - Vtarget/Vin), which it
    also writes, scaled to its unit, into the time box. *)
Theorem delay_time_from_target (st : State) :
  let dv := delayValues st in
  let R := dr dv * drUnit dv in
  let C := dc dv * dcUnit dv in
  isNaN (vin dv) = false ->
  (R >? of_Z 0) = true -> (C >? of_Z 0) = true ->
  isNaN (vtarget dv) = false ->
  isNaN (t dv) = true ->
  let st' := calculateDelay Math_log Math_exp st in
  let time := neg (R * C) * Math_log (of_Z 1 - vtarget dv / vin dv) in
  ((vtarget dv >=? vin dv) = true \/ (vtarget dv <=? of_Z 0) = true ->
     exists e, st' = setError e st /\ kind e = InvalidConfiguration)
  /\ ((vtarget dv >=? vin dv) = false /\ (vtarget dv <=? of_Z 0) = false ->
       delayResult st' = Some (time, R * C)
       /\ error st' = error st
       /\ t (delayValues st')
          = reparse_toFixed 3 (time / tUnit (delayValues st'))).
Proof.
  intros dv R C Hvin HR HC Htgt Ht st' time.
  assert (HtNaN : t dv = S754_nan)
    by (destruct (t dv); try discriminate; reflexivity).
  subst st'. unfold calculateDelay. fold dv. fold R. fold C.
  rewrite HtNaN, mul_NaN_l. rewrite Hvin, Htgt, HR, HC.
  rewrite (gtb_not_NaN _ _ HR), (gtb_not_NaN _ _ HC).
  cbn [negb andb orb isNaN].
  split.
  - intros [H|H].
    + rewrite H. exists TargetNotBelow. split; reflexivity.
    + rewrite H. destruct (vtarget dv >=? vin dv).
      * exists TargetNotBelow. split; reflexivity.
      * exists TargetNotPositive. split; reflexivity.
  - intros [H1 H2]. rewrite H1, H2. fold time.
    repeat split.
Qed.

End DelayFacts.

(** ** The RC filter *)

Section FilterFacts.
Import Double DoubleSpec DoubleRCCalculator FilterSpec.
Import RCCalculator(Error, FreqZero, CapZero, NeedTwo, kind).
Local Open Scope double_scope.

(** Scaling by a unit of the selects keeps a number a number. *)
Lemma scaled_isNaN x u :
  is_finite_nonzero u = true -> isNaN (scaled x u) = isNaN x.
Proof.
  intro H. destruct u as [s|s| |s m e]; try discriminate H.
  unfold scaled. destruct (isNaN x) eqn:E; cbn [negb]; [reflexivity|].
  rewrite mul_finite_not_NaN. exact E.
Qed.

(** C3 (as amended). [calculateFilter] reports the insufficient-input error
    when fewer than two of R, C and f are supplied, and only then: with two
    or three supplied values a run either ends in a division-by-zero error or
    produces a result.  With all three supplied it reports no error: it
    solves from R and C, ignores the supplied f and overwrites the frequency
    box and its unit with the computed cut-off frequency (two decimals). *)
Theorem filter_refuses_fewer_than_two (st : State) :
  units_finite st ->
  let vs := values st in
  let R := scaled (r vs) (rUnit vs) in
  let C := scaled (c vs) (cUnit vs) in
  let fc := of_Z 1 / (of_Z 2 * Math_PI * R * C) in
  ((supplied_count st < 2)%nat ->
     fails_with NeedTwo st /\ kind NeedTwo = InsufficientInputs)
  /\ ((2 <= supplied_count st)%nat ->
        (exists e, fails_with e st /\ kind e = DivisionByZero)
        \/ (exists tau fc', result (calculateFilter st) = Some (tau, fc')
                            /\ error (calculateFilter st) = error st))
  /\ (supplied_count st = 3%nat ->
        calculateFilter st
        = mkState
            (mkRC (r vs) (rUnit vs) (c vs) (cUnit vs)
                  (reparse_toFixed 2 (fc / bestUnit fc)) (bestUnit fc))
            (Some (R * C, fc)) (delayValues st) (delayResult st) (error st)).
Proof.
  intros [Hr [Hc Hf]] vs R C fc. subst fc R C vs.
  unfold fails_with, supplied_count, supplied, calculateFilter.
  rewrite !(scaled_isNaN _ _ Hr), !(scaled_isNaN _ _ Hc),
          !(scaled_isNaN _ _ Hf).
  destruct (isNaN (r (values st))), (isNaN (c (values st))),
           (isNaN (f (values st))); cbn [negb andb Nat.add];
    repeat split; intros; try lia; try reflexivity;
    repeat match goal with
      | |- context [if ?b then _ else _] => destruct b
      end;
    first [ left; eexists; split; reflexivity
          | right; eexists; eexists; split; reflexivity ].
Qed.

(** C3, counterexample. With R = 1 kOhm, C = 1 uF and f = 5 Hz all supplied
    the count is 3, yet the run reports no error: it computes the result
    from R and C and replaces the 5 in the frequency box by 159.15. *)
Lemma filter_all_three_counterexample :
  units_finite all_three
  /\ supplied_count all_three = 3%nat
  /\ error (calculateFilter all_three) = None
  /\ result (calculateFilter all_three) <> None
  /\ f (values (calculateFilter all_three)) = nearest (15915 # 100)
  /\ ~ refuses_wrong_count all_three.
Proof.
  split; [repeat split|]. split; [reflexivity|].
  split; [vm_compute; reflexivity|]. split; [vm_compute; discriminate|].
  split; [vm_compute; reflexivity|].
  intro H. destruct H as [e [He _]]; [vm_compute; discriminate|].
  unfold fails_with in He.
  apply (f_equal error) in He. vm_compute in He. destruct e; discriminate.
Qed.

End FilterFacts.

(** ** Rounding to nearest: the error of one operation *)

Section ShiftFacts.
Import Double Rounding.
Local Open Scope Z_scope.

Lemma shr_1_m mrs : 0 <= shr_m mrs ->
  shr_m mrs = 2 * shr_m (shr_1 mrs) + (if shr_r (shr_1 mrs) then 1 else 0)
  /\ shr_s (shr_1 mrs) = shr_r mrs || shr_s mrs.
Proof.
  destruct mrs as [m r s]. cbn [shr_m]. intro H.
  destruct m as [|[p|p|]|p]; cbn; try lia; split; try reflexivity; lia.
Qed.

Lemma Rep_shr_1 N d k mrs :
  0 < d -> 0 <= k -> Rep N d k mrs -> Rep N d (k + 1) (shr_1 mrs).
Proof.
  intros Hd Hk [Hm [low [Hlow [Heq Hs]]]].
  destruct (shr_1_m mrs Hm) as [E1 E2].
  assert (P : 0 < 2 ^ k) by (apply Z.pow_pos_nonneg; lia).
  assert (P2 : 2 ^ (k + 1) = 2 * 2 ^ k) by (rewrite Z.pow_add_r by lia; lia).
  split.
  - destruct (shr_r (shr_1 mrs)); lia.
  - exists ((if shr_r mrs then 2 ^ k * d else 0) + low).
    rewrite P2, E2. split; [|split].
    + destruct (shr_r mrs); nia.
    + rewrite E1 in Heq. destruct (shr_r (shr_1 mrs)); nia.
    + destruct (shr_r mrs), (shr_s mrs); cbn [orb]; split; intro H;
        try reflexivity; try nia.
Qed.

Lemma iter_pos_add {A} (f : A -> A) (P : Z -> A -> Prop) :
  (forall k x, 0 <= k -> P k x -> P (k + 1) (f x)) ->
  forall p k x, 0 <= k -> P k x -> P (k + Z.pos p) (iter_pos f p x).
Proof.
  intro Hf. induction p as [p IH|p IH|]; intros k x Hk Hx; cbn [iter_pos].
  - replace (k + Z.pos p~1) with (k + 1 + Z.pos p + Z.pos p) by lia.
    apply IH; [lia|]. apply IH; [lia|]. apply Hf; assumption.
  - replace (k + Z.pos p~0) with (k + Z.pos p + Z.pos p) by lia.
    apply IH; [lia|]. apply IH; assumption.
  - apply Hf; assumption.
Qed.

Lemma Rep_shr N d mrs e n :
  0 < d -> Rep N d 0 mrs ->
  Rep N d (Z.max 0 n) (fst (shr mrs e n)) /\ snd (shr mrs e n) = e + Z.max 0 n.
Proof.
  intros Hd H. destruct n as [|p|p]; cbn [shr fst snd].
  - split; [exact H|lia].
  - split; [|lia]. replace (Z.max 0 (Z.pos p)) with (0 + Z.pos p) by lia.
    apply (iter_pos_add shr_1 (Rep N d)); [|lia|exact H].
    intros k x Hk Hx. apply Rep_shr_1; assumption.
  - split; [exact H|lia].
Qed.

(** *** The number of bits *)

Lemma Zdigits2_log2 m : 0 < m -> Zdigits2 m = Z.log2 m + 1.
Proof.
  destruct m as [|p|p]; try lia. intros _. cbn [Zdigits2].
  destruct p as [p|p|]; cbn [digits2_pos Z.log2]; try reflexivity;
    rewrite Pos2Z.inj_succ; f_equal;
    (induction p as [p IH|p IH|]; cbn [digits2_pos Pos.size];
     [rewrite !Pos2Z.inj_succ, IH; reflexivity
     |rewrite !Pos2Z.inj_succ, IH; reflexivity|reflexivity]).
Qed.

Lemma Zdigits2_bounds m :
  0 < m -> 0 < Zdigits2 m /\ 2 ^ (Zdigits2 m - 1) <= m < 2 ^ Zdigits2 m.
Proof.
  intro H. rewrite (Zdigits2_log2 m H).
  pose proof (Z.log2_nonneg m). pose proof (Z.log2_spec m H).
  replace (Z.log2 m + 1 - 1) with (Z.log2 m) by lia.
  replace (Z.log2 m + 1) with (Z.succ (Z.log2 m)) by lia. lia.
Qed.

Lemma Zdigits2_unique m D :
  0 < D -> 2 ^ (D - 1) <= m < 2 ^ D -> Zdigits2 m = D.
Proof.
  intros HD H.
  assert (P : 0 < 2 ^ (D - 1)) by (apply Z.pow_pos_nonneg; lia).
  rewrite Zdigits2_log2 by lia.
  rewrite (Z.log2_unique m (D - 1)); [lia|lia|].
  replace (Z.succ (D - 1)) with D by lia. exact H.
Qed.

Lemma pow2_pos k : 0 <= k -> 0 < 2 ^ k.
Proof. intro H. apply Z.pow_pos_nonneg; lia. Qed.

Lemma pow2_add a b : 0 <= a -> 0 <= b -> 2 ^ (a + b) = 2 ^ a * 2 ^ b.
Proof. intros. apply Z.pow_add_r; assumption. Qed.

Lemma pow2_lt_inv a b : 0 <= b -> 2 ^ a < 2 ^ b -> a < b.
Proof. intros Hb H. apply (Z.pow_lt_mono_r_iff 2); [lia|assumption|assumption]. Qed.

(** *** One rounding *)

Lemma fexp_eq E : fexp prec emax E = Z.max (E - 53) emin.
Proof. reflexivity. Qed.

(** What is left after the shift: the floor, and the location of the rest. *)
Lemma Rep_floor N d k mrs :
  0 < d -> 0 <= k -> Rep N d k mrs ->
  shr_m mrs * (2 ^ k * d) <= N < (shr_m mrs + 1) * (2 ^ k * d).
Proof.
  intros Hd Hk [Hm [low [Hlow [Heq Hs]]]].
  pose proof (pow2_pos k Hk). destruct (shr_r mrs); nia.
Qed.

Lemma Rep_round N d k mrs :
  0 < d -> 0 <= k -> Rep N d k mrs ->
  let m2 := round_nearest_even (shr_m mrs) (loc_of_shr_record mrs) in
  shr_m mrs <= m2 <= shr_m mrs + 1
  /\ 2 * Z.abs (m2 * (2 ^ k * d) - N) <= 2 ^ k * d.
Proof.
  intros Hd Hk [Hm [low [Hlow [Heq Hs]]]] m2. subst m2.
  pose proof (pow2_pos k Hk).
  destruct mrs as [m r s]. cbn [shr_m shr_r shr_s] in *.
  destruct r, s; cbn [loc_of_shr_record round_nearest_even].
  - split; [lia|]. nia.
  - assert (low = 0). { destruct (Z.lt_total 0 low) as [L|[L|L]]; [|lia|lia].
      apply Hs in L. discriminate. }
    destruct (Z.even m); split; try lia; nia.
  - split; [lia|]. nia.
  - assert (low = 0). { destruct (Z.lt_total 0 low) as [L|[L|L]]; [|lia|lia].
      apply Hs in L. discriminate. }
    split; [lia|]. nia.
Qed.

Lemma shr_nonpos mrs e n : n <= 0 -> shr mrs e n = (mrs, e).
Proof. destruct n; try reflexivity. lia. Qed.

Lemma record_of_loc_m m loc : shr_m (shr_record_of_loc m loc) = m.
Proof. destruct loc as [|[]]; reflexivity. Qed.

Lemma round_aux_spec s m e loc N d :
  0 < d -> 0 <= m -> Rep N d 0 (shr_record_of_loc m loc) ->
  let E := Zdigits2 m + e in
  let e1 := fexp prec emax E in
  e <= e1 ->
  exists m2,
    2 * Z.abs (m2 * (2 ^ (e1 - e) * d) - N) <= 2 ^ (e1 - e) * d
    /\ 0 <= m2 <= 2 ^ 53
    /\ emin <= e1
    /\ (2 ^ 52 <= m2 \/ e1 = emin /\ m2 < 2 ^ 52)
    /\ binary_round_aux prec emax s m e loc = finish s m2 e1.
Proof.
  intros Hd Hm H0 E e1 Hn.
  set (n := e1 - e). assert (Hn0 : 0 <= n) by (unfold n; lia).
  destruct (Rep_shr N d (shr_record_of_loc m loc) e n Hd H0) as [H1 He1].
  rewrite Z.max_r in H1, He1 by lia.
  replace (e + n) with e1 in He1 by (unfold n; lia).
  unfold binary_round_aux, shr_fexp. fold E. fold e1. fold n.
  destruct (shr (shr_record_of_loc m loc) e n) as [rec1 e1'].
  cbn [fst snd] in H1, He1. subst e1'.
  destruct (Rep_round N d n rec1 Hd Hn0 H1) as [Hm2 Herr].
  set (m2 := round_nearest_even (shr_m rec1) (loc_of_shr_record rec1)) in *.
  pose proof (Rep_floor N d n rec1 Hd Hn0 H1) as Hfl.
  pose proof (Rep_floor N d 0 _ Hd (Z.le_refl 0) H0) as Hfl0.
  rewrite record_of_loc_m in Hfl0. change (2 ^ 0) with 1 in Hfl0.
  destruct H1 as [Hm1 _]. set (m1 := shr_m rec1) in *.
  pose proof (pow2_pos n Hn0) as Pn.
  assert (Hm1m : m1 * 2 ^ n <= m < (m1 + 1) * 2 ^ n) by nia.
  assert (Hcases : (2 ^ 52 <= m1 < 2 ^ 53 /\ emin <= e1)
                   \/ (e1 = emin /\ m1 < 2 ^ 52)).
  { destruct (Z.eq_dec m 0) as [M0|M0].
    { right. subst m. cbn [Zdigits2] in E. unfold e1 in *.
      rewrite fexp_eq in *. unfold E in *. split; [lia|nia]. }
    assert (Hm' : 0 < m) by lia.
    destruct (Zdigits2_bounds m Hm') as [HD HDb].
    set (D := Zdigits2 m) in *.
    unfold e1. rewrite fexp_eq. unfold E.
    destruct (Z_le_gt_dec emin (D + e - 53)) as [Hnorm|Hsub].
    - left. rewrite Z.max_l by lia. split; [|lia].
      assert (En : n = D - 53).
      { unfold n, e1. rewrite fexp_eq. unfold E. fold D. lia. }
      assert (P1 : 2 ^ D = 2 ^ 53 * 2 ^ n).
      { rewrite <- pow2_add by lia. f_equal. lia. }
      assert (P2 : 2 ^ (D - 1) = 2 ^ 52 * 2 ^ n).
      { rewrite <- pow2_add by lia. f_equal. lia. }
      rewrite P1, P2 in HDb. split; nia.
    - right. rewrite Z.max_r by lia. split; [reflexivity|].
      assert (En : n = emin - e).
      { unfold n, e1. rewrite fexp_eq. unfold E. fold D. lia. }
      assert (P1 : 2 ^ D <= 2 ^ 52 * 2 ^ n).
      { rewrite <- pow2_add by lia. apply Z.pow_le_mono_r; lia. }
      nia. }
  exists m2. split; [exact Herr|].
  assert (R53 : 0 <= m2 <= 2 ^ 53) by (destruct Hcases as [[? ?]|[? ?]]; lia).
  split; [exact R53|].
  assert (He1min : emin <= e1) by (destruct Hcases as [[? ?]|[? ?]]; lia).
  split; [exact He1min|].
  split; [destruct (Z_le_gt_dec (2 ^ 52) m2); [left; lia|right];
          destruct Hcases as [[? ?]|[? ?]]; split; lia|].
  unfold finish.
  destruct (Z.eqb_spec m2 0) as [Z0|NZ].
  - rewrite Z0. cbn [Zdigits2]. rewrite shr_nonpos.
    + reflexivity.
    + rewrite fexp_eq. lia.
  - destruct (Z.ltb_spec m2 (2 ^ 53)) as [Lt|Ge].
    + assert (P2 : 0 < m2) by lia.
      destruct (Zdigits2_bounds m2 P2) as [HD2 HD2b].
      assert (D2 : Zdigits2 m2 <= 53).
      { destruct (Z_le_gt_dec (Zdigits2 m2) 53) as [L|G]; [exact L|].
        exfalso. assert (2 ^ 53 <= 2 ^ (Zdigits2 m2 - 1))
          by (apply Z.pow_le_mono_r; lia). lia. }
      rewrite shr_nonpos by (rewrite fexp_eq; lia).
      cbn [shr_record_of_loc shr_m].
      destruct m2 as [|p|p]; try lia. reflexivity.
    + assert (E53 : m2 = 2 ^ 53) by lia. rewrite E53.
      assert (Hnorm : 2 ^ 52 <= m1) by (destruct Hcases as [[? ?]|[? ?]]; lia).
      change (Zdigits2 (2 ^ 53)) with 54.
      replace (fexp prec emax (54 + e1) - e1) with 1
        by (rewrite fexp_eq; lia).
      reflexivity.
Qed.

(** Nothing is shifted out of an exact number with few bits. *)
Lemma round_aux_exact s m e :
  0 <= m -> fexp prec emax (Zdigits2 m + e) <= e ->
  binary_round_aux prec emax s m e loc_Exact
  = if m =? 0 then S754_zero s
    else if e <=? 971 then S754_finite s (Z.to_pos m) e else S754_infinity s.
Proof.
  intros Hm Hn. unfold binary_round_aux, shr_fexp.
  rewrite shr_nonpos by lia.
  cbn [shr_record_of_loc shr_m loc_of_shr_record round_nearest_even].
  rewrite shr_nonpos by lia. cbn [shr_record_of_loc shr_m].
  destruct m; try lia; reflexivity.
Qed.

End ShiftFacts.

Section RoundingFacts.
Import Double Rounding.
Local Open Scope Q_scope.

(** *** The relative error of one rounding *)

Lemma pow2_gt0 e : 0 < pow2 e.
Proof. apply Qpower_0_lt. reflexivity. Qed.

Lemma pow2_plus a b : pow2 (a + b) == pow2 a * pow2 b.
Proof. apply Qpower_plus. discriminate. Qed.

Lemma pow2_Z n : (0 <= n)%Z -> pow2 n == inject_Z (2 ^ n).
Proof. intro H. unfold pow2. rewrite Zpower_Qpower by exact H. reflexivity. Qed.

Lemma pow2_le a b : (a <= b)%Z -> pow2 a <= pow2 b.
Proof.
  intro H. replace b with (a + (b - a))%Z by lia. rewrite pow2_plus.
  rewrite (pow2_Z (b - a)) by lia.
  assert (1 <= inject_Z (2 ^ (b - a))).
  { change 1 with (inject_Z 1). rewrite <- Zle_Qle.
    pose proof (pow2_pos (b - a)). lia. }
  pose proof (pow2_gt0 a). nra.
Qed.

Lemma L_bounds : 0 < L /\ L <= 1.
Proof. split; reflexivity || discriminate. Qed.

Lemma Lpow_bounds k : 0 < Lpow k /\ Lpow k <= 1.
Proof.
  induction k as [|k [IH1 IH2]]; cbn [Lpow]; [split; reflexivity || discriminate|].
  destruct L_bounds. split; nra.
Qed.

(** An integer ratio and a mantissa that agree up to half a unit of the
    53rd bit. *)
Lemma approx1_of_Z (N d M : Z) (B : Q) :
  (0 < d)%Z -> 0 < B ->
  (2 ^ 53 * Z.abs (M * d - N) <= M * d)%Z ->
  approx 1 (inject_Z M * B) (inject_Z N / inject_Z d * B).
Proof.
  intros Hd HB H.
  assert (H1 : ((2 ^ 53 - 1) * N <= 2 ^ 53 * (M * d))%Z) by lia.
  assert (H2 : ((2 ^ 53 - 1) * (M * d) <= 2 ^ 53 * N)%Z) by lia.
  assert (Hdq : 0 < inject_Z d)
    by (change 0 with (inject_Z 0); rewrite <- Zlt_Qlt; exact Hd).
  rewrite Zle_Qle in H1, H2. rewrite !inject_Z_mult in H1, H2.
  set (y := inject_Z N / inject_Z d).
  assert (Hy : inject_Z N == y * inject_Z d)
    by (unfold y; field; intro E; rewrite E in Hdq; discriminate).
  rewrite Hy in H1, H2.
  set (dq := inject_Z d) in *. set (Mq := inject_Z M) in *.
  assert (K : inject_Z (2 ^ 53 - 1) == inject_Z (2 ^ 53) * L) by reflexivity.
  assert (K2 : 0 < inject_Z (2 ^ 53)) by reflexivity.
  rewrite K in H1, H2. set (c := inject_Z (2 ^ 53)) in *.
  unfold approx. cbn [Lpow]. destruct L_bounds as [L0 L1].
  assert (A1 : L * y <= Mq).
  { apply (Qmult_le_r _ _ (c * dq)); [nra|]. nra. }
  assert (A2 : L * Mq <= y).
  { apply (Qmult_le_r _ _ (c * dq)); [nra|]. nra. }
  split; nra.
Qed.

Lemma inject_Z_pos_lt (d : Z) : (0 < d)%Z -> 0 < inject_Z d.
Proof. intro H. change 0 with (inject_Z 0). rewrite <- Zlt_Qlt. exact H. Qed.

Lemma inject_Z_sub (x y : Z) : inject_Z (x - y) = inject_Z x - inject_Z y.
Proof.
  unfold Z.sub, Qminus. rewrite inject_Z_plus, inject_Z_opp. reflexivity.
Qed.

Lemma normal_spec m e :
  normal (S754_finite false m e) = true <-> pow2 (-1022) <= Qvalue false m e.
Proof. unfold normal. apply Qle_bool_iff. Qed.

Lemma Qvalue_pos m e : Qvalue false m e == inject_Z (Z.pos m) * pow2 e.
Proof. unfold Qvalue, pow2. ring. Qed.

Lemma approx_refl k x : 0 <= x -> approx k x x.
Proof. intro H. destruct (Lpow_bounds k). split; nra. Qed.

Lemma round_aux_approx m e loc N d :
  (0 < d)%Z -> (0 <= m)%Z -> Rep N d 0 (shr_record_of_loc m loc) ->
  (loc = loc_Exact \/ (e <= fexp prec emax (Zdigits2 m + e))%Z) ->
  let x := inject_Z N / inject_Z d * pow2 e in
  let r := binary_round_aux prec emax false m e loc in
  (pow2 (-1022) <= x \/ normal r = true) ->
  r <> S754_infinity false ->
  exists m3 e3, r = S754_finite false m3 e3
    /\ pow2 (-1022) <= Qvalue false m3 e3
    /\ approx 1 (Qvalue false m3 e3) x.
Proof.
  intros Hd Hm H0 Hcond x r Hnorm Hfin.
  pose proof (inject_Z_pos_lt d Hd) as Hdq.
  pose proof (pow2_gt0 e) as HB.
  set (y := inject_Z N / inject_Z d) in *.
  assert (Hy : inject_Z N == y * inject_Z d)
    by (unfold y; field; intro E; rewrite E in Hdq; discriminate).
  destruct (Z_le_gt_dec e (fexp prec emax (Zdigits2 m + e))) as [Hn|Hn].
  - (* some bits are shifted out *)
    destruct (round_aux_spec false m e loc N d Hd Hm H0 Hn)
      as [m2 [Herr [R53 [Hemin [Hc Hr]]]]].
    fold r in Hr.
    set (e1 := fexp prec emax (Zdigits2 m + e)) in *.
    set (n := (e1 - e)%Z) in *.
    assert (Hn0 : (0 <= n)%Z) by (unfold n; lia).
    pose proof (pow2_pos n Hn0) as Pn.
    assert (HAB : pow2 e1 == inject_Z (2 ^ n) * pow2 e).
    { replace e1 with (n + e)%Z by (unfold n; lia).
      rewrite pow2_plus, (pow2_Z n Hn0). reflexivity. }
    pose proof (inject_Z_pos_lt _ Pn) as HA.
    set (A := inject_Z (2 ^ n)) in *. set (B := pow2 e) in *.
    (* the bound, over the rationals *)
    assert (HerrQ : 2 * (inject_Z m2 * A - y) <= A
                    /\ - A <= 2 * (inject_Z m2 * A - y)).
    { assert (E1 : (2 * (m2 * (2 ^ n * d) - N) <= 2 ^ n * d)%Z) by lia.
      assert (E2 : (- (2 ^ n * d) <= 2 * (m2 * (2 ^ n * d) - N))%Z) by lia.
      rewrite Zle_Qle in E1, E2.
      repeat first [rewrite inject_Z_mult in E1 | rewrite inject_Z_sub in E1].
      repeat first [rewrite inject_Z_mult in E2 | rewrite inject_Z_sub in E2
                   | rewrite inject_Z_opp in E2].
      fold A in E1, E2.
      set (dq := inject_Z d) in *. set (Mq := inject_Z m2) in *.
      set (Nq := inject_Z N) in *.
      change (inject_Z 2) with 2 in *.
      split.
      - apply (Qmult_le_r _ _ dq); [exact Hdq|]. nra.
      - apply (Qmult_le_r _ _ dq); [exact Hdq|]. nra. }
    destruct HerrQ as [HQ1 HQ2].
    assert (Hmin : pow2 emin <= pow2 e1) by (apply pow2_le; exact Hemin).
    assert (Kmin : inject_Z (2 ^ 52) * pow2 emin == pow2 (-1022))
      by reflexivity.
    assert (Hsmall : (m2 < 2 ^ 52)%Z -> e1 = emin -> x < pow2 (-1022)).
    { intros Hlt He. unfold x. fold B.
      assert (Mq : inject_Z m2 <= inject_Z (2 ^ 52 - 1))
        by (rewrite <- Zle_Qle; lia).
      rewrite He in HAB. rewrite <- Kmin, HAB.
      change (inject_Z (2 ^ 52 - 1)) with (inject_Z (2 ^ 52) - 1) in Mq.
      set (c := inject_Z (2 ^ 52)) in *.
      assert (T1 : inject_Z m2 * A <= (c - 1) * A) by nra.
      assert (T2 : y < c * A) by nra.
      nra. }
    unfold finish in Hr.
    destruct (Z.eqb_spec m2 0) as [Z0|NZ].
    + exfalso. destruct Hnorm as [Hx|Hx]; [|rewrite Hr in Hx; discriminate].
      destruct Hc as [Hc|[Hc1 Hc2]]; [lia|].
      pose proof (Hsmall Hc2 Hc1). lra.
    + assert (Hm2 : (0 < m2)%Z) by lia.
      assert (Hv : exists m3 e3, r = S754_finite false m3 e3
                   /\ Qvalue false m3 e3 == inject_Z m2 * pow2 e1).
      { destruct (Z.ltb_spec m2 (2 ^ 53)) as [Lt|Ge].
        - destruct (e1 <=? 971)%Z; [|contradiction].
          exists (Z.to_pos m2), e1. split; [exact Hr|].
          rewrite Qvalue_pos, Z2Pos.id by exact Hm2. reflexivity.
        - destruct (e1 + 1 <=? 971)%Z; [|contradiction].
          exists (Z.to_pos (2 ^ 52)), (e1 + 1)%Z. split; [exact Hr|].
          rewrite Qvalue_pos. assert (E53 : m2 = (2 ^ 53)%Z) by lia.
          rewrite E53, Z.add_comm, pow2_plus.
          change (pow2 1) with 2.
          change (inject_Z (Z.pos (Z.to_pos (2 ^ 52)))) with (inject_Z (2 ^ 52)).
          change (inject_Z (2 ^ 53)) with (2 * inject_Z (2 ^ 52)). ring. }
      destruct Hv as [m3 [e3 [Er Ev]]]. exists m3, e3.
      split; [exact Er|].
      destruct Hc as [Hc|[Hc1 Hc2]].
      * assert (Mq : inject_Z (2 ^ 52) <= inject_Z m2)
          by (rewrite <- Zle_Qle; lia).
        split.
        -- rewrite Ev, <- Kmin.
           assert (Hc0 : 0 < inject_Z (2 ^ 52)) by reflexivity.
           set (c := inject_Z (2 ^ 52)) in *.
           pose proof (pow2_gt0 emin).
           assert (T1 : c * pow2 emin <= inject_Z m2 * pow2 emin) by nra.
           assert (T2 : inject_Z m2 * pow2 emin <= inject_Z m2 * pow2 e1)
             by nra.
           lra.
        -- assert (Z1 : (2 ^ 53 * Z.abs (m2 * 2 ^ n * d - N) <= m2 * 2 ^ n * d)%Z)
             by nia.
           pose proof (approx1_of_Z N d (m2 * 2 ^ n) B Hd HB Z1) as Ha.
           rewrite inject_Z_mult in Ha. fold A in Ha. fold y in Ha.
           unfold approx in *. cbn [Lpow] in *. rewrite Ev, HAB.
           unfold x. destruct Ha as [Ha1 Ha2]. split; lra.
      * exfalso. pose proof (Hsmall Hc2 Hc1) as Hs.
        destruct Hnorm as [Hx|Hx]; [lra|].
        rewrite Er in Hx. apply normal_spec in Hx. rewrite Ev in Hx.
        assert (Mq : inject_Z m2 <= inject_Z (2 ^ 52 - 1))
          by (rewrite <- Zle_Qle; lia).
        rewrite Hc1 in Hx. rewrite <- Kmin in Hx.
        change (inject_Z (2 ^ 52 - 1)) with (inject_Z (2 ^ 52) - 1) in Mq.
        set (c := inject_Z (2 ^ 52)) in *.
        pose proof (pow2_gt0 emin).
        assert (T1 : inject_Z m2 * pow2 emin <= (c - 1) * pow2 emin) by nra.
        lra.
  - (* nothing is shifted out *)
    destruct Hcond as [Hloc|Hc]; [subst loc|lia].
    assert (HN : N = (m * d)%Z).
    { destruct H0 as [_ [low [Hlow [Heq Hs]]]].
      cbn [shr_record_of_loc shr_m shr_r shr_s] in *.
      change (2 ^ 0)%Z with 1%Z in *.
      assert (low = 0%Z).
      { destruct (Z.lt_total 0 low) as [G|[G|G]]; [|lia|lia].
        apply Hs in G. discriminate. }
      lia. }
    assert (Hym : y == inject_Z m).
    { unfold y. rewrite HN, inject_Z_mult. field.
      intro E. rewrite E in Hdq. discriminate. }
    pose proof (round_aux_exact false m e Hm ltac:(lia)) as Hr. fold r in Hr.
    destruct (Z.eqb_spec m 0) as [Z0|NZ].
    + exfalso. destruct Hnorm as [Hx|Hx]; [|rewrite Hr in Hx; discriminate].
      unfold x in Hx. rewrite Hym, Z0 in Hx.
      pose proof (pow2_gt0 (-1022)). change (inject_Z 0) with 0 in Hx. lra.
    + destruct (e <=? 971)%Z; [|contradiction].
      exists (Z.to_pos m), e. split; [exact Hr|].
      assert (Ev : Qvalue false (Z.to_pos m) e == x).
      { rewrite Qvalue_pos, Z2Pos.id by lia. unfold x. rewrite Hym.
        reflexivity. }
      assert (Hx0 : 0 <= x).
      { unfold x. rewrite Hym.
        assert (0 <= inject_Z m)
          by (change 0 with (inject_Z 0); rewrite <- Zle_Qle; exact Hm).
        nra. }
      split.
      * destruct Hnorm as [Hx|Hx]; [rewrite Ev; exact Hx|].
        rewrite Hr in Hx. apply normal_spec in Hx. exact Hx.
      * pose proof (approx_refl 1 x Hx0) as Ha.
        unfold approx in *. rewrite Ev. exact Ha.
Qed.

(** *** The operations on positive doubles *)

Lemma Rep_exact (m : Z) : (0 <= m)%Z -> Rep m 1 0 (shr_record_of_loc m loc_Exact).
Proof.
  intro H. split; [exact H|]. exists 0%Z. cbn [shr_record_of_loc shr_m shr_r shr_s].
  change (2 ^ 0)%Z with 1%Z. split; [lia|]. split; [lia|].
  split; [discriminate|lia].
Qed.

Lemma normal_positive x :
  normal x = true -> exists m e, x = S754_finite false m e.
Proof.
  destruct x as [| | |[] m e]; try discriminate. intros _. exists m, e. reflexivity.
Qed.

Lemma normal_qv x : normal x = true -> pow2 (-1022) <= qv x.
Proof.
  intro H. destruct (normal_positive x H) as [m [e ->]].
  apply normal_spec. exact H.
Qed.

Lemma round_exact_approx (m : positive) (e : Z) (x : Q) :
  x == inject_Z (Z.pos m) * pow2 e ->
  let r := binary_round_aux prec emax false (Z.pos m) e loc_Exact in
  (pow2 (-1022) <= x \/ normal r = true) ->
  r <> S754_infinity false ->
  rounds_to r x.
Proof.
  intros Hx r Hn Hf.
  assert (Hx' : x == inject_Z (Z.pos m) / inject_Z 1 * pow2 e)
    by (rewrite Hx; field).
  pose proof (round_aux_approx (Z.pos m) e loc_Exact (Z.pos m) 1
                ltac:(lia) ltac:(lia) (Rep_exact (Z.pos m) ltac:(lia))
                (or_introl eq_refl)) as H.
  cbv zeta in H. fold r in H.
  destruct H as [m3 [e3 [Er [Hv Ha]]]].
  - destruct Hn as [Hn|Hn]; [left; rewrite <- Hx'; exact Hn|right; exact Hn].
  - exact Hf.
  - unfold rounds_to. rewrite Er. split.
    + apply normal_spec. exact Hv.
    + cbn [qv]. unfold approx in *. rewrite Hx'. exact Ha.
Qed.

Lemma mul_approx mx ex my ey :
  let x := S754_finite false mx ex in
  let y := S754_finite false my ey in
  (pow2 (-1022) <= qv x * qv y \/ normal (mul x y) = true) ->
  mul x y <> S754_infinity false ->
  rounds_to (mul x y) (qv x * qv y).
Proof.
  intros x y. apply round_exact_approx.
  unfold x, y. cbn [qv]. rewrite !Qvalue_pos, pow2_plus, Pos2Z.inj_mul, inject_Z_mult. ring.
Qed.

(** Aligning a mantissa to a smaller exponent keeps the value. *)
Lemma shl_align_value m e e' :
  inject_Z (Z.pos (fst (shl_align m e e'))) * pow2 (snd (shl_align m e e'))
  == inject_Z (Z.pos m) * pow2 e.
Proof.
  unfold shl_align. destruct (e' - e)%Z as [|p|p] eqn:E; cbn [fst snd];
    try reflexivity.
  rewrite Zpos_iter, inject_Z_mult.
  replace e with (Z.pos p + e')%Z by lia.
  rewrite pow2_plus, (pow2_Z (Z.pos p)) by lia. ring.
Qed.

Lemma add_approx mx ex my ey :
  let x := S754_finite false mx ex in
  let y := S754_finite false my ey in
  (pow2 (-1022) <= qv x + qv y \/ normal (add x y) = true) ->
  add x y <> S754_infinity false ->
  rounds_to (add x y) (qv x + qv y).
Proof.
  intros x y. unfold add, x, y. cbn [SFadd cond_Zopp].
  set (ez := Z.min ex ey).
  set (ax := shl_align mx ex ez). set (ay := shl_align my ey ez).
  change (Z.pos (fst ax) + Z.pos (fst ay))%Z with (Z.pos (fst ax + fst ay)).
  cbn [binary_normalize]. unfold binary_round.
  set (m := (fst ax + fst ay)%positive).
  pose proof (shl_align_value m ez (fexp prec emax (Z.pos (digits2_pos m) + ez)))
    as Hv.
  destruct (shl_align m ez (fexp prec emax (Z.pos (digits2_pos m) + ez)))
    as [mz ez'].
  cbn [fst snd] in Hv.
  apply round_exact_approx. rewrite Hv. unfold m.
  rewrite Pos2Z.inj_add, inject_Z_plus.
  pose proof (shl_align_value mx ex ez) as Hx.
  pose proof (shl_align_value my ey ez) as Hy.
  fold ax in Hx. fold ay in Hy.
  assert (Sx : snd ax = ez).
  { unfold ax, shl_align. destruct (ez - ex)%Z eqn:E; cbn [snd]; unfold ez in *; lia. }
  assert (Sy : snd ay = ez).
  { unfold ay, shl_align. destruct (ez - ey)%Z eqn:E; cbn [snd]; unfold ez in *; lia. }
  rewrite Sx in Hx. rewrite Sy in Hy.
  cbn [qv]. rewrite !Qvalue_pos, <- Hx, <- Hy. ring.
Qed.

(** The location of a remainder. *)
Lemma Rep_new_location (N d q r : Z) :
  (0 < d)%Z -> (0 <= q)%Z -> (0 <= r < d)%Z -> N = (d * q + r)%Z ->
  Rep N d 0 (shr_record_of_loc q (new_location d r)).
Proof.
  intros Hd Hq Hr HN. split; [rewrite record_of_loc_m; exact Hq|].
  change (2 ^ 0)%Z with 1%Z.
  unfold new_location, new_location_even, new_location_odd.
  destruct (Z.even d) eqn:Ev.
  - destruct (Z.eqb_spec r 0) as [R0|R0].
    + exists 0%Z. cbn [shr_record_of_loc shr_m shr_r shr_s].
      split; [lia|]. split; [lia|]. split; [discriminate|lia].
    + destruct (Z.compare_spec (2 * r) d) as [C|C|C];
        cbn [shr_record_of_loc shr_m shr_r shr_s].
      * exists 0%Z. split; [lia|]. split; [lia|]. split; [discriminate|lia].
      * exists (2 * r)%Z. split; [lia|]. split; [lia|]. split; [lia|reflexivity].
      * exists (2 * r - d)%Z. split; [lia|]. split; [lia|].
        split; [lia|reflexivity].
  - assert (Hodd : (2 * r <> d)%Z).
    { intro E. rewrite <- E, Z.even_mul in Ev. discriminate. }
    destruct (Z.eqb_spec r 0) as [R0|R0].
    + exists 0%Z. cbn [shr_record_of_loc shr_m shr_r shr_s].
      split; [lia|]. split; [lia|]. split; [discriminate|lia].
    + destruct (Z.compare_spec (2 * r + 1) d) as [C|C|C];
        cbn [shr_record_of_loc shr_m shr_r shr_s].
      * exists (2 * r)%Z. split; [lia|]. split; [lia|]. split; [lia|reflexivity].
      * exists (2 * r)%Z. split; [lia|]. split; [lia|]. split; [lia|reflexivity].
      * exists (2 * r - d)%Z. split; [lia|]. split; [lia|].
        split; [lia|reflexivity].
Qed.

Lemma Zdigits2_ge (q t : Z) :
  (0 < q)%Z -> (2 ^ (t - 1) <= q)%Z -> (t <= Zdigits2 q)%Z.
Proof.
  intros Hq H. rewrite (Zdigits2_log2 q Hq).
  destruct (Z_le_gt_dec t 0) as [T|T].
  - pose proof (Z.log2_nonneg q). lia.
  - assert (t - 1 <= Z.log2 q)%Z by (apply Z.log2_le_pow2; [exact Hq|exact H]).
    lia.
Qed.

Lemma div_core_spec (mx : positive) (ex : Z) (my : positive) (ey : Z) :
  exists q e' l N,
    SFdiv_core_binary prec emax (Z.pos mx) ex (Z.pos my) ey = (q, e', l)
    /\ (0 <= q)%Z
    /\ Rep N (Z.pos my) 0 (shr_record_of_loc q l)
    /\ (e' <= fexp prec emax (Zdigits2 q + e'))%Z
    /\ inject_Z N / inject_Z (Z.pos my) * pow2 e'
       == (inject_Z (Z.pos mx) * pow2 ex) / (inject_Z (Z.pos my) * pow2 ey).
Proof.
  unfold SFdiv_core_binary.
  set (d1 := Zdigits2 (Z.pos mx)). set (d2 := Zdigits2 (Z.pos my)).
  set (E0 := (d1 + ex - (d2 + ey))%Z).
  set (e' := Z.min (fexp prec emax E0) (ex - ey)).
  set (s := (ex - ey - e')%Z).
  assert (Hs : (0 <= s)%Z) by (unfold s, e'; lia).
  set (m' := match s with
             | 0%Z => Z.pos mx
             | Z.pos _ => Z.shiftl (Z.pos mx) s
             | Z.neg _ => 0%Z
             end).
  assert (Hm' : m' = (Z.pos mx * 2 ^ s)%Z).
  { unfold m'. destruct s as [|p|p] eqn:Es; [cbn; lia| |lia].
    rewrite Z.shiftl_mul_pow2 by lia. reflexivity. }
  pose proof (Z_div_mod m' (Z.pos my) ltac:(lia)) as Hdiv.
  destruct (Z.div_eucl m' (Z.pos my)) as [q r].
  destruct Hdiv as [Hqr Hr].
  pose proof (pow2_pos s Hs) as Ps.
  assert (Hq : (0 <= q)%Z) by nia.
  exists q, e', (new_location (Z.pos my) r), m'.
  split; [reflexivity|]. split; [exact Hq|].
  split; [apply Rep_new_location; [lia|exact Hq|exact Hr|exact Hqr]|].
  destruct (Zdigits2_bounds (Z.pos mx) ltac:(lia)) as [D1 B1].
  destruct (Zdigits2_bounds (Z.pos my) ltac:(lia)) as [D2 B2].
  fold d1 in D1, B1. fold d2 in D2, B2.
  split.
  - (* enough bits in the quotient *)
    set (t := (d1 + s - d2)%Z).
    assert (Et : t = (E0 - e')%Z) by (unfold t, s, E0; lia).
    assert (Hfe : (e' <= fexp prec emax E0)%Z) by (unfold e'; lia).
    rewrite fexp_eq in Hfe |- *.
    destruct (Z.eq_dec q 0) as [Q0|Q0].
    + subst q. cbn [Zdigits2].
      assert (m' < Z.pos my)%Z by lia.
      assert (Ht : (t <= 0)%Z).
      { destruct (Z_le_gt_dec t 0) as [T|T]; [exact T|exfalso].
        assert (2 ^ d2 <= 2 ^ (d1 - 1 + s))%Z
          by (apply Z.pow_le_mono_r; lia).
        assert (2 ^ (d1 - 1 + s) = 2 ^ (d1 - 1) * 2 ^ s)%Z
          by (apply pow2_add; lia).
        nia. }
      lia.
    + assert (Hq0 : (0 < q)%Z) by lia.
      assert (Ht : (t <= Zdigits2 q)%Z).
      { destruct (Z_le_gt_dec t 0) as [T|T].
        - destruct (Zdigits2_bounds q Hq0). lia.
        - apply Zdigits2_ge; [exact Hq0|].
          assert (P1 : (2 ^ (d1 - 1 + s) = 2 ^ (t - 1) * 2 ^ d2)%Z).
          { rewrite <- pow2_add by lia. f_equal. unfold t. lia. }
          assert (P2 : (2 ^ (d1 - 1 + s) = 2 ^ (d1 - 1) * 2 ^ s)%Z)
            by (apply pow2_add; lia).
          pose proof (pow2_pos (t - 1) ltac:(lia)).
          nia. }
      lia.
  - rewrite Hm', inject_Z_mult, <- (pow2_Z s Hs).
    replace ex with (s + e' + ey)%Z by (unfold s; lia).
    rewrite !pow2_plus.
    pose proof (pow2_gt0 ey). pose proof (inject_Z_pos_lt (Z.pos my) ltac:(lia)).
    field. split; intro E; [rewrite E in H|rewrite E in H0]; discriminate.
Qed.

Lemma div_approx mx ex my ey :
  let x := S754_finite false mx ex in
  let y := S754_finite false my ey in
  (pow2 (-1022) <= qv x / qv y \/ normal (div x y) = true) ->
  div x y <> S754_infinity false ->
  rounds_to (div x y) (qv x / qv y).
Proof.
  intros x y. unfold div, x, y. cbn [SFdiv xorb].
  destruct (div_core_spec mx ex my ey) as [q [e' [l [N [Ec [Hq [HR [Hd Hv]]]]]]]].
  rewrite Ec. cbn [qv]. rewrite <- !Qvalue_pos in Hv.
  intros Hn Hf.
  pose proof (round_aux_approx q e' l N (Z.pos my) ltac:(lia) Hq HR
                (or_intror Hd)) as H.
  cbv zeta in H.
  destruct H as [m3 [e3 [Er [Hv3 Ha]]]].
  - destruct Hn as [Hn|Hn]; [left; rewrite Hv; exact Hn|right; exact Hn].
  - exact Hf.
  - unfold rounds_to. rewrite Er. split.
    + apply normal_spec. exact Hv3.
    + cbn [qv]. unfold approx in *. rewrite <- Hv. exact Ha.
Qed.

(** *** Composing roundings *)

Lemma Lpow_add j k : Lpow (j + k) == Lpow j * Lpow k.
Proof.
  induction j as [|j IH]; cbn [Lpow Nat.add]; [ring|]. rewrite IH. ring.
Qed.

Lemma approx_sym k a b : approx k a b -> approx k b a.
Proof. intros [H1 H2]. split; assumption. Qed.

Lemma approx_trans j k a b c :
  approx j a b -> approx k b c -> approx (j + k) a c.
Proof.
  intros [H1 H2] [H3 H4]. unfold approx. rewrite Lpow_add.
  destruct (Lpow_bounds j) as [J0 J1]. destruct (Lpow_bounds k) as [K0 K1].
  split.
  - assert (Lpow j * (Lpow k * c) <= Lpow j * b) by nra. lra.
  - assert (Lpow k * (Lpow j * a) <= Lpow k * b) by nra. lra.
Qed.

Lemma approx_weaken j k a b :
  (j <= k)%nat -> 0 <= a -> 0 <= b -> approx j a b -> approx k a b.
Proof.
  intros Hjk Ha Hb H. replace k with ((k - j) + j)%nat by lia.
  apply (approx_trans (k - j) j a a b); [apply approx_refl; exact Ha|exact H].
Qed.

Lemma approx_add k a b c d :
  approx k a b -> approx k c d -> approx k (a + c) (b + d).
Proof. intros [H1 H2] [H3 H4]. split; lra. Qed.

Lemma approx_scale k c a b : 0 <= c -> approx k a b -> approx k (c * a) (c * b).
Proof. intros Hc [H1 H2]. split; nra. Qed.

Lemma approx_mul j k a b c d :
  0 <= a -> 0 <= b -> 0 <= c -> 0 <= d ->
  approx j a b -> approx k c d -> approx (j + k) (a * c) (b * d).
Proof.
  intros Ha Hb Hc Hd [H1 H2] [H3 H4]. unfold approx. rewrite Lpow_add.
  destruct (Lpow_bounds j) as [J0 J1]. destruct (Lpow_bounds k) as [K0 K1].
  split.
  - assert (0 <= Lpow j * b) by nra. assert (0 <= Lpow k * d) by nra.
    assert ((Lpow j * b) * (Lpow k * d) <= a * c) by nra. lra.
  - assert (0 <= Lpow j * a) by nra. assert (0 <= Lpow k * c) by nra.
    assert ((Lpow j * a) * (Lpow k * c) <= b * d) by nra. lra.
Qed.

(** *** Sums of positive doubles *)

Lemma qv_nonneg x : normal x = true -> 0 < qv x.
Proof.
  intro H. pose proof (normal_qv x H). pose proof (pow2_gt0 (-1022)). lra.
Qed.


Lemma fold_add_infinity xs :
  all_normal xs ->
  fold_left add xs (S754_infinity false) = S754_infinity false.
Proof.
  induction 1 as [|x xs Hx _ IH]; [reflexivity|].
  cbn [fold_left]. destruct (normal_positive x Hx) as [m [e ->]]. exact IH.
Qed.

Lemma fold_add_approx xs : forall acc A k,
  all_normal xs -> normal acc = true -> 0 <= A -> approx k (qv acc) A ->
  fold_left add xs acc <> S754_infinity false ->
  normal (fold_left add xs acc) = true
  /\ approx (k + List.length xs) (qv (fold_left add xs acc)) (A + qsum xs).
Proof.
  induction xs as [|x xs IH]; intros acc A k Hxs Hacc HA Hap Hfin.
  - cbn [fold_left List.length qsum fold_right]. split; [exact Hacc|].
    rewrite Nat.add_0_r. unfold approx in *. destruct Hap. split; lra.
  - cbn [fold_left] in *. inversion Hxs as [|x' xs' Hx Hxs']; subst.
    destruct (normal_positive acc Hacc) as [ma [ea Ea]].
    destruct (normal_positive x Hx) as [mx [ex Ex]].
    pose proof (normal_qv acc Hacc) as Qa. pose proof (qv_nonneg x Hx) as Qx.
    assert (Hstep : rounds_to (add acc x) (qv acc + qv x)).
    { rewrite Ea, Ex. apply add_approx.
      - left. rewrite <- Ea, <- Ex. lra.
      - rewrite <- Ea, <- Ex. intro E. rewrite E in Hfin.
        rewrite fold_add_infinity in Hfin by exact Hxs'. contradiction. }
    destruct Hstep as [Hn Ha].
    assert (Hap' : approx (1 + k) (qv (add acc x)) (A + qv x)).
    { apply (approx_trans 1 k _ (qv acc + qv x)); [exact Ha|].
      apply approx_add; [exact Hap|apply approx_refl; lra]. }
    destruct (IH (add acc x) (A + qv x) (1 + k)%nat Hxs' Hn ltac:(lra) Hap' Hfin)
      as [Hn' Ha'].
    split; [exact Hn'|].
    cbn [List.length qsum fold_right]. fold (qsum xs).
    replace (k + S (List.length xs))%nat with (1 + k + List.length xs)%nat by lia.
    unfold approx in *. destruct Ha'. split; lra.
Qed.

Lemma sum_approx xs :
  xs <> [] -> all_normal xs -> SeriesSpec.sum xs <> S754_infinity false ->
  normal (SeriesSpec.sum xs) = true
  /\ approx (List.length xs - 1) (qv (SeriesSpec.sum xs)) (qsum xs).
Proof.
  intros Hne Hxs Hfin. destruct xs as [|x xs]; [contradiction|].
  inversion Hxs as [|x' xs' Hx Hxs']; subst.
  destruct (normal_positive x Hx) as [mx [ex Ex]].
  unfold SeriesSpec.sum in *. change (of_Z 0) with (S754_zero false) in *.
  cbn [fold_left] in *.
  assert (E0 : add (S754_zero false) x = x) by (rewrite Ex; reflexivity).
  rewrite E0 in *.
  pose proof (qv_nonneg x Hx) as Qx.
  destruct (fold_add_approx xs x (qv x) 0 Hxs' Hx ltac:(lra)
              (approx_refl 0 (qv x) ltac:(lra)) Hfin) as [Hn Ha].
  split; [exact Hn|].
  cbn [List.length qsum fold_right]. fold (qsum xs).
  replace (S (List.length xs) - 1)%nat with (0 + List.length xs)%nat by lia.
  exact Ha.
Qed.

End RoundingFacts.

(** ** The series network *)

Section SeriesFacts.
Import Double DoubleSpec DoubleApp Rounding SeriesSpec.
Import Types(Series) App(InputType, voltage, current).
Local Open Scope double_scope.

Lemma reduce_sum_map {A : Type} (g : A -> double) (xs : list A) :
  reduce_sum g xs = sum (map g xs).
Proof.
  unfold reduce_sum, sum. generalize (of_Z 0).
  induction xs as [|x xs IH]; intro acc; [reflexivity|apply IH].
Qed.

Lemma withActual_snd (rs : list Resistor) :
  map snd (withActual rs) = map actual rs.
Proof. unfold withActual. rewrite map_map. reflexivity. Qed.

Lemma withActual_fst (rs : list Resistor) :
  map fst (withActual rs) = rs.
Proof. unfold withActual. rewrite map_map. apply map_id. Qed.



(** The rows of a series result. *)
Lemma series_rows (k : InputType) (src : double) (rs : list Resistor) :
  let res := results Series k src rs in
  calculatedResistors res
  = map (fun r => mkCalculated r (actual r) (totalCurrent res * actual r)
                    (totalCurrent res)
                    (totalCurrent res * totalCurrent res * actual r)
                    (if totalVoltage res >? of_Z 0
                     then totalCurrent res * actual r / totalVoltage res
                          * of_Z 100
                     else of_Z 0))
        rs.
Proof.
  destruct k; cbn [results calculatedResistors totalCurrent totalVoltage];
    unfold withActual; rewrite map_map; reflexivity.
Qed.

(** *** The sum of the drops, up to rounding *)

Lemma normal_gt0 x : normal x = true -> (x >? of_Z 0) = true.
Proof.
  intro H. destruct (normal_positive x H) as [m [e ->]]. reflexivity.
Qed.

Lemma normal_not_infinity x : normal x = true -> x <> S754_infinity false.
Proof. intros H E. rewrite E in H. discriminate. Qed.

Lemma finite_not_infinity x : is_finite x = true -> x <> S754_infinity false.
Proof. intros H E. rewrite E in H. discriminate. Qed.



(** The drops of the rows add up to the current times the resistances, up
    to the rounding of each product. *)
Lemma qsum_drops (I : double) (Rs : list double) :
  normal I = true -> all_normal Rs ->
  all_normal (map (fun R => I * R) Rs) ->
  approx 1 (qsum (map (fun R => I * R) Rs)) (qv I * qsum Rs).
Proof.
  intros HI HRs. induction HRs as [|R Rs HR _ IH]; intro Hd.
  - cbn [map qsum fold_right]. unfold approx. cbn [Lpow]. split; lra.
  - cbn [map] in Hd. inversion Hd as [|d ds Hd1 Hd2]; subst.
    cbn [map qsum fold_right]. fold (qsum Rs).
    fold (qsum (map (fun R => I * R) Rs)).
    destruct (normal_positive I HI) as [mi [ei Ei]].
    destruct (normal_positive R HR) as [mr [er Er]].
    assert (H1 : rounds_to (I * R) (qv I * qv R)).
    { rewrite Ei, Er. apply mul_approx.
      - right. rewrite <- Ei, <- Er. exact Hd1.
      - rewrite <- Ei, <- Er. apply normal_not_infinity. exact Hd1. }
    destruct H1 as [_ H1]. specialize (IH Hd2).
    pose proof (approx_add 1 _ _ _ _ H1 IH) as H.
    unfold approx in *. destruct H. split; lra.
Qed.

Lemma all_normal_map {A : Type} (g : A -> double) (xs : list A) :
  Forall (fun x => normal (g x) = true) xs -> all_normal (map g xs).
Proof.
  intro H. unfold all_normal. rewrite Forall_map. exact H.
Qed.





End SeriesFacts.

(** * The properties at concrete inputs *)

Section Instances.
Import Types App.
Local Open Scope js_scope.


Lemma formatNumber_exponent_notation_witness :
  ExponentSpec.extreme 123456
  /\ ExponentSpec.shows_exponent 3 123456 (formatNumber (Fin 123456)).
Proof.
  assert (H : ExponentSpec.extreme 123456)
    by (split; [discriminate|right; reflexivity]).
  split; [exact H|].
  exact (proj2 (formatNumber_exponent_notation 123456 H)).
Defined.

(** Add a third row, then try to remove all three. *)
Lemma resistor_list_never_empty_witness :
  let ops := [ListEdits.Add "c"; ListEdits.Remove "a"; ListEdits.Remove "b";
              ListEdits.Remove "c"] in
  "a"%string <> "b"%string
  /\ ListEdits.fresh_ids ops (initialResistors "a" "b")
  /\ ListEdits.run ops (initialResistors "a" "b") <> [].
Proof.
  intro ops.
  assert (H1 : "a"%string <> "b"%string) by discriminate.
  assert (H2 : ListEdits.fresh_ids ops (initialResistors "a" "b")).
  { simpl. repeat split. intros [H|[H|[]]]; discriminate. }
  split; [exact H1|]. split; [exact H2|].
  exact (proj1 (resistor_list_never_empty "a" "b" ops H1 H2)).
Defined.

(** Vin = 5 and Vout = 5 with Rb = 100: the run reports that Vin must
    differ from Vout and leaves the boxes as they were. *)
Lemma divider_error_atomic_witness :
  let st := VoltageDivider.mkState
              (VoltageDivider.mkDivider (num 5) NaN (num 100) (num 5))
              None None in
  VoltageDivider.error (VoltageDivider.calculate st)
  = Some VoltageDivider.VinNearVout
  /\ VoltageDivider.values (VoltageDivider.calculate st)
     = VoltageDivider.values st.
Proof.
  intro st.
  assert (H : VoltageDivider.error (VoltageDivider.calculate st)
              = Some VoltageDivider.VinNearVout) by reflexivity.
  split; [exact H|].
  destruct (proj2 (proj2 (divider_error_atomic st))
              VoltageDivider.VinNearVout H) as [_ [Hv _]];
    [discriminate|exact Hv].
Defined.

(** ** Worked examples of the design document *)

(** Vin = 9, Ra = 1000, Rb = 2000 gives Vout = 6. *)
Example divider_example :
  let st := VoltageDivider.calculate
              (VoltageDivider.mkState
                 (VoltageDivider.mkDivider (num 9) (num 1000) (num 2000) NaN)
                 None None) in
  (VoltageDivider.vout (VoltageDivider.values st) === num 6) = true
  /\ VoltageDivider.calculatedField st = Some VoltageDivider.Fvout
  /\ VoltageDivider.error st = None.
Proof. repeat split. Qed.

(** The texts of the unit formatter. *)
Example formatUnit_examples :
  formatUnit (num 300) "Ω" = "300 Ω"%string
  /\ formatUnit (Fin (1 # 30)) "A" = "33.333 mA"%string
  /\ formatUnit (num 1500000) "Ω" = "1.5 MΩ"%string
  /\ formatUnit (Fin (47 # 10000000)) "A" = "4.7 µA"%string
  /\ formatUnit (num 0) "V" = "0 V"%string.
Proof. repeat split. Qed.

End Instances.

(** ** In double precision *)

Section DoubleInstances.
Import Double DoubleSpec.
Local Open Scope double_scope.

(** The empty form of the filter is refused. *)
Lemma filter_refuses_fewer_than_two_witness :
  FilterSpec.units_finite DoubleRCCalculator.initial
  /\ FilterSpec.fails_with RCCalculator.NeedTwo DoubleRCCalculator.initial.
Proof.
  assert (H : FilterSpec.units_finite DoubleRCCalculator.initial)
    by (repeat split).
  split; [exact H|].
  apply (proj1 (filter_refuses_fewer_than_two DoubleRCCalculator.initial H)).
  vm_compute. lia.
Defined.


(** The default charging form: Vin = 5 V, R = 10 kOhm, C = 100 uF, target
    3.16 V; the time is one time constant, 999.672 ms. *)
Lemma delay_time_from_target_witness :
  let st := DoubleRCCalculator.initial in
  let st' := DoubleRCCalculator.calculateDelay
               DoubleIdeal.Math_log DoubleIdeal.Math_exp st in
  DoubleRCCalculator.error st' = None
  /\ DoubleRCCalculator.delayValues st'
     = DoubleRCCalculator.mkDelay (of_Z 5) (nearest (316 # 100))
         (of_Z 10) (of_Z 1000) (of_Z 100) (nearest (1 # 1000000))
         (nearest (999672 # 1000)) (nearest (1 # 1000)).
Proof.
  intros st st'.
  assert (HR : (DoubleRCCalculator.dr (DoubleRCCalculator.delayValues st)
                * DoubleRCCalculator.drUnit (DoubleRCCalculator.delayValues st)
                >? of_Z 0) = true) by (vm_compute; reflexivity).
  assert (HC : (DoubleRCCalculator.dc (DoubleRCCalculator.delayValues st)
                * DoubleRCCalculator.dcUnit (DoubleRCCalculator.delayValues st)
                >? of_Z 0) = true) by (vm_compute; reflexivity).
  assert (Ha : (DoubleRCCalculator.vtarget (DoubleRCCalculator.delayValues st)
                >=? DoubleRCCalculator.vin (DoubleRCCalculator.delayValues st))
               = false) by (vm_compute; reflexivity).
  assert (Hb : (DoubleRCCalculator.vtarget (DoubleRCCalculator.delayValues st)
                <=? of_Z 0) = false) by (vm_compute; reflexivity).
  destruct (proj2 (delay_time_from_target DoubleIdeal.Math_log
                     DoubleIdeal.Math_exp st eq_refl HR HC eq_refl eq_refl)
                  (conj Ha Hb)) as [_ [He _]].
  split; [exact He|]. vm_compute. reflexivity.
Defined.

(** V = 10 and I = -0: the R box receives -Infinity. *)
Lemma ohms_zero_current_unguarded_witness :
  let st := OhmsSpec.given_VI (of_Z 10) (S754_zero true) in
  let st' := DoubleOhmsLawCalculator.calculate DoubleIdeal.Math_sqrt st in
  OhmsSpec.only_VI st
  /\ (DoubleOhmsLawCalculator.i (DoubleOhmsLawCalculator.values st)
      === of_Z 0) = true
  /\ DoubleOhmsLawCalculator.error st' = None
  /\ DoubleOhmsLawCalculator.r (DoubleOhmsLawCalculator.values st')
     = S754_infinity true.
Proof.
  intros st st'.
  assert (H1 : OhmsSpec.only_VI st) by (repeat split).
  assert (H2 : (DoubleOhmsLawCalculator.i (DoubleOhmsLawCalculator.values st)
                === of_Z 0) = true) by reflexivity.
  split; [exact H1|]. split; [exact H2|].
  destruct (ohms_zero_current_unguarded DoubleIdeal.Math_sqrt st H1 H2)
    as [He [_ [_ [_ [Hinf _]]]]].
  split; [exact He|]. apply Hinf. reflexivity.
Defined.

(** The battery examples: the form as it opens, and 90 mAh at 9 mA with an
    efficiency of 0.7, where the hours come out just below 7 and the minutes
    are rounded up to 60. *)
Example battery_examples (shortest : double -> string) :
  BatteryLifeCalculator.result
    (BatteryLifeCalculator.calculate shortest BatteryLifeCalculator.initial)
  = Some "17 小时 0 分钟 (17.0 hours)"%string
  /\ BatteryLifeCalculator.result
       (BatteryLifeCalculator.calculate shortest
          (BatteryLifeCalculator.mkState (of_Z 90) (of_Z 9)
             (nearest (7 # 10)) None))
     = Some "6 小时 60 分钟 (7.0 hours)"%string
  /\ BatteryLifeCalculator.result
       (BatteryLifeCalculator.calculate shortest
          (BatteryLifeCalculator.mkState (of_Z 100) (of_Z 100)
             (nearest (85 # 100)) None))
     = Some "51 分钟 (0.8 hours)"%string.
Proof. repeat split; vm_compute; reflexivity. Qed.

(** The series network: the initial list (100 ohm and 200 ohm) on 10 V is a
    well scaled run, and its drops sum to 10 V exactly; a row of
    1e308 Mohm is not, its resistance overflows. *)
Example series_examples :
  let res := DoubleApp.results Types.Series App.voltage (of_Z 10)
               (DoubleApp.initialResistors "a" "b") in
  SeriesSpec.well_scaled (of_Z 10) (DoubleApp.initialResistors "a" "b")
  /\ DoubleApp.totalCurrent res = nearest (1 # 30)
  /\ SeriesSpec.drops res = [nearest (10 # 3); nearest (20 # 3)]
  /\ SeriesSpec.sum (SeriesSpec.drops res) = of_Z 10
  /\ SeriesSpec.drops
       (DoubleApp.results Types.Series App.voltage (of_Z 10)
          [DoubleApp.mkResistor "a" (nearest (10 ^ 308)) Types.MOhm])
     = [S754_nan].
Proof.
  split.
  - split; [discriminate|].
    repeat split; try (vm_compute; reflexivity);
      repeat constructor; vm_compute; reflexivity.
  - repeat split; vm_compute; reflexivity.
Qed.

End DoubleInstances.

(** * Further properties of the solvers *)

(** ** Editing the resistor list *)

Section ListMoreFacts.
Import Types App ListEdits.

Lemma filter_id_absent rid rs :
  ~ In rid (ids rs) ->
  filter (fun r => negb (String.eqb (id r) rid)) rs = rs.
Proof.
  intro H. apply forallb_filter_id. apply forallb_forall. intros x Hx.
  apply negb_true_iff. apply String.eqb_neq. intro Heq. apply H.
  unfold ids. apply in_map_iff. exists x. split; assumption.
Qed.

Lemma filter_id_present rid rs :
  NoDup (ids rs) -> In rid (ids rs) ->
  S (List.length (filter (fun r => negb (String.eqb (id r) rid)) rs))
  = List.length rs.
Proof.
  induction rs as [|r rs IH]; simpl; intros Hnd Hin; [destruct Hin|].
  inversion Hnd as [|? ? Hnot Hrest]; subst.
  destruct (String.eqb (id r) rid) eqn:E; simpl.
  - apply String.eqb_eq in E. subst rid.
    rewrite (filter_id_absent (id r) rs Hnot). reflexivity.
  - apply String.eqb_neq in E. destruct Hin as [Hin|Hin]; [contradiction|].
    rewrite (IH Hrest Hin). reflexivity.
Qed.

(** X6. With unique identifiers, [removeResistor] on a list of at least two
    rows removes exactly the row that carries the identifier: the list gets
    one row shorter, the identifier is gone, and the other rows stay, in
    their order.  An identifier that no row carries changes nothing. *)
Theorem removeResistor_removes_one_row (rid : string) (rs : list Resistor) :
  NoDup (ids rs) ->
  ((1 < List.length rs)%nat -> In rid (ids rs) ->
     S (List.length (removeResistor rid rs)) = List.length rs
     /\ ~ In rid (ids (removeResistor rid rs))
     /\ (forall r, In r (removeResistor rid rs) <-> In r rs /\ id r <> rid)
     /\ removeResistor rid rs
        = filter (fun r => negb (String.eqb (id r) rid)) rs)
  /\ (~ In rid (ids rs) -> removeResistor rid rs = rs).
Proof.
  intro Hnd. split.
  - intros Hlen Hin. unfold removeResistor.
    apply Nat.ltb_lt in Hlen. rewrite Hlen.
    split; [apply filter_id_present; assumption|]. split; [|split].
    + unfold ids. intro H. apply in_map_iff in H.
      destruct H as [x [Hx Hf]]. apply filter_In in Hf.
      destruct Hf as [_ Hf]. apply negb_true_iff in Hf.
      apply String.eqb_neq in Hf. contradiction.
    + intro r. rewrite filter_In, negb_true_iff, String.eqb_neq. tauto.
    + reflexivity.
  - intro Hnot. unfold removeResistor.
    destruct (1 <? List.length rs)%nat; [|reflexivity].
    apply filter_id_absent. exact Hnot.
Qed.

(** X7. [updateResistor] touches only the rows that carry the identifier,
    and only the edited field of those: the identifiers and their order are
    kept, a value edit keeps every unit and a unit edit keeps every value,
    the rows with another identifier are unchanged, every row with the
    identifier holds the new value or unit, and an identifier that no row
    carries changes nothing. *)
Theorem updateResistor_touches_one_field (rid : string) (u : FieldUpdate)
  (rs : list Resistor) :
  ids (updateResistor rid u rs) = ids rs
  /\ filter (fun r => negb (String.eqb (id r) rid)) (updateResistor rid u rs)
     = filter (fun r => negb (String.eqb (id r) rid)) rs
  /\ (forall r, In r (updateResistor rid u rs) -> id r = rid ->
        match u with
        | SetValue x => value r = x
        | SetMultiplier m => multiplier r = m
        end)
  /\ match u with
     | SetValue _ =>
         map multiplier (updateResistor rid u rs) = map multiplier rs
     | SetMultiplier _ => map value (updateResistor rid u rs) = map value rs
     end
  /\ (~ In rid (ids rs) -> updateResistor rid u rs = rs).
Proof.
  split; [apply ids_update|]. split; [|split; [|split]].
  - induction rs as [|r rs IH]; [reflexivity|].
    cbn [updateResistor map] in *. fold (updateResistor rid u rs) in *.
    destruct (String.eqb (id r) rid) eqn:E.
    + cbn [filter]. replace (id (setField u r)) with (id r)
        by (destruct u; reflexivity).
      rewrite E. cbn [negb]. exact IH.
    + cbn [filter]. rewrite E. cbn [negb]. f_equal. exact IH.
  - intros r Hin Hid. unfold updateResistor in Hin.
    apply in_map_iff in Hin. destruct Hin as [x [Hx _]].
    destruct (String.eqb (id x) rid) eqn:E.
    + subst r. destruct u; reflexivity.
    + subst r. apply String.eqb_neq in E. contradiction.
  - unfold updateResistor. destruct u; rewrite map_map; apply map_ext;
      intro r; destruct (String.eqb (id r) rid); reflexivity.
  - intro Hnot. unfold updateResistor.
    rewrite <- (map_id rs) at 2. apply map_ext_in. intros r Hr.
    destruct (String.eqb (id r) rid) eqn:E; [|reflexivity].
    apply String.eqb_eq in E. exfalso. apply Hnot.
    unfold ids. apply in_map_iff. exists r. split; assumption.
Qed.

End ListMoreFacts.

Section RowEditsFacts.
Import Types App RowEdits.

Lemma or_default_finite (x : number) :
  match x with Inf _ => False | _ => True end ->
  isFinite (or_default x (num 0)) = true.
Proof.
  destruct x as [q| |]; intro H; try contradiction; [|reflexivity].
  unfold or_default. cbn [isNaN orb].
  destruct (eqb (Fin q) (num 0)); reflexivity.
Qed.

Lemma apply_keeps_finite (e : Edit) (rs : list Resistor) :
  ordinary e -> finite_values rs -> finite_values (apply e rs).
Proof.
  unfold finite_values. intros He H. destruct e as [newId|r parsed|r m|r];
    cbn [apply].
  - unfold addResistor. apply Forall_app. split; [exact H|].
    constructor; [reflexivity|constructor].
  - unfold ResistorRow.onValueChange, updateResistor.
    apply Forall_forall. intros x Hx. apply in_map_iff in Hx.
    destruct Hx as [y [<- Hy]]. rewrite Forall_forall in H.
    destruct (String.eqb (id y) (id r)); [|apply H; exact Hy].
    cbn [setField value]. apply or_default_finite.
    destruct parsed; try exact I. exact He.
  - unfold ResistorRow.onMultiplierChange, updateResistor.
    apply Forall_forall. intros x Hx. apply in_map_iff in Hx.
    destruct Hx as [y [<- Hy]]. rewrite Forall_forall in H.
    destruct (String.eqb (id y) (id r)); [|apply H; exact Hy].
    cbn [setField value]. apply H. exact Hy.
  - unfold ResistorRow.onRemoveClick, removeResistor.
    destruct (1 <? List.length rs)%nat; [|exact H].
    apply Forall_forall. intros x Hx. apply filter_In in Hx.
    rewrite Forall_forall in H. apply H. tauto.
Qed.

(** X8. Whatever the user does to the rows - add, type into a value box,
    pick a unit, remove - the value field of every resistor stays a finite
    number, as long as the typed texts do not parse to an infinity: an
    emptied or unparseable value box counts as 0. *)
Theorem rows_keep_real_values (id1 id2 : string) (es : list Edit) :
  Forall ordinary es ->
  finite_values (run es (initialResistors id1 id2))
  /\ (forall r rs, In r rs ->
        In (mkResistor (id r) (num 0) (multiplier r))
           (ResistorRow.onValueChange r NaN rs)).
Proof.
  intro H. split.
  - assert (H0 : finite_values (initialResistors id1 id2))
      by (repeat constructor).
    revert H0. generalize (initialResistors id1 id2).
    induction H as [|e es He Hes IH]; intros rs Hrs; [exact Hrs|].
    cbn [run]. apply IH. apply apply_keeps_finite; assumption.
  - intros r rs Hin. unfold ResistorRow.onValueChange, updateResistor.
    apply in_map_iff. exists r. split; [|exact Hin].
    rewrite String.eqb_refl. reflexivity.
Qed.

End RowEditsFacts.

(** ** The plain number formatter *)

Section FormatNumberFacts.
Import App FormatSpec ExponentSpec.
Local Open Scope js_scope.

(** X9. Outside exponent notation [formatNumber] never shows more than
    three decimals: 0 prints as "0", and a value with 0.001 <= |x| <= 10000
    (both bounds included) prints rounded to three decimals with grouped
    thousands.  NaN and the infinities print as such. *)
Theorem formatNumber_plain_range (x : Q) :
  ((x == 0)%Q -> formatNumber (Fin x) = "0"%string)
  /\ (((1 # 1000) <= Qabs x <= 10000)%Q ->
      formatNumber (Fin x) = toLocaleString 3 (Fin x)
      /\ shows_decimals 3 x (formatNumber (Fin x)))
  /\ formatNumber NaN = "NaN"%string
  /\ formatNumber (Inf false) = "Infinity"%string
  /\ formatNumber (Inf true) = "-Infinity"%string.
Proof.
  split; [|split; [|repeat split]].
  - intro H. unfold formatNumber.
    replace (Fin x === num 0) with true
      by (symmetry; apply eqb_Fin_true; exact H).
    reflexivity.
  - intros [Hlo Hhi].
    assert (Hx : ~ (x == 0)%Q).
    { intro H. rewrite H in Hlo. apply Hlo. reflexivity. }
    assert (E : formatNumber (Fin x) = toLocaleString 3 (Fin x)).
    { unfold formatNumber.
      replace (Fin x === num 0) with false
        by (symmetry; apply eqb_Fin_false; exact Hx).
      replace (Math_abs (Fin x) <? Fin (1 # 1000)) with false
        by (symmetry; apply ltb_Fin_false; exact Hlo).
      replace (Math_abs (Fin x) >? num 10000) with false
        by (symmetry; apply gtb_Fin_false; exact Hhi).
      reflexivity. }
    split; [exact E|]. rewrite E. apply toLocaleString_shows.
Qed.

End FormatNumberFacts.

(** ** Ohm's law: the derived quantities *)

Section OhmsMoreFacts.
Import OhmsLawCalculator OhmsPairs.
Local Open Scope js_scope.

Variable Math_sqrt : number -> number.

(** The boxes after a run on a pair of nonzero reals. *)
Lemma calculate_given (pr : Pair) (a b : Q) :
  ~ (a == 0)%Q -> ~ (b == 0)%Q ->
  exists V I R P : Q,
    calculate Math_sqrt (given pr a b)
    = mkState (mkOhms (Fin (Qround_to 4 V)) (Fin (Qround_to 4 I))
                      (Fin (Qround_to 4 R)) (Fin (Qround_to 4 P)))
              (derived pr) None
    /\ supplied pr V I R P = (a, b)
    /\ (V == I * R)%Q /\ (P == V * I)%Q.
Proof.
  intros Ha Hb.
  assert (Haa : ~ (a * a == 0)%Q).
  { intro H. apply Ha. destruct (Qmult_integral _ _ H); assumption. }
  destruct pr; unfold given, calculate;
    cbn [values v i r p input isNaN count Nat.add Nat.eqb negb writeBack
         error calculatedKeys mul];
    rewrite ?div_Fin by assumption; cbn [reparse_toFixed];
    do 4 eexists; (split; [reflexivity|]); (split; [reflexivity|]);
    split; field; repeat split; assumption.
Qed.

(** X15. The count check of the Ohm's-law solver: a run on a form with any
    number of filled boxes other than two reports the wrong-count error and
    changes neither the boxes nor the marks; a run on exactly two filled
    boxes leaves the error as it was and marks exactly the two boxes that
    were empty as calculated. *)
Theorem ohms_count_check (st : State) :
  (filled (values st) <> 2%nat ->
     calculate Math_sqrt st
     = mkState (values st) (calculatedKeys st) (Some NeedTwo))
  /\ (filled (values st) = 2%nat ->
      error (calculate Math_sqrt st) = error st
      /\ List.length (calculatedKeys (calculate Math_sqrt st)) = 2%nat
      /\ (forall k, In k (calculatedKeys (calculate Math_sqrt st)) <->
                    isNaN (box k (values st)) = true)).
Proof.
  destruct st as [[V I R P] keys err]. unfold filled, calculate, input.
  cbn [values box v i r p filter error calculatedKeys].
  destruct (isNaN V) eqn:EV, (isNaN I) eqn:EI, (isNaN R) eqn:ER,
           (isNaN P) eqn:EP;
    cbn [negb List.length count Nat.add Nat.eqb filter];
    (split; [intro H; try reflexivity; exfalso; apply H; reflexivity|]);
    intro H; try discriminate H;
    (split; [reflexivity|split; [reflexivity|]]);
    intros [ | | | ]; cbn [box v i r p calculatedKeys];
    rewrite ?EV, ?EI, ?ER, ?EP; simpl; intuition congruence.
Qed.

(** X16. After a solve all four boxes hold numbers, so a second run is
    refused with the wrong-count error and changes nothing - also after
    the user typed another number into any box.  (Shown for the pairs of
    nonzero reals other than (R, P).) *)
Theorem ohms_second_run_refused (pr : Pair) (a b : Q) :
  ~ (a == 0)%Q -> ~ (b == 0)%Q ->
  let st := calculate Math_sqrt (given pr a b) in
  calculate Math_sqrt st = mkState (values st) (calculatedKeys st) (Some NeedTwo)
  /\ (forall k y,
        let st' := handleChange k (Fin y) st in
        calculate Math_sqrt st' = mkState (values st') [] (Some NeedTwo)).
Proof.
  intros Ha Hb st.
  destruct (calculate_given pr a b Ha Hb) as [V [I [R [P [E _]]]]].
  unfold st. rewrite E. split; [reflexivity|].
  intros k y. destruct k; reflexivity.
Qed.

End OhmsMoreFacts.

(** ** The LED series resistor *)

Section LedFacts.
Import LEDCalculator LedSpec.
Local Open Scope js_scope.

(** X18. The two refusals of the LED calculator.  With a box that holds no
    number the click does nothing at all: no alert, and an earlier result
    stays on display.  With real numbers and a source voltage not above the
    LED voltage the alert is shown and, again, the earlier result stays. *)
Theorem led_refusals :
  (forall st, incomplete st -> calculate st = (st, None))
  /\ (forall vs vf ic old, (vs <= vf)%Q ->
        calculate (form vs vf ic old)
        = (form vs vf ic old, Some sourceTooLow)).
Proof.
  split.
  - intros [[vs vf ic] old] H. unfold incomplete in H.
    cbn [values sourceVoltage ledVoltage ledCurrent] in H.
    unfold calculate. cbn [values sourceVoltage ledVoltage ledCurrent].
    destruct H as [H|[H|H]]; subst; cbn [isNaN orb];
      rewrite ?orb_true_r; reflexivity.
  - intros vs vf ic old H. unfold calculate, form.
    cbn [values sourceVoltage ledVoltage ledCurrent isNaN orb].
    apply leb_Fin_true in H. rewrite H. reflexivity.
Qed.

End LedFacts.

(** ** The colour bands *)

Section BandFacts.
Import ColorCodeCalculator BandSpec.
Local Open Scope js_scope.

Lemma array_set_length {A : Type} (arr : list (option A)) i (x : A) :
  (i < List.length arr)%nat ->
  List.length (array_set arr i x) = List.length arr.
Proof.
  revert i. induction arr as [|y rest IH]; intros [|i] H; simpl in *;
    try lia.
  rewrite IH by lia. reflexivity.
Qed.

Lemma array_set_nth {A : Type} (arr : list (option A)) i j (x : A) :
  (i < List.length arr)%nat ->
  nth j (array_set arr i x) None = if Nat.eqb j i then Some x else nth j arr None.
Proof.
  revert i j. induction arr as [|y rest IH]; intros [|i] [|j] H; simpl in *;
    try lia; try reflexivity.
  apply IH. lia.
Qed.

Lemma offered_valid key i n :
  existsb (String.eqb key) (offered i n) = true ->
  isValidColor key i n = Some true.
Proof.
  intro H. apply existsb_exists in H. destruct H as [k [Hin Hk]].
  apply String.eqb_eq in Hk. subst k. unfold offered in Hin.
  apply filter_In in Hin. destruct Hin as [_ Hv].
  destruct (isValidColor key i n) as [[|]|]; congruence.
Qed.

Lemma press_well_formed c st :
  well_formed st -> shown st c = true -> well_formed (press c st).
Proof.
  intros [Hb [Hl Hv]] Hs. destruct c as [| |index key].
  - split; [left; reflexivity|split; [reflexivity|]].
    intros i Hi. cbn in Hi.
    destruct i as [|[|[|[|i]]]]; try lia; eexists; split; reflexivity.
  - split; [right; reflexivity|split; [reflexivity|]].
    intros i Hi. cbn in Hi.
    destruct i as [|[|[|[|[|i]]]]]; try lia; eexists; split; reflexivity.
  - cbn [shown] in Hs. apply andb_true_iff in Hs. destruct Hs as [Hi Ho].
    apply Nat.ltb_lt in Hi. apply offered_valid in Ho.
    unfold press, updateColor. unfold well_formed. cbn [bands colors].
    split; [assumption|].
    split; [rewrite array_set_length by lia; assumption|].
    intros j Hj. rewrite array_set_nth by lia.
    destruct (Nat.eqb j index) eqn:E.
    + apply Nat.eqb_eq in E. subst j. exists key. split; [reflexivity|assumption].
    + apply Hv. assumption.
Qed.

Lemma initial_well_formed : well_formed initial.
Proof.
  split; [left; reflexivity|split; [reflexivity|]].
  intros i Hi. cbn in Hi.
  destruct i as [|[|[|[|i]]]]; try lia; eexists; split; reflexivity.
Qed.

Lemma run_well_formed clicks st st' :
  well_formed st -> run clicks st = Some st' -> well_formed st'.
Proof.
  revert st. induction clicks as [|c rest IH]; intros st Hw Hr; simpl in Hr.
  - inversion Hr. subst. assumption.
  - destruct (shown st c) eqn:Hs; [|discriminate].
    apply (IH (press c st)); [apply press_well_formed|]; assumption.
Qed.

(** X20. Whatever buttons the user presses, starting from the initial
    resistor - the two mode buttons and the colour buttons that the
    selectors show - the resistor stays well formed: it has four or five
    bands, the colour array is exactly that long, and every band carries a
    colour that is valid for its position (a digit colour, a multiplier
    colour, or a tolerance colour at the end). *)
Theorem bands_stay_well_formed (clicks : list Click) (st : State) :
  run clicks initial = Some st -> well_formed st.
Proof.
  apply run_well_formed. apply initial_well_formed.
Qed.











End BandFacts.

(** ** The RC solvers and the shared error *)

Section RCErrorFacts.
Import RCCalculator.
Local Open Scope js_scope.

Variables Math_log Math_exp : number -> number.

Lemma calculateFilter_error (st : State) :
  error (calculateFilter st) = error st
  \/ exists e, calculateFilter st = setError e st.
Proof.
  unfold calculateFilter.
  repeat match goal with
    | |- context [if ?b then _ else _] => destruct b
    end;
    first [ left; reflexivity | right; eexists; reflexivity ].
Qed.

Lemma calculateDelay_error (st : State) :
  error (calculateDelay Math_log Math_exp st) = error st
  \/ exists e, calculateDelay Math_log Math_exp st = setError e st.
Proof.
  unfold calculateDelay.
  repeat match goal with
    | |- context [if ?b then _ else _] => destruct b
    end;
    first [ left; reflexivity | right; eexists; reflexivity ].
Qed.

(** X24. The two RC solvers share one error message and neither of them
    ever clears it.  A run either leaves the message as it was, or it sets a
    message and changes nothing else (no box, no result).  So a message
    that is on display stays on display after a solve, also after a
    successful solve on the other tab. *)
Theorem rc_solvers_keep_error (st : State) :
  let st1 := calculateFilter st in
  let st2 := calculateDelay Math_log Math_exp st in
  (error st1 = error st \/ exists e, st1 = setError e st)
  /\ (error st2 = error st \/ exists e, st2 = setError e st)
  /\ (error st <> None -> error st1 <> None /\ error st2 <> None).
Proof.
  pose proof (calculateFilter_error st) as HF.
  pose proof (calculateDelay_error st) as HD.
  cbv zeta. split; [exact HF|]. split; [exact HD|].
  intro Hne. split.
  - destruct HF as [E|[e E]]; rewrite E; [assumption|discriminate].
  - destruct HD as [E|[e E]]; rewrite E; [assumption|discriminate].
Qed.

End RCErrorFacts.


(** ** The zero guards of the RC filter, in double precision *)

Section FilterGuardFacts.
Import Double DoubleSpec DoubleRCCalculator.
Import RCCalculator(Error, FreqZero, CapZero).
Local Open Scope double_scope.

Lemma two_pi : of_Z 2 * Math_PI = S754_finite false 7074237752028440 (-50).
Proof. vm_compute. reflexivity. Qed.

(** X23. The zero guards of the filter solver are uneven.  Let R, C and F
    be the scaled values that the program computes (box times unit, NaN for
    an empty box).  With a frequency and one of R and C, a frequency of zero
    is refused, and so is a capacitance of zero when the resistance is
    wanted.  But a resistance of zero with a finite nonzero frequency is
    accepted: the capacitance box receives an infinity and the time constant
    is NaN.  And a resistance of zero with a finite capacitance is accepted:
    the time constant is zero, and the cut-off frequency and the frequency
    box are infinite.  In both cases the error is left as it was. *)
Theorem filter_zero_guards (st : State) :
  let vs := values st in
  let R := scaled (r vs) (rUnit vs) in
  let C := scaled (c vs) (cUnit vs) in
  let F := scaled (f vs) (fUnit vs) in
  let st' := calculateFilter st in
  (xorb (isNaN R) (isNaN C) = true -> (F === of_Z 0) = true ->
     st' = setError FreqZero st)
  /\ (isNaN R = true -> (C === of_Z 0) = true -> isNaN F = false ->
      (F === of_Z 0) = false -> st' = setError CapZero st)
  /\ (is_zero R = true -> isNaN C = true -> is_finite_nonzero F = true ->
      result st' = Some (S754_nan, F)
      /\ is_infinite (c (values st')) = true
      /\ error st' = error st)
  /\ (is_zero R = true -> is_finite C = true ->
      (exists tau fc, result st' = Some (tau, fc)
                      /\ is_zero tau = true /\ is_infinite fc = true)
      /\ is_infinite (f (values st')) = true
      /\ error st' = error st).
Proof.
  intros vs R C F st'. subst st'. unfold calculateFilter.
  fold vs. fold R. fold C. fold F.
  split; [|split; [|split]].
  - intros HX HF. rewrite HF. destruct (eqb_not_NaN _ _ HF) as [HF' _].
    rewrite HF'. destruct (isNaN R), (isNaN C); try discriminate HX;
      reflexivity.
  - intros HR HC HF HF0. rewrite HR, HF, HF0, HC.
    destruct (eqb_not_NaN _ _ HC) as [HC' _]. rewrite HC'. reflexivity.
  - intros HR HC HF. rewrite two_pi.
    destruct R as [sr| | |]; try discriminate HR.
    destruct F as [| | |sf mf ef]; try discriminate HF.
    rewrite HC. cbn [isNaN negb andb].
    destruct sr, sf; vm_compute; repeat split.
  - intros HR HC. rewrite two_pi.
    destruct R as [sr| | |]; try discriminate HR.
    destruct C as [sc| | |sc mc ec]; try discriminate HC;
      cbn [isNaN negb andb]; cbv iota.
    + destruct sr, sc; (split; [do 2 eexists; split; [reflexivity|]; split|];
                        vm_compute; repeat split).
    + destruct sr, sc; (split; [do 2 eexists; split; [reflexivity|]; split|];
                        vm_compute; repeat split).
Qed.

End FilterGuardFacts.

(** ** Which quantity the charging solver derives, in double precision *)

Section DelayMoreFacts.
Import Double DoubleRCCalculator.
Import RCCalculator(Error, TargetNotBelow).
Local Open Scope double_scope.

Variables Math_log Math_exp : double -> double.

(** X25. Which quantity the charging solver derives, with Vin parseable,
    R > 0 and C > 0, where R, C and T are the values that the program
    computes (box times unit, in double precision).  A positive elapsed time
    takes precedence: the voltage Vin * (1 - exp(-T / (R*C))) reached after
    that time is written, to three decimals, over whatever the target box
    held, and no check of the target is made.  A time that is empty, zero
    or negative counts as not supplied: then an empty target gives the time
    constant R * C alone and leaves all boxes as they were, and a target at
    or above Vin is refused. *)
Theorem delay_time_takes_precedence (st : State) :
  let dv := delayValues st in
  let R := dr dv * drUnit dv in
  let C := dc dv * dcUnit dv in
  let T := t dv * tUnit dv in
  isNaN (vin dv) = false ->
  (R >? of_Z 0) = true -> (C >? of_Z 0) = true ->
  let st' := calculateDelay Math_log Math_exp st in
  ((T >? of_Z 0) = true ->
     delayResult st' = Some (T, R * C)
     /\ delayValues st'
        = mkDelay (vin dv)
            (reparse_toFixed 3
               (vin dv * (of_Z 1 - Math_exp (neg T / (R * C)))))
            (dr dv) (drUnit dv) (dc dv) (dcUnit dv) (t dv) (tUnit dv)
     /\ error st' = error st)
  /\ ((T >? of_Z 0) = false -> isNaN (vtarget dv) = true ->
      delayResult st' = Some (R * C, R * C)
      /\ delayValues st' = dv
      /\ error st' = error st)
  /\ ((T >? of_Z 0) = false -> isNaN (vtarget dv) = false ->
      (vtarget dv >=? vin dv) = true ->
      st' = setError TargetNotBelow st).
Proof.
  intros dv R C T Hvin HR HC st'.
  subst st'. unfold calculateDelay. fold dv. fold R. fold C. fold T.
  rewrite Hvin, HR, HC.
  rewrite (gtb_not_NaN _ _ HR), (gtb_not_NaN _ _ HC).
  cbn [negb andb orb].
  split; [|split].
  - intro HT. rewrite HT, (gtb_not_NaN _ _ HT).
    cbn [negb andb]. rewrite andb_false_r.
    cbn [delayResult delayValues error setDelayResult setDelayValues].
    fold dv. repeat split.
  - intros HT Htgt. rewrite HT, Htgt. rewrite andb_false_r.
    cbn [negb andb].
    cbn [delayResult delayValues error setDelayResult setDelayValues].
    repeat split.
  - intros HT Htgt Hge. rewrite HT, Htgt, Hge. rewrite andb_false_r.
    cbn [negb andb]. reflexivity.
Qed.

End DelayMoreFacts.

(** ** Kirchhoff's laws up to rounding *)

Section NetworkFacts.
Import Double DoubleSpec DoubleApp Rounding SeriesSpec NetworkSpec.
Import Types(Series, Parallel) App(InputType, voltage, current).
Local Open Scope double_scope.

(** X3. In series mode on a current source every row carries the source
    current I and the total voltage is I times the total resistance.  In a
    well scaled run of n rows the drops, added exactly, agree with the
    reported total voltage up to n + 1 roundings: each of the two is at
    least (1 - 2^-53)^(n+1) times the other. *)
Theorem series_current_drops_sum (I : double) (rs : list Resistor) :
  let res := results Series current I rs in
  totalCurrent res = I
  /\ totalVoltage res = I * totalResistance res
  /\ Forall (fun c => currentFlow c = I) (calculatedResistors res)
  /\ (well_scaled_current I rs ->
      approx (1 + List.length rs) (qsum (drops res)) (qv (totalVoltage res))).
Proof.
  intro res.
  pose proof (series_rows current I rs) as Rows. cbv zeta in Rows.
  fold res in Rows.
  split; [reflexivity|]. split; [reflexivity|].
  split; [rewrite Rows; apply Forall_forall; intros c Hc;
          apply in_map_iff in Hc; destruct Hc as [r [<- _]]; reflexivity|].
  intros [Hne [HI [HRs [HRt [HV Hds]]]]]. fold res in HRt, HV, Hds.
  assert (ERt : totalResistance res = sum (map actual rs)).
  { unfold res. cbn [results totalResistance].
    rewrite reduce_sum_map, withActual_snd. reflexivity. }
  assert (EI : totalCurrent res = I) by reflexivity.
  rewrite EI in Rows.
  assert (HRs' : all_normal (map actual rs)) by (apply all_normal_map; exact HRs).
  destruct (sum_approx (map actual rs)) as [NRt ARt];
    [destruct rs; [contradiction|discriminate]|exact HRs'
    |rewrite <- ERt; apply finite_not_infinity; exact HRt|].
  rewrite <- ERt in NRt, ARt. rewrite length_map in ARt.
  assert (Ed : drops res = map (fun R => I * R) (map actual rs)).
  { unfold drops. rewrite Rows, !map_map. reflexivity. }
  assert (Hds' : all_normal (map (fun R => I * R) (map actual rs))).
  { rewrite <- Ed. unfold drops. apply all_normal_map. exact Hds. }
  pose proof (qsum_drops I (map actual rs) HI HRs' Hds') as AD.
  rewrite <- Ed in AD.
  destruct (normal_positive I HI) as [mi [ei Ei]].
  destruct (normal_positive _ NRt) as [mt [et Et]].
  assert (AV : rounds_to (totalVoltage res) (qv I * qv (totalResistance res))).
  { change (totalVoltage res) with (I * totalResistance res) in *.
    rewrite Ei, Et in *. apply mul_approx.
    - right. exact HV.
    - apply normal_not_infinity. exact HV. }
  destruct AV as [_ AV].
  pose proof (qv_nonneg I HI) as PI.
  pose proof (approx_scale _ (qv I) _ _ (Qlt_le_weak _ _ PI)
                (approx_sym _ _ _ ARt)) as AS.
  pose proof (approx_trans _ _ _ _ _ AD
                (approx_trans _ _ _ _ _ AS (approx_sym _ _ _ AV))) as AT.
  replace (1 + (List.length rs - 1 + 1))%nat with (1 + List.length rs)%nat
    in AT by (destruct rs; [contradiction|cbn; lia]).
  exact AT.
Qed.

Lemma parallel_rows (k : InputType) (src : double) (rs : list Resistor) :
  let res := results Parallel k src rs in
  calculatedResistors res
  = map (fun r =>
           let flow := if actual r >? of_Z 0
                       then totalVoltage res / actual r else of_Z 0 in
           mkCalculated r (actual r) (totalVoltage res) flow
             (totalVoltage res * flow)
             (if totalCurrent res >? of_Z 0
              then flow / totalCurrent res * of_Z 100 else of_Z 0))
        rs.
Proof.
  destruct k; cbn [results calculatedResistors totalCurrent totalVoltage];
    unfold withActual; rewrite map_map; reflexivity.
Qed.

Lemma parallel_conductance (rs : list Resistor) :
  reduce_sum (fun r : Resistor * double =>
                if snd r >? of_Z 0 then of_Z 1 / snd r else of_Z 0)
             (withActual rs)
  = conductance rs.
Proof.
  rewrite reduce_sum_map. unfold conductance, withActual.
  rewrite map_map. reflexivity.
Qed.

(** The reciprocals and the quotients of a list, up to the rounding of each
    division. *)
Lemma qsum_quotients (V : double) (Rs : list double) :
  normal V = true -> all_normal Rs ->
  all_normal (map (fun R => V / R) Rs) ->
  approx 1 (qsum (map (fun R => V / R) Rs))
           (qv V * fold_right (fun R acc => / qv R + acc)%Q 0%Q Rs).
Proof.
  intros HV HRs. induction HRs as [|R Rs HR _ IH]; intro Hd.
  - cbn [map qsum fold_right]. unfold approx. cbn [Lpow]. split; lra.
  - cbn [map] in Hd. inversion Hd as [|d ds Hd1 Hd2]; subst.
    cbn [map qsum fold_right]. fold (qsum (map (fun R => V / R) Rs)).
    destruct (normal_positive V HV) as [mv [ev Ev]].
    destruct (normal_positive R HR) as [mr [er Er]].
    assert (H1 : rounds_to (V / R) (qv V / qv R)).
    { rewrite Ev, Er. apply div_approx.
      - right. rewrite <- Ev, <- Er. exact Hd1.
      - rewrite <- Ev, <- Er. apply normal_not_infinity. exact Hd1. }
    destruct H1 as [_ H1]. specialize (IH Hd2).
    pose proof (approx_add 1 _ _ _ _ H1 IH) as H.
    unfold approx in *. destruct H as [A1 A2].
    set (S := fold_right (fun R acc => / qv R + acc)%Q 0%Q Rs) in *.
    unfold Qdiv in A1, A2. split; lra.
Qed.

(** X1. In parallel mode on a voltage source every row shows the source
    voltage V, and the total current is V times the conductance of the
    rows.  In a well scaled run of n rows the branch currents, added
    exactly, agree with the reported total current up to n + 2 roundings:
    each of the two is at least (1 - 2^-53)^(n+2) times the other. *)
Theorem parallel_currents_sum (V : double) (rs : list Resistor) :
  let res := results Parallel voltage V rs in
  totalVoltage res = V
  /\ Forall (fun c => voltageDrop c = V) (calculatedResistors res)
  /\ totalCurrent res = V * conductance rs
  /\ (well_scaled_parallel V rs ->
      approx (2 + List.length rs) (qsum (flows res)) (qv (totalCurrent res))).
Proof.
  intro res.
  pose proof (parallel_rows voltage V rs) as Rows. cbv zeta in Rows.
  fold res in Rows.
  assert (EV : totalVoltage res = V) by reflexivity.
  assert (EI : totalCurrent res = V * conductance rs).
  { unfold res. cbn [results totalCurrent].
    rewrite parallel_conductance. reflexivity. }
  split; [exact EV|].
  split; [rewrite Rows; apply Forall_forall; intros c Hc;
          apply in_map_iff in Hc; destruct Hc as [r [<- _]]; exact EV|].
  split; [exact EI|].
  intros [Hne [HV [HRs [HI Hfl]]]]. fold res in HI, Hfl.
  assert (HR1 : Forall (fun r => normal (actual r) = true) rs)
    by (eapply Forall_impl; [|exact HRs]; intros r [H _]; exact H).
  assert (HR2 : Forall (fun r => normal (of_Z 1 / actual r) = true) rs)
    by (eapply Forall_impl; [|exact HRs]; intros r [_ H]; exact H).
  assert (HRs' : all_normal (map actual rs)) by (apply all_normal_map; exact HR1).
  (* the guards are open *)
  assert (Eg : map (fun r => if actual r >? of_Z 0 then of_Z 1 / actual r
                             else of_Z 0) rs
               = map (fun R => of_Z 1 / R) (map actual rs)).
  { rewrite map_map. apply map_ext_in. intros r Hr.
    rewrite Forall_forall in HR1. rewrite (normal_gt0 _ (HR1 r Hr)).
    reflexivity. }
  assert (Ef : flows res = map (fun R => V / R) (map actual rs)).
  { unfold flows. rewrite Rows, !map_map. apply map_ext_in. intros r Hr.
    cbn [currentFlow]. rewrite Forall_forall in HR1.
    rewrite (normal_gt0 _ (HR1 r Hr)), EV. reflexivity. }
  assert (HG : all_normal (map (fun R => of_Z 1 / R) (map actual rs))).
  { rewrite map_map. apply all_normal_map. exact HR2. }
  assert (HF : all_normal (map (fun R => V / R) (map actual rs))).
  { rewrite <- Ef. unfold flows. apply all_normal_map. exact Hfl. }
  set (G := conductance rs) in *.
  assert (EG : G = sum (map (fun R => of_Z 1 / R) (map actual rs)))
    by (unfold G, conductance; rewrite Eg; reflexivity).
  destruct (normal_positive V HV) as [mv [ev Ev]].
  assert (GI : G <> S754_infinity false).
  { intro E. rewrite EI, E, Ev in HI. discriminate HI. }
  destruct (sum_approx (map (fun R => of_Z 1 / R) (map actual rs)))
    as [NG AG];
    [destruct rs; [contradiction|discriminate]|exact HG
    |rewrite <- EG; exact GI|].
  rewrite <- EG in NG, AG. rewrite !length_map in AG.
  assert (N1 : normal (of_Z 1) = true) by reflexivity.
  pose proof (qsum_quotients (of_Z 1) (map actual rs) N1 HRs' HG) as A1.
  pose proof (qsum_quotients V (map actual rs) HV HRs' HF) as AF.
  rewrite <- Ef in AF.
  set (Sinv := fold_right (fun R acc => / qv R + acc)%Q 0%Q (map actual rs)) in *.
  assert (Q1 : (qv (of_Z 1) == 1)%Q) by reflexivity.
  destruct (normal_positive _ NG) as [mg [eg Eg']].
  assert (AI : rounds_to (totalCurrent res) (qv V * qv G)).
  { rewrite EI. pose proof (mul_approx mv ev mg eg) as M. cbv zeta in M.
    rewrite <- Ev, <- Eg' in M.
    apply M; [right|apply normal_not_infinity]; rewrite <- EI; exact HI. }
  destruct AI as [_ AI].
  pose proof (qv_nonneg V HV) as PV.
  (* the chain *)
  assert (B1 : approx 1 (qv V * Sinv)
                 (qv V * qsum (map (fun R => of_Z 1 / R) (map actual rs)))).
  { apply approx_scale; [lra|]. apply approx_sym.
    unfold approx in *. rewrite Q1 in A1. destruct A1. split; lra. }
  pose proof (approx_scale _ (qv V) _ _ (Qlt_le_weak _ _ PV)
                (approx_sym _ _ _ AG)) as B2.
  pose proof (approx_trans _ _ _ _ _ AF
                (approx_trans _ _ _ _ _ B1
                   (approx_trans _ _ _ _ _ B2 (approx_sym _ _ _ AI)))) as AT.
  replace (1 + (1 + (List.length rs - 1 + 1)))%nat
    with (2 + List.length rs)%nat
    in AT by (destruct rs; [contradiction|cbn; lia]).
  exact AT.
Qed.

End NetworkFacts.

(** ** The time constant and the cut-off frequency belong together *)

Section FilterPairFacts.
Import Double DoubleSpec DoubleRCCalculator Rounding FilterPairs.
Local Open Scope double_scope.

Lemma approx_inv k a b :
  (0 < a)%Q -> (0 < b)%Q -> approx k a b -> approx k (/ a) (/ b).
Proof.
  intros Ha Hb [H1 H2].
  assert (Ia : (0 < / a)%Q) by (apply Qinv_lt_0_compat; exact Ha).
  assert (Ib : (0 < / b)%Q) by (apply Qinv_lt_0_compat; exact Hb).
  assert (Ea : (a * / a == 1)%Q) by (field; lra).
  assert (Eb : (b * / b == 1)%Q) by (field; lra).
  unfold approx.
  set (ia := (/ a)%Q) in *. set (ib := (/ b)%Q) in *.
  destruct (Lpow_bounds k) as [K0 K1]. set (t := Lpow k) in *.
  assert (P : (0 < ia * ib)%Q) by nra.
  split.
  - assert (H : ((t * a) * (ia * ib) <= b * (ia * ib))%Q) by nra.
    assert (E1 : ((t * a) * (ia * ib) == t * ib * (a * ia))%Q) by ring.
    assert (E2 : (b * (ia * ib) == ia * (b * ib))%Q) by ring.
    rewrite E1, E2, Ea, Eb in H. lra.
  - assert (H : ((t * b) * (ia * ib) <= a * (ia * ib))%Q) by nra.
    assert (E1 : ((t * b) * (ia * ib) == t * ia * (b * ib))%Q) by ring.
    assert (E2 : (a * (ia * ib) == ib * (a * ia))%Q) by ring.
    rewrite E1, E2, Ea, Eb in H. lra.
Qed.

Lemma mul_rounds x y :
  normal x = true -> normal y = true -> normal (x * y) = true ->
  approx 1 (qv (x * y)) (qv x * qv y).
Proof.
  intros Hx Hy Hxy.
  destruct (normal_positive x Hx) as [mx [ex Ex]].
  destruct (normal_positive y Hy) as [my [ey Ey]].
  pose proof (mul_approx mx ex my ey) as M. cbv zeta in M.
  rewrite <- Ex, <- Ey in M.
  apply M; [right; exact Hxy|apply normal_not_infinity; exact Hxy].
Qed.

Lemma div_rounds x y :
  normal x = true -> normal y = true -> normal (x / y) = true ->
  approx 1 (qv (x / y)) (qv x / qv y).
Proof.
  intros Hx Hy Hxy.
  destruct (normal_positive x Hx) as [mx [ex Ex]].
  destruct (normal_positive y Hy) as [my [ey Ey]].
  pose proof (div_approx mx ex my ey) as M. cbv zeta in M.
  rewrite <- Ex, <- Ey in M.
  apply M; [right; exact Hxy|apply normal_not_infinity; exact Hxy].
Qed.

Lemma normal_not_NaN x : normal x = true -> isNaN x = false.
Proof. intro H. destruct (normal_positive x H) as [m [e ->]]. reflexivity. Qed.

Lemma normal_not_zero x : normal x = true -> (x === of_Z 0) = false.
Proof. intro H. destruct (normal_positive x H) as [m [e ->]]. reflexivity. Qed.

(** The derived quantity is 1 / (2 pi x y) up to three roundings. *)
Lemma derived_approx (k : Known) (x y : double) :
  well_scaled k x y ->
  approx 3 (qv (derived x y)) (/ (qv two_pi * qv x * qv y)).
Proof.
  intros [Hx [Hy [H1 [H2 [H3 _]]]]].
  assert (N2pi : normal two_pi = true) by reflexivity.
  assert (N1 : normal (of_Z 1) = true) by reflexivity.
  pose proof (qv_nonneg _ Hx) as Px. pose proof (qv_nonneg _ Hy) as Py.
  pose proof (qv_nonneg _ N2pi) as Pp.
  pose proof (qv_nonneg _ H1) as P1. pose proof (qv_nonneg _ H2) as P2.
  pose proof (mul_rounds two_pi x N2pi Hx H1) as A1.
  pose proof (mul_rounds (two_pi * x) y H1 Hy H2) as A2.
  pose proof (div_rounds (of_Z 1) (two_pi * x * y) N1 H2 H3) as A3.
  fold (derived x y) in A3.
  assert (B1 : approx 1 (qv (two_pi * x) * qv y) (qv two_pi * qv x * qv y)).
  { pose proof (approx_scale 1 (qv y) _ _ (Qlt_le_weak _ _ Py) A1) as B.
    unfold approx in *. destruct B. split; lra. }
  pose proof (approx_trans _ _ _ _ _ A2 B1) as B2.
  assert (Pd0 : (0 < qv two_pi * qv x)%Q) by nra.
  assert (Pd : (0 < qv two_pi * qv x * qv y)%Q) by nra.
  pose proof (approx_inv _ _ _ P2 Pd B2) as B3.
  assert (A3' : approx 1 (qv (derived x y)) (/ qv (two_pi * x * y))).
  { assert (Q1 : (qv (of_Z 1) == 1)%Q) by reflexivity.
    unfold approx in *. rewrite Q1 in A3. destruct A3 as [A3a A3b].
    unfold Qdiv in A3a, A3b. split; lra. }
  exact (approx_trans _ _ _ _ _ A3' B3).
Qed.

(** X22. A well scaled filter solve from two quantities - R and C, R and
    f, or C and f, the third box being empty in the last two cases -
    reports no error and a time constant tau and a cut-off frequency fc
    that belong together up to four roundings: 2 pi fc tau and 1 are each
    at least (1 - 2^-53)^4 times the other, where 2 pi is the double that
    the program uses.  With R and C the time constant is the product R * C
    in double precision; otherwise the frequency is the supplied one. *)
Theorem filter_time_constant (k : Known) (x y : double) (st : State) :
  supplies k x y st -> well_scaled k x y ->
  let st' := calculateFilter st in
  result st' = Some (tau_of k x y, fc_of k x y)
  /\ error st' = error st
  /\ approx 4 (qv two_pi * qv (fc_of k x y) * qv (tau_of k x y)) 1.
Proof.
  intros Hs Hw st'.
  pose proof (derived_approx k x y Hw) as AD.
  destruct Hw as [Hx [Hy [H1 [H2 [H3 H4]]]]].
  assert (N2pi : normal two_pi = true) by reflexivity.
  pose proof (qv_nonneg _ Hx) as Px. pose proof (qv_nonneg _ Hy) as Py.
  pose proof (qv_nonneg _ N2pi) as Pp. pose proof (qv_nonneg _ H3) as P3.
  assert (Pd0 : (0 < qv two_pi * qv x)%Q) by nra.
  assert (Pd : (0 < qv two_pi * qv x * qv y)%Q) by nra.
  assert (Ed : (qv two_pi * qv x * qv y * / (qv two_pi * qv x * qv y)
                == 1)%Q) by (field; lra).
  set (w := (/ (qv two_pi * qv x * qv y))%Q) in *.
  assert (Pw : (0 < w)%Q) by (apply Qinv_lt_0_compat; exact Pd).
  split; [|split].
  - (* the result *)
    subst st'. unfold calculateFilter. cbv zeta.
    destruct k; cbn [supplies] in Hs; cbv zeta in Hs.
    + destruct Hs as [HR HC]. rewrite HR, HC.
      rewrite (normal_not_NaN _ Hx), (normal_not_NaN _ Hy). reflexivity.
    + destruct Hs as [HR [HC HF]]. rewrite HR, HC, HF.
      rewrite (normal_not_NaN _ Hx), (normal_not_NaN _ Hy),
              (normal_not_zero _ Hy). reflexivity.
    + destruct Hs as [HR [HC HF]]. rewrite HR, HC, HF.
      rewrite (normal_not_NaN _ Hx), (normal_not_NaN _ Hy),
              (normal_not_zero _ Hy), (normal_not_zero _ Hx). reflexivity.
  - subst st'. unfold calculateFilter. cbv zeta.
    destruct k; cbn [supplies] in Hs; cbv zeta in Hs.
    + destruct Hs as [HR HC]. rewrite HR, HC.
      rewrite (normal_not_NaN _ Hx), (normal_not_NaN _ Hy). reflexivity.
    + destruct Hs as [HR [HC HF]]. rewrite HR, HC, HF.
      rewrite (normal_not_NaN _ Hx), (normal_not_NaN _ Hy),
              (normal_not_zero _ Hy). reflexivity.
    + destruct Hs as [HR [HC HF]]. rewrite HR, HC, HF.
      rewrite (normal_not_NaN _ Hx), (normal_not_NaN _ Hy),
              (normal_not_zero _ Hy), (normal_not_zero _ Hx). reflexivity.
  - (* the relation *)
    assert (E1 : (qv two_pi * (w * (qv x * qv y)) == 1)%Q)
      by (rewrite <- Ed; ring).
    assert (E2 : (qv two_pi * qv y * (qv x * w) == 1)%Q)
      by (rewrite <- Ed; ring).
    assert (Pxy : (0 <= qv x * qv y)%Q) by nra.
    assert (P2y : (0 <= qv two_pi * qv y)%Q) by nra.
    pose proof (qv_nonneg _ H4) as P4.
    destruct k; cbn [tau_of fc_of] in *.
    + pose proof (mul_rounds x y Hx Hy H4) as AT.
      pose proof (approx_mul 3 1 _ _ _ _ (Qlt_le_weak _ _ P3)
                    (Qlt_le_weak _ _ Pw) (Qlt_le_weak _ _ P4) Pxy AD AT) as AM.
      pose proof (approx_scale _ (qv two_pi) _ _ (Qlt_le_weak _ _ Pp) AM) as AS.
      cbn [Nat.add] in AS. unfold approx in *. rewrite E1 in AS.
      destruct AS as [S1 S2]. split; lra.
    + pose proof (mul_rounds x (derived x y) Hx H3 H4) as AT.
      pose proof (approx_scale 3 (qv x) _ _ (Qlt_le_weak _ _ Px) AD) as A1.
      pose proof (approx_trans _ _ _ _ _ AT A1) as A2.
      pose proof (approx_scale _ (qv two_pi * qv y) _ _ P2y A2) as AS.
      cbn [Nat.add] in AS. unfold approx in *. rewrite E2 in AS.
      destruct AS as [S1 S2]. split; lra.
    + pose proof (mul_rounds (derived x y) x H3 Hx H4) as AT.
      pose proof (approx_scale 3 (qv x) _ _ (Qlt_le_weak _ _ Px) AD) as A1.
      assert (A1' : approx 3 (qv (derived x y) * qv x) (qv x * w)).
      { unfold approx in *. destruct A1. split; lra. }
      pose proof (approx_trans _ _ _ _ _ AT A1') as A2.
      pose proof (approx_scale _ (qv two_pi * qv y) _ _ P2y A2) as AS.
      cbn [Nat.add] in AS. unfold approx in *. rewrite E2 in AS.
      destruct AS as [S1 S2]. split; lra.
Qed.

End FilterPairFacts.

(** * The further properties at concrete inputs *)

Section RowInstances.
Import Types App ListEdits RowEdits.
Local Open Scope js_scope.

(** Removing row "a" of the initial list leaves row "b". *)
Lemma removeResistor_removes_one_row_witness :
  NoDup (ids (initialResistors "a" "b"))
  /\ ids (removeResistor "a" (initialResistors "a" "b")) = ["b"%string]
  /\ ~ In "a"%string (ids (removeResistor "a" (initialResistors "a" "b"))).
Proof.
  assert (H : NoDup (ids (initialResistors "a" "b"))).
  { repeat constructor; simpl; intuition discriminate. }
  split; [exact H|]. split; [reflexivity|].
  refine (proj1 (proj2 (proj1 (removeResistor_removes_one_row "a"
                                 (initialResistors "a" "b") H) _ _))).
  - simpl. lia.
  - left. reflexivity.
Defined.

(** A third row is added, its box is emptied, and it is removed again. *)
Lemma rows_keep_real_values_witness :
  let es := [RowEdits.PressAdd "c";
             RowEdits.TypeValue (mkResistor "c" (num 100) Ohm) NaN;
             RowEdits.PressRemove (mkResistor "c" (num 0) Ohm)] in
  Forall RowEdits.ordinary es
  /\ finite_values (RowEdits.run es (initialResistors "a" "b")).
Proof.
  intro es.
  assert (H : Forall RowEdits.ordinary es) by (repeat constructor).
  split; [exact H|].
  exact (proj1 (rows_keep_real_values "a" "b" es H)).
Defined.

End RowInstances.

Section OhmsInstances.
Import OhmsLawCalculator OhmsPairs.
Local Open Scope js_scope.

Lemma ohms_second_run_refused_witness :
  let st := calculate Ideal.Math_sqrt (given VR 12 4) in
  ~ (12 == 0)%Q /\ ~ (4 == 0)%Q
  /\ error (calculate Ideal.Math_sqrt st) = Some NeedTwo.
Proof.
  intro st.
  assert (H1 : ~ (12 == 0)%Q) by discriminate.
  assert (H2 : ~ (4 == 0)%Q) by discriminate.
  split; [exact H1|]. split; [exact H2|].
  unfold st.
  rewrite (proj1 (ohms_second_run_refused Ideal.Math_sqrt VR 12 4 H1 H2)).
  reflexivity.
Defined.

End OhmsInstances.

Section BandInstances.
Import ColorCodeCalculator BandSpec.
Local Open Scope js_scope.

(** Five bands, then yellow and violet on the first two: 470 x 10 ohm. *)
Lemma bands_stay_well_formed_witness :
  let clicks := [Mode5; Pick 0 "yellow"; Pick 1 "violet"] in
  let st := mkState 5 [Some "yellow"; Some "violet"; Some "black";
                       Some "brown"; Some "brown"]%string in
  run clicks initial = Some st /\ well_formed st.
Proof.
  intros clicks st.
  assert (H : run clicks initial = Some st) by reflexivity.
  split; [exact H|]. exact (bands_stay_well_formed clicks st H).
Defined.


End BandInstances.


Section DelayInstances.
Import Double DoubleRCCalculator.
Local Open Scope double_scope.

(** The default charging form with 2 s typed into the time box: the target
    box receives 4.323 V. *)
Lemma delay_time_takes_precedence_witness :
  let st := setDelayValues
              (fun prev => mkDelay (vin prev) (vtarget prev) (dr prev)
                             (drUnit prev) (dc prev) (dcUnit prev) (of_Z 2)
                             (tUnit prev))
              initial in
  let st' := calculateDelay DoubleIdeal.Math_log DoubleIdeal.Math_exp st in
  isNaN (vin (delayValues st)) = false
  /\ vtarget (delayValues st') = nearest (4323 # 1000)
  /\ error st' = None.
Proof.
  intros st st'.
  assert (H1 : isNaN (vin (delayValues st)) = false) by reflexivity.
  assert (HR : (dr (delayValues st) * drUnit (delayValues st) >? of_Z 0)
               = true) by (vm_compute; reflexivity).
  assert (HC : (dc (delayValues st) * dcUnit (delayValues st) >? of_Z 0)
               = true) by (vm_compute; reflexivity).
  assert (HT : (t (delayValues st) * tUnit (delayValues st) >? of_Z 0)
               = true) by (vm_compute; reflexivity).
  split; [exact H1|].
  destruct (proj1 (delay_time_takes_precedence DoubleIdeal.Math_log
                     DoubleIdeal.Math_exp st H1 HR HC) HT) as [_ [Hv He]].
  split; [|exact He].
  unfold st'. rewrite Hv. vm_compute. reflexivity.
Defined.

End DelayInstances.

Section NetworkInstances.
Import Double DoubleApp.
Local Open Scope double_scope.

(** The initial list (100 ohm and 200 ohm) makes well scaled runs: in
    series on a source of 2 A, and in parallel on a source of 10 V. *)
Example network_examples :
  NetworkSpec.well_scaled_current (of_Z 2) (initialResistors "a" "b")
  /\ NetworkSpec.well_scaled_parallel (of_Z 10) (initialResistors "a" "b")
  /\ totalVoltage (results Types.Series App.current (of_Z 2)
                     (initialResistors "a" "b")) = of_Z 600
  /\ NetworkSpec.flows (results Types.Parallel App.voltage (of_Z 10)
                          (initialResistors "a" "b"))
     = [nearest (1 # 10); nearest (1 # 20)].
Proof.
  split; [|split].
  - split; [discriminate|].
    repeat split; try (vm_compute; reflexivity);
      repeat constructor; vm_compute; reflexivity.
  - split; [discriminate|].
    repeat split; try (vm_compute; reflexivity);
      repeat constructor; vm_compute; reflexivity.
  - split; vm_compute; reflexivity.
Qed.

End NetworkInstances.

Section FilterPairInstances.
Import Double DoubleRCCalculator Rounding FilterPairs.
Local Open Scope double_scope.

(** R = 1 kOhm and C = 1 uF. *)
Lemma filter_time_constant_witness :
  let st := mkState
              (mkRC (of_Z 1) (of_Z 1000) (of_Z 1) (nearest (1 # 1000000))
                    S754_nan (of_Z 1))
              None (delayValues initial) None None in
  let x := of_Z 1000 in
  let y := nearest (1 # 1000000) in
  supplies KnownRC x y st
  /\ well_scaled KnownRC x y
  /\ error (calculateFilter st) = None
  /\ approx 4 (qv two_pi * qv (derived x y) * qv (x * y)) 1.
Proof.
  intros st x y.
  assert (H1 : supplies KnownRC x y st) by (split; vm_compute; reflexivity).
  assert (H2 : well_scaled KnownRC x y)
    by (repeat split; vm_compute; reflexivity).
  split; [exact H1|]. split; [exact H2|].
  destruct (filter_time_constant KnownRC x y st H1 H2) as [_ [He Ha]].
  split; [exact He|exact Ha].
Defined.

End FilterPairInstances.
